(** * SIMON-64 / SIMON-128 (simon.cpp): a shallow embedding and its properties

    Words are modelled as [Z] with the wrap-around written out.  Arrays
    ([word32 key[42]], [m_rkeys], [m_wspace]) are lists updated by index.
    Byte buffers live in a flat byte memory addressed by [Z], so that the
    aliasing of [inBlock] and [outBlock] can be expressed. *)

From Stdlib Require Import ZArith Lia Bool List.

From Stdlib.Strings Require Import Byte.

From stdpp Require Import base numbers list.

Local Open Scope Z_scope.

(** ** Word primitives *)

Module Word.

(** Truncation of a value to an unsigned integer of [bits] bits. *)
Definition wrap (bits x : Z) : Z := x mod 2 ^ bits.

(** Modelled from the spec: [rotlConstant<R>] of misc.h, "left-rotation by k
    bits within the word width w"; the shifted-out bits re-enter on the
    right and the result is truncated to the word type. *)
Definition rotlConstant (bits r x : Z) : Z :=
  wrap bits (Z.lor (Z.shiftl x r) (Z.shiftr x (bits - r))).

(** Modelled from the spec: [rotrConstant<R>] of misc.h, "right-rotation by
    k" within the word width. *)
Definition rotrConstant (bits r x : Z) : Z :=
  wrap bits (Z.lor (Z.shiftr x r) (Z.shiftl x (bits - r))).

(** [static_cast<int>(i)]: the low 32 bits read as a signed integer. *)
Definition static_cast_int (i : Z) : Z :=
  let u := wrap 32 i in if u <? 2 ^ 31 then u else u - 2 ^ 32.

(** An [int] converted to [unsigned int], as the usual arithmetic
    conversions do when it meets an [unsigned int] operand. *)
Definition to_unsigned (i : Z) : Z := wrap 32 i.

(** Width of [size_t] on the targets of the library's 64-bit builds. *)
Definition size_t_bits : Z := 64.

End Word.

Import Word.

(** ** Round function (anonymous namespace of simon.cpp) *)

Section Rounds.

(** [W] of the templates: 32 for [word32], 64 for [word64]. *)
Variable bits : Z.

(** [template <class W> inline W f(const W v)] *)
Definition f (v : Z) : Z :=
  Z.lxor (Z.land (rotlConstant bits 1 v) (rotlConstant bits 8 v))
         (rotlConstant bits 2 v).

(** [template <class W> inline void R2(W& x, W& y, const W k, const W l)];
    the two references are returned as the pair [(x, y)]. *)
Definition R2 (xy : Z * Z) (k l : Z) : Z * Z :=
  let '(x, y) := xy in
  let y := Z.lxor y (f x) in
  let y := Z.lxor y k in
  let x := Z.lxor x (f y) in
  let x := Z.lxor x l in
  (x, y).

(** Subkey [k[i]] for a [size_t] index. *)
Definition subkey (k : list Z) (i : Z) : Z := k !!! Z.to_nat i.

(** The loop of [SIMON_Encrypt]:
    [for (size_t i = 0; static_cast<int>(i) < R-1; i += 2)
         R2(c[0], c[1], k[i], k[i + 1]);]
    [R] is [unsigned int], so the comparison is an unsigned one. *)
Fixpoint encrypt_loop (fuel : nat) (R : Z) (k : list Z) (i : Z) (c : Z * Z)
  : Z * Z :=
  match fuel with
  | O => c
  | S fuel' =>
      if to_unsigned (static_cast_int i) <? wrap 32 (R - 1)
      then encrypt_loop fuel' R k (wrap size_t_bits (i + 2))
             (R2 c (subkey k i) (subkey k (i + 1)))
      else c
  end.

(** [template <class W, unsigned int R>
     inline void SIMON_Encrypt(W c[2], const W p[2], const W k[R])] *)
Definition SIMON_Encrypt (R : Z) (p : Z * Z) (k : list Z) : Z * Z :=
  let c := p in
  let c := encrypt_loop (Z.to_nat R) R k 0 c in
  if Z.land R 1 =? 0 then c
  else
    let '(c0, c1) := c in
    let c1 := Z.lxor c1 (f c0) in
    let c1 := Z.lxor c1 (subkey k (R - 1)) in
    (c1, c0).

(** The loop of [SIMON_Decrypt]:
    [for (size_t i = rounds - 2; static_cast<int>(i) >= 0; i -= 2)
         R2(p[1], p[0], k[i + 1], k[i]);]
    The block is kept as [(p[0], p[1])]; [R2] receives it swapped. *)
Fixpoint decrypt_loop (fuel : nat) (k : list Z) (i : Z) (p : Z * Z)
  : Z * Z :=
  match fuel with
  | O => p
  | S fuel' =>
      if 0 <=? static_cast_int i
      then
        let '(p0, p1) := p in
        let '(p1, p0) := R2 (p1, p0) (subkey k (i + 1)) (subkey k i) in
        decrypt_loop fuel' k (wrap size_t_bits (i - 2)) (p0, p1)
      else p
  end.

(** [template <class W, unsigned int R>
     inline void SIMON_Decrypt(W p[2], const W c[2], const W k[R])] *)
Definition SIMON_Decrypt (R : Z) (c : Z * Z) (k : list Z) : Z * Z :=
  let p := c in
  let rounds := R in
  let '(p, rounds) :=
    if Z.land rounds 1 =? 0 then (p, rounds)
    else
      let '(p0, p1) := p in
      let '(p0, p1) := (p1, p0) in
      let p1 := Z.lxor p1 (subkey k (rounds - 1)) in
      let p1 := Z.lxor p1 (f p0) in
      ((p0, p1), wrap 32 (rounds - 1)) in
  decrypt_loop (Z.to_nat R) k (wrap 32 (rounds - 2)) p.

End Rounds.

(** ** The five instantiations of the templates *)

Inductive variant : Set :=
  | SIMON64_96 | SIMON64_128 | SIMON128_128 | SIMON128_192 | SIMON128_256.

(** Width of [W] in bits. *)
Definition word_bits (v : variant) : Z :=
  match v with
  | SIMON64_96 | SIMON64_128 => 32
  | SIMON128_128 | SIMON128_192 | SIMON128_256 => 64
  end.

(** Number of user-key words, [m_kwords]. *)
Definition key_words (v : variant) : nat :=
  match v with
  | SIMON128_128 => 2
  | SIMON64_96 | SIMON128_192 => 3
  | SIMON64_128 | SIMON128_256 => 4
  end.

(** Template argument [R], also stored in [m_rounds]. *)
Definition rounds_of (v : variant) : Z :=
  match v with
  | SIMON64_96 => 42
  | SIMON64_128 => 44
  | SIMON128_128 => 68
  | SIMON128_192 => 69
  | SIMON128_256 => 72
  end.

(** ** The paired rounds of the two loops, unrolled *)

Section UnrolledRounds.

Variable bits : Z.

Variable k : list Z.

(** [n] consecutive paired rounds of the encryption loop from index [i]. *)
Fixpoint enc_rounds (n : nat) (i : Z) (c : Z * Z) : Z * Z :=
  match n with
  | O => c
  | S n' => enc_rounds n' (i + 2) (R2 bits c (subkey k i) (subkey k (i + 1)))
  end.

(** [n] consecutive paired rounds of the decryption loop, downwards from
    index [i]. *)
Fixpoint dec_rounds (n : nat) (i : Z) (p : Z * Z) : Z * Z :=
  match n with
  | O => p
  | S n' =>
      let '(p0, p1) := p in
      let '(p1, p0) := R2 bits (p1, p0) (subkey k (i + 1)) (subkey k i) in
      dec_rounds n' (i - 2) (p0, p1)
  end.

End UnrolledRounds.

(** ** Loops *)

Section Loops.

Context {St : Type}.

(** One pass of a loop: [None] when the condition fails, otherwise the
    state after the body and the increment. *)
Variable step : St → option St.

Fixpoint while_loop (fuel : nat) (s : St) : St :=
  match fuel with
  | O => s
  | S fuel' =>
      match step s with
      | Some s' => while_loop fuel' s'
      | None => s
      end
  end.

(** The state after [n] passes, if the condition held [n] times. *)
Fixpoint iterate (n : nat) (s : St) : option St :=
  match n with
  | O => Some s
  | S n' =>
      match step s with
      | Some s' => iterate n' s'
      | None => None
      end
  end.

(** The loop entered in state [s] runs its body exactly [n] times. *)
Definition runs_exactly (n : nat) (s : St) : bool :=
  match iterate n s with
  | Some s' => match step s' with None => true | Some _ => false end
  | None => false
  end.

End Loops.

(** ** Key schedule *)

Notation "a ^^ b" := (Z.lxor a b) (at level 50, left associativity).

(** State of a key-schedule loop: the counter [i], the constant sequence [z]
    and the subkey array [key]. *)
Record expand_state : Type :=
  { es_i : nat; es_z : Z; es_key : list Z }.

(** [for (size_t i = first; i < bound; ++i) { key[i] = rhs; z >>= 1; }] *)
Definition expand_step (bound : nat) (rhs : Z → list Z → nat → Z)
    (s : expand_state) : option expand_state :=
  if (es_i s <? bound)%nat then
    let key := <[es_i s := rhs (es_z s) (es_key s) (es_i s)]> (es_key s) in
    let z := Z.shiftr (es_z s) 1 in
    Some {| es_i := S (es_i s); es_z := z; es_key := key |}
  else None.

Module SIMON64_42R3K.

Definition c : Z := 0xfffffffc.

Definition z : Z := 0x7369f885192c0ef5.

(** Right-hand side of the assignment in the loop; the 64-bit value is
    truncated when stored into the [word32] array. *)
Definition rhs (z : Z) (key : list Z) (i : nat) : Z :=
  wrap 32 (c ^^ Z.land z 1 ^^ key !!! (i - 3)%nat
             ^^ rotrConstant 32 3 (key !!! (i - 1)%nat)
             ^^ rotrConstant 32 4 (key !!! (i - 1)%nat)).

Definition step : expand_state → option expand_state := expand_step 42 rhs.

(** State at the loop's entry, after [key[0] = k[2]; key[1] = k[1];
    key[2] = k[0];]. *)
Definition seed (key k : list Z) : expand_state :=
  let key := <[0%nat := k !!! 2%nat]> key in
  let key := <[1%nat := k !!! 1%nat]> key in
  let key := <[2%nat := k !!! 0%nat]> key in
  {| es_i := 3; es_z := z; es_key := key |}.

End SIMON64_42R3K.

(** [inline void SIMON64_ExpandKey_42R3K(word32 key[42], const word32 k[3])] *)
Definition SIMON64_ExpandKey_42R3K (key k : list Z) : list Z :=
  let s := while_loop SIMON64_42R3K.step 42 (SIMON64_42R3K.seed key k) in
  es_key s.

Module SIMON64_44R4K.

Definition c : Z := 0xfffffffc.

Definition z : Z := 0xfc2ce51207a635db.

Definition rhs (z : Z) (key : list Z) (i : nat) : Z :=
  wrap 32 (c ^^ Z.land z 1 ^^ key !!! (i - 4)%nat
             ^^ rotrConstant 32 3 (key !!! (i - 1)%nat)
             ^^ key !!! (i - 3)%nat
             ^^ rotrConstant 32 4 (key !!! (i - 1)%nat)
             ^^ rotrConstant 32 1 (key !!! (i - 3)%nat)).

Definition step : expand_state → option expand_state := expand_step 44 rhs.

Definition seed (key k : list Z) : expand_state :=
  let key := <[0%nat := k !!! 3%nat]> key in
  let key := <[1%nat := k !!! 2%nat]> key in
  let key := <[2%nat := k !!! 1%nat]> key in
  let key := <[3%nat := k !!! 0%nat]> key in
  {| es_i := 4; es_z := z; es_key := key |}.

End SIMON64_44R4K.

(** [inline void SIMON64_ExpandKey_44R4K(word32 key[44], const word32 k[4])] *)
Definition SIMON64_ExpandKey_44R4K (key k : list Z) : list Z :=
  let s := while_loop SIMON64_44R4K.step 44 (SIMON64_44R4K.seed key k) in
  es_key s.

Module SIMON128_68R2K.

Definition c : Z := 0xfffffffffffffffc.

Definition z : Z := 0x7369f885192c0ef5.

Definition rhs (z : Z) (key : list Z) (i : nat) : Z :=
  c ^^ Z.land z 1 ^^ key !!! (i - 2)%nat
    ^^ rotrConstant 64 3 (key !!! (i - 1)%nat)
    ^^ rotrConstant 64 4 (key !!! (i - 1)%nat).

Definition step : expand_state → option expand_state := expand_step 66 rhs.

Definition seed (key k : list Z) : expand_state :=
  let key := <[0%nat := k !!! 1%nat]> key in
  let key := <[1%nat := k !!! 0%nat]> key in
  {| es_i := 2; es_z := z; es_key := key |}.

(** The two assignments after the loop, one definition per statement. *)
Definition assign_66 (key : list Z) : list Z :=
  <[66%nat := c ^^ 1 ^^ key !!! 64%nat
                ^^ rotrConstant 64 3 (key !!! 65%nat)
                ^^ rotrConstant 64 4 (key !!! 65%nat)]> key.

Definition assign_67 (key : list Z) : list Z :=
  <[67%nat := c ^^ key !!! 65%nat
                ^^ rotrConstant 64 3 (key !!! 66%nat)
                ^^ rotrConstant 64 4 (key !!! 66%nat)]> key.

Definition tail (key : list Z) : list Z :=
  let key := assign_66 key in
  let key := assign_67 key in
  key.

End SIMON128_68R2K.

(** [inline void SIMON128_ExpandKey_68R2K(word64 key[68], const word64 k[2])] *)
Definition SIMON128_ExpandKey_68R2K (key k : list Z) : list Z :=
  let s := while_loop SIMON128_68R2K.step 68 (SIMON128_68R2K.seed key k) in
  SIMON128_68R2K.tail (es_key s).

Module SIMON128_69R3K.

Definition c : Z := 0xfffffffffffffffc.

Definition z : Z := 0xfc2ce51207a635db.

Definition rhs (z : Z) (key : list Z) (i : nat) : Z :=
  c ^^ Z.land z 1 ^^ key !!! (i - 3)%nat
    ^^ rotrConstant 64 3 (key !!! (i - 1)%nat)
    ^^ rotrConstant 64 4 (key !!! (i - 1)%nat).

Definition step : expand_state → option expand_state := expand_step 67 rhs.

Definition seed (key k : list Z) : expand_state :=
  let key := <[0%nat := k !!! 2%nat]> key in
  let key := <[1%nat := k !!! 1%nat]> key in
  let key := <[2%nat := k !!! 0%nat]> key in
  {| es_i := 3; es_z := z; es_key := key |}.

Definition assign_67 (key : list Z) : list Z :=
  <[67%nat := c ^^ key !!! 64%nat
                ^^ rotrConstant 64 3 (key !!! 66%nat)
                ^^ rotrConstant 64 4 (key !!! 66%nat)]> key.

Definition assign_68 (key : list Z) : list Z :=
  <[68%nat := c ^^ 1 ^^ key !!! 65%nat
                ^^ rotrConstant 64 3 (key !!! 67%nat)
                ^^ rotrConstant 64 4 (key !!! 67%nat)]> key.

Definition tail (key : list Z) : list Z :=
  let key := assign_67 key in
  let key := assign_68 key in
  key.

End SIMON128_69R3K.

(** [inline void SIMON128_ExpandKey_69R3K(word64 key[69], const word64 k[3])] *)
Definition SIMON128_ExpandKey_69R3K (key k : list Z) : list Z :=
  let s := while_loop SIMON128_69R3K.step 69 (SIMON128_69R3K.seed key k) in
  SIMON128_69R3K.tail (es_key s).

Module SIMON128_72R4K.

Definition c : Z := 0xfffffffffffffffc.

Definition z : Z := 0xfdc94c3a046d678b.

Definition rhs (z : Z) (key : list Z) (i : nat) : Z :=
  c ^^ Z.land z 1 ^^ key !!! (i - 4)%nat
    ^^ rotrConstant 64 3 (key !!! (i - 1)%nat)
    ^^ key !!! (i - 3)%nat
    ^^ rotrConstant 64 4 (key !!! (i - 1)%nat)
    ^^ rotrConstant 64 1 (key !!! (i - 3)%nat).

Definition step : expand_state → option expand_state := expand_step 68 rhs.

Definition seed (key k : list Z) : expand_state :=
  let key := <[0%nat := k !!! 3%nat]> key in
  let key := <[1%nat := k !!! 2%nat]> key in
  let key := <[2%nat := k !!! 1%nat]> key in
  let key := <[3%nat := k !!! 0%nat]> key in
  {| es_i := 4; es_z := z; es_key := key |}.

Definition assign_68 (key : list Z) : list Z :=
  <[68%nat := c ^^ key !!! 64%nat
                ^^ rotrConstant 64 3 (key !!! 67%nat)
                ^^ key !!! 65%nat
                ^^ rotrConstant 64 4 (key !!! 67%nat)
                ^^ rotrConstant 64 1 (key !!! 65%nat)]> key.

Definition assign_69 (key : list Z) : list Z :=
  <[69%nat := c ^^ 1 ^^ key !!! 65%nat
                ^^ rotrConstant 64 3 (key !!! 68%nat)
                ^^ key !!! 66%nat
                ^^ rotrConstant 64 4 (key !!! 68%nat)
                ^^ rotrConstant 64 1 (key !!! 66%nat)]> key.

Definition assign_70 (key : list Z) : list Z :=
  <[70%nat := c ^^ key !!! 66%nat
                ^^ rotrConstant 64 3 (key !!! 69%nat)
                ^^ key !!! 67%nat
                ^^ rotrConstant 64 4 (key !!! 69%nat)
                ^^ rotrConstant 64 1 (key !!! 67%nat)]> key.

Definition assign_71 (key : list Z) : list Z :=
  <[71%nat := c ^^ key !!! 67%nat
                ^^ rotrConstant 64 3 (key !!! 70%nat)
                ^^ key !!! 68%nat
                ^^ rotrConstant 64 4 (key !!! 70%nat)
                ^^ rotrConstant 64 1 (key !!! 68%nat)]> key.

Definition tail (key : list Z) : list Z :=
  let key := assign_68 key in
  let key := assign_69 key in
  let key := assign_70 key in
  let key := assign_71 key in
  key.

End SIMON128_72R4K.

(** [inline void SIMON128_ExpandKey_72R4K(word64 key[72], const word64 k[4])] *)
Definition SIMON128_ExpandKey_72R4K (key k : list Z) : list Z :=
  let s := while_loop SIMON128_72R4K.step 72 (SIMON128_72R4K.seed key k) in
  SIMON128_72R4K.tail (es_key s).

(** The expansion routine, the loop's entry state and the loop's pass of
    each variant. *)
Definition ExpandKey (v : variant) : list Z → list Z → list Z :=
  match v with
  | SIMON64_96 => SIMON64_ExpandKey_42R3K
  | SIMON64_128 => SIMON64_ExpandKey_44R4K
  | SIMON128_128 => SIMON128_ExpandKey_68R2K
  | SIMON128_192 => SIMON128_ExpandKey_69R3K
  | SIMON128_256 => SIMON128_ExpandKey_72R4K
  end.

Definition zloop_seed (v : variant) : list Z → list Z → expand_state :=
  match v with
  | SIMON64_96 => SIMON64_42R3K.seed
  | SIMON64_128 => SIMON64_44R4K.seed
  | SIMON128_128 => SIMON128_68R2K.seed
  | SIMON128_192 => SIMON128_69R3K.seed
  | SIMON128_256 => SIMON128_72R4K.seed
  end.

Definition zloop_step (v : variant) : expand_state → option expand_state :=
  match v with
  | SIMON64_96 => SIMON64_42R3K.step
  | SIMON64_128 => SIMON64_44R4K.step
  | SIMON128_128 => SIMON128_68R2K.step
  | SIMON128_192 => SIMON128_69R3K.step
  | SIMON128_256 => SIMON128_72R4K.step
  end.

(** Number of words the z-driven loop of each routine derives (its bound
    minus its first index). *)
Definition zloop_words (v : variant) : nat :=
  match v with
  | SIMON64_96 => 39
  | SIMON64_128 => 40
  | SIMON128_128 | SIMON128_192 | SIMON128_256 => 64
  end.

(** ** The published user keys *)

(** The user keys of the published vectors, as decoded words. *)
Definition userkey_64_96 : list Z := [0x13121110; 0x0b0a0908; 0x03020100].

Definition userkey_64_128 : list Z :=
  [0x1b1a1918; 0x13121110; 0x0b0a0908; 0x03020100].

Definition userkey_128_128 : list Z :=
  [0x0f0e0d0c0b0a0908; 0x0706050403020100].

Definition userkey_128_192 : list Z :=
  [0x1716151413121110; 0x0f0e0d0c0b0a0908; 0x0706050403020100].

Definition userkey_128_256 : list Z :=
  [0x1f1e1d1c1b1a1918; 0x1716151413121110; 0x0f0e0d0c0b0a0908;
   0x0706050403020100].

(** ** The recurrences of the specification *)

(** The two-key-word recurrence in the words of the specification
    (section 4.2), for [m] in {2, 3}; [bit] stands for [(z AND 1)] or for
    the published pattern. *)
Definition recurrence_2or3 (m : nat) (c bit : Z) (key : list Z) (i : nat) : Z :=
  let tmp := rotrConstant 64 3 (key !!! (i - 1)%nat)
             ^^ rotrConstant 64 4 (key !!! (i - 1)%nat) in
  c ^^ bit ^^ key !!! (i - m)%nat ^^ tmp.

(** The four-key-word recurrence in the words of the specification, for
    [m = 4]. *)
Definition recurrence_4 (c bit : Z) (key : list Z) (i : nat) : Z :=
  let tmp := rotrConstant 64 3 (key !!! (i - 1)%nat)
             ^^ key !!! (i - 3)%nat
             ^^ rotrConstant 64 4 (key !!! (i - 1)%nat)
             ^^ rotrConstant 64 1 (key !!! (i - 3)%nat) in
  c ^^ bit ^^ key !!! (i - 4)%nat ^^ tmp.

(** ** Byte buffers and big-endian words *)

(** The address space the byte pointers point into. *)
Definition memory : Type := Z → byte.

Definition byte_to_Z (b : byte) : Z := Z.of_N (Byte.to_N b).

Definition byte_of_Z (z : Z) : byte :=
  default x00 (Byte.of_N (Z.to_N (z mod 256))).

Definition byte_xor (a b : byte) : byte :=
  byte_of_Z (Z.lxor (byte_to_Z a) (byte_to_Z b)).

#[global] Instance byte_inhabited : Inhabited byte := populate x00.

(** [n] bytes starting at address [a]. *)
Fixpoint load_bytes (m : memory) (a : Z) (n : nat) : list byte :=
  match n with
  | O => []
  | S n' => m a :: load_bytes m (a + 1) n'
  end.

(** The memory after [bs] was copied to address [a]. *)
Definition store_bytes (m : memory) (a : Z) (bs : list byte) : memory :=
  λ a', if (a <=? a') && (a' <? a + Z.of_nat (length bs))
        then bs !!! Z.to_nat (a' - a)
        else m a'.

(** Modelled from the spec: big-endian decoding, "the first byte contributes
    the highest-order bits of the resulting word". *)
Definition be_decode (bs : list byte) : Z :=
  foldl (λ acc b, acc * 256 + byte_to_Z b) 0 bs.

(** Modelled from the spec: the big-endian bytes of a word of [n] bytes. *)
Definition be_encode (n : nat) (w : Z) : list byte :=
  map (λ j : nat, byte_of_Z (Z.shiftr w (8 * Z.of_nat (n - 1 - j)))) (seq 0 n).

(** [sizeof(W)]. *)
Definition word_bytes (bits : Z) : nat := Z.to_nat (bits / 8).

(** Modelled from the spec: one step of [GetBlock<W, BigEndian, false>] of
    misc.h, which is not part of this file: "input bytes are read as
    big-endian words". *)
Definition GetWord (bits : Z) (m : memory) (block : Z) : Z :=
  be_decode (load_bytes m block (word_bytes bits)).

(** Modelled from the spec: one step of [PutBlock<W, BigEndian, false>] of
    misc.h: "output bytes are written as big-endian words".  The
    specification's block operation is the case of a null [xorBlock]; for a
    non-null one the word read there is XORed into the bytes written, as the
    name [ProcessAndXorBlock] says. *)
Definition PutWord (bits : Z) (m : memory) (xorBlock : option Z) (block : Z)
    (value : Z) : memory :=
  let t1 := be_encode (word_bytes bits) value in
  let t1 := match xorBlock with
            | Some x => zip_with byte_xor t1 (load_bytes m x (word_bytes bits))
            | None => t1
            end in
  store_bytes m block t1.

(** Word [j] of a user key zero-padded to [outlen] words of [bits] bits. *)
Definition key_word (bits : Z) (outlen : nat) (userKey : list byte) (j : nat)
  : Z :=
  let U := word_bytes bits in
  let padded := take (outlen * U) userKey
                ++ replicate (outlen * U - length userKey) x00 in
  be_decode (take U (drop (j * U) padded)).

(** Modelled from the spec: [GetUserKey(BIG_ENDIAN_ORDER, out, outlen, in,
    inlen)] of misc.h: the user key, zero-padded to [outlen] words, is
    decoded "into m big-endian words" at the start of [out].  Key setup calls
    it with [inlen = outlen * sizeof(W)] for every accepted length; what
    misc.h does with a longer key is not modelled (the bytes beyond [outlen]
    words are ignored here). *)
Definition GetUserKey (bits : Z) (out : list Z) (outlen : nat)
    (userKey : list byte) : list Z :=
  foldl (λ out j, <[j := key_word bits outlen userKey j]> out)
        out (seq 0 outlen).

(** ** Cipher instances *)

(** The members of [SIMON_Base<W>] that simon.cpp uses. *)
Record SIMON_Base : Type :=
  { m_wspace : list Z;   (* workspace *)
    m_rkeys : list Z;    (* round keys *)
    m_kwords : Z;        (* number of key words *)
    m_rounds : Z }.      (* number of rounds *)

Definition set_wspace (inst : SIMON_Base) (w : list Z) : SIMON_Base :=
  {| m_wspace := w; m_rkeys := m_rkeys inst;
     m_kwords := m_kwords inst; m_rounds := m_rounds inst |}.

(** Errors: the exception of the keying interface and, in debug builds, a
    failed [CRYPTOPP_ASSERT]. *)
Inductive error : Set := InvalidKeyLength | AssertionFailure.

Inductive result (A : Type) : Type :=
  | Ok (a : A)
  | Err (e : error).

Arguments Ok {A} a.

Arguments Err {A} e.

#[global] Instance result_ret : MRet result := @Ok.

#[global] Instance result_bind : MBind result :=
  λ A B f m, match m with Ok a => f a | Err e => Err e end.

(** [CRYPTOPP_ASSERT(cond)]: checked in debug builds only. *)
Definition CRYPTOPP_ASSERT (debug cond : bool) : result unit :=
  if debug && negb cond then Err AssertionFailure else Ok tt.

(** [SecBlock::New(n)]: a block of [n] words whose contents are whatever the
    allocator hands out. *)
Record SecBlock_allocator : Type :=
  { New : nat → list Z;
    New_size : ∀ n : nat, length (New n) = n }.

(** [void SIMON64::Base::UncheckedSetKey(const byte *userKey,
         unsigned int keyLength, const NameValuePairs &params)] *)
Definition SIMON64_UncheckedSetKey (debug : bool) (alloc : SecBlock_allocator)
    (inst : SIMON_Base) (userKey : list byte) : result SIMON_Base :=
  let keyLength := Z.of_nat (length userKey) in
  _ ← CRYPTOPP_ASSERT debug ((keyLength =? 12) || (keyLength =? 16));
  let kwords := keyLength / 4 in
  let wspace := New alloc (Z.to_nat (Z.max kwords 4)) in
  let wspace := GetUserKey 32 wspace (Z.to_nat kwords) userKey in
  match kwords with
  | 3 =>
      let rkeys := New alloc 42 in
      let rkeys := SIMON64_ExpandKey_42R3K rkeys wspace in
      Ok {| m_wspace := wspace; m_rkeys := rkeys;
            m_kwords := kwords; m_rounds := 42 |}
  | 4 =>
      let rkeys := New alloc 44 in
      let rkeys := SIMON64_ExpandKey_44R4K rkeys wspace in
      Ok {| m_wspace := wspace; m_rkeys := rkeys;
            m_kwords := kwords; m_rounds := 44 |}
  | _ =>
      _ ← CRYPTOPP_ASSERT debug false;
      Ok {| m_wspace := wspace; m_rkeys := m_rkeys inst;
            m_kwords := kwords; m_rounds := m_rounds inst |}
  end.

(** [void SIMON128::Base::UncheckedSetKey(const byte *userKey,
         unsigned int keyLength, const NameValuePairs &params)] *)
Definition SIMON128_UncheckedSetKey (debug : bool) (alloc : SecBlock_allocator)
    (inst : SIMON_Base) (userKey : list byte) : result SIMON_Base :=
  let keyLength := Z.of_nat (length userKey) in
  _ ← CRYPTOPP_ASSERT debug
        ((keyLength =? 16) || (keyLength =? 24) || (keyLength =? 32));
  let kwords := keyLength / 8 in
  let wspace := New alloc (Z.to_nat (Z.max kwords 4)) in
  let wspace := GetUserKey 64 wspace (Z.to_nat kwords) userKey in
  match kwords with
  | 2 =>
      let rkeys := New alloc 68 in
      let rkeys := SIMON128_ExpandKey_68R2K rkeys wspace in
      Ok {| m_wspace := wspace; m_rkeys := rkeys;
            m_kwords := kwords; m_rounds := 68 |}
  | 3 =>
      let rkeys := New alloc 69 in
      let rkeys := SIMON128_ExpandKey_69R3K rkeys wspace in
      Ok {| m_wspace := wspace; m_rkeys := rkeys;
            m_kwords := kwords; m_rounds := 69 |}
  | 4 =>
      let rkeys := New alloc 72 in
      let rkeys := SIMON128_ExpandKey_72R4K rkeys wspace in
      Ok {| m_wspace := wspace; m_rkeys := rkeys;
            m_kwords := kwords; m_rounds := 72 |}
  | _ =>
      _ ← CRYPTOPP_ASSERT debug false;
      Ok {| m_wspace := wspace; m_rkeys := m_rkeys inst;
            m_kwords := kwords; m_rounds := m_rounds inst |}
  end.

(** The two cipher classes of the file. *)
Inductive cipher_class : Set := SIMON64 | SIMON128.

Definition UncheckedSetKey (cls : cipher_class)
  : bool → SecBlock_allocator → SIMON_Base → list byte → result SIMON_Base :=
  match cls with
  | SIMON64 => SIMON64_UncheckedSetKey
  | SIMON128 => SIMON128_UncheckedSetKey
  end.

(** The accepted user-key lengths in bytes. *)
Definition valid_key_length (cls : cipher_class) (keyLength : Z) : bool :=
  match cls with
  | SIMON64 => (keyLength =? 12) || (keyLength =? 16)
  | SIMON128 => (keyLength =? 16) || (keyLength =? 24) || (keyLength =? 32)
  end.

(** Modelled from the spec: key setup as the keying interface of the library
    runs it ([SetKey] of cryptlib.cpp, not part of this file): "validate
    length in {12, 16} for SIMON-64 or {16, 24, 32} for SIMON-128 ... Fails
    with InvalidKeyLength otherwise"; a valid key goes to [UncheckedSetKey]. *)
Definition SetKey (cls : cipher_class) (debug : bool)
    (alloc : SecBlock_allocator) (inst : SIMON_Base) (userKey : list byte)
  : result SIMON_Base :=
  if valid_key_length cls (Z.of_nat (length userKey))
  then UncheckedSetKey cls debug alloc inst userKey
  else Err InvalidKeyLength.

(** The variant a class selects for a user key of [keyLength] bytes. *)
Definition variant_of (cls : cipher_class) (keyLength : Z) : option variant :=
  match cls, keyLength with
  | SIMON64, 12 => Some SIMON64_96
  | SIMON64, 16 => Some SIMON64_128
  | SIMON128, 16 => Some SIMON128_128
  | SIMON128, 24 => Some SIMON128_192
  | SIMON128, 32 => Some SIMON128_256
  | _, _ => None
  end.

(** ** Single-block operations *)

(** [InBlock iblk(inBlock); iblk(m_wspace[0])(m_wspace[1]);] *)
Definition load_block (bits : Z) (inBlock : Z) (st : SIMON_Base * memory)
  : SIMON_Base * memory :=
  let '(inst, mem) := st in
  let n := Z.of_nat (word_bytes bits) in
  let w := <[0%nat := GetWord bits mem inBlock]> (m_wspace inst) in
  let w := <[1%nat := GetWord bits mem (inBlock + n)]> w in
  (set_wspace inst w, mem).

(** A call [SIMON_Encrypt<W, R>(m_wspace+2, m_wspace+0, m_rkeys)] or
    [SIMON_Decrypt<W, R>(...)]: the block at [m_wspace[0..1]] is transformed
    into [m_wspace[2..3]]. *)
Definition on_wspace (transform : Z * Z → list Z → Z * Z) (inst : SIMON_Base)
  : SIMON_Base :=
  let w := m_wspace inst in
  let '(c0, c1) := transform (w !!! 0%nat, w !!! 1%nat) (m_rkeys inst) in
  let w := <[2%nat := c0]> w in
  let w := <[3%nat := c1]> w in
  set_wspace inst w.

(** [OutBlock oblk(xorBlock, outBlock); oblk(m_wspace[2])(m_wspace[3]);] *)
Definition store_block (bits : Z) (xorBlock : option Z) (outBlock : Z)
    (st : SIMON_Base * memory) : SIMON_Base * memory :=
  let '(inst, mem) := st in
  let n := Z.of_nat (word_bytes bits) in
  let mem := PutWord bits mem xorBlock outBlock (m_wspace inst !!! 2%nat) in
  let mem := PutWord bits mem ((λ x, x + n) <$> xorBlock) (outBlock + n)
               (m_wspace inst !!! 3%nat) in
  (inst, mem).

(** The [switch (m_rounds)] of [SIMON64::Enc::ProcessAndXorBlock]. *)
Definition SIMON64_Enc_switch (debug : bool) (st : SIMON_Base * memory)
  : result (SIMON_Base * memory) :=
  let '(inst, mem) := st in
  match m_rounds inst with
  | 42 => Ok (on_wspace (SIMON_Encrypt 32 42) inst, mem)
  | 44 => Ok (on_wspace (SIMON_Encrypt 32 44) inst, mem)
  | _ => _ ← CRYPTOPP_ASSERT debug false; Ok (inst, mem)
  end.

(** The [switch (m_rounds)] of [SIMON64::Dec::ProcessAndXorBlock]. *)
Definition SIMON64_Dec_switch (debug : bool) (st : SIMON_Base * memory)
  : result (SIMON_Base * memory) :=
  let '(inst, mem) := st in
  match m_rounds inst with
  | 42 => Ok (on_wspace (SIMON_Decrypt 32 42) inst, mem)
  | 44 => Ok (on_wspace (SIMON_Decrypt 32 44) inst, mem)
  | _ => _ ← CRYPTOPP_ASSERT debug false; Ok (inst, mem)
  end.

(** The [switch (m_rounds)] of [SIMON128::Enc::ProcessAndXorBlock]. *)
Definition SIMON128_Enc_switch (debug : bool) (st : SIMON_Base * memory)
  : result (SIMON_Base * memory) :=
  let '(inst, mem) := st in
  match m_rounds inst with
  | 68 => Ok (on_wspace (SIMON_Encrypt 64 68) inst, mem)
  | 69 => Ok (on_wspace (SIMON_Encrypt 64 69) inst, mem)
  | 72 => Ok (on_wspace (SIMON_Encrypt 64 72) inst, mem)
  | _ => _ ← CRYPTOPP_ASSERT debug false; Ok (inst, mem)
  end.

(** The [switch (m_rounds)] of [SIMON128::Dec::ProcessAndXorBlock]. *)
Definition SIMON128_Dec_switch (debug : bool) (st : SIMON_Base * memory)
  : result (SIMON_Base * memory) :=
  let '(inst, mem) := st in
  match m_rounds inst with
  | 68 => Ok (on_wspace (SIMON_Decrypt 64 68) inst, mem)
  | 69 => Ok (on_wspace (SIMON_Decrypt 64 69) inst, mem)
  | 72 => Ok (on_wspace (SIMON_Decrypt 64 72) inst, mem)
  | _ => _ ← CRYPTOPP_ASSERT debug false; Ok (inst, mem)
  end.

(** The four [ProcessAndXorBlock] member functions. *)
Inductive block_op : Set := SIMON64_Enc | SIMON64_Dec | SIMON128_Enc | SIMON128_Dec.

Definition op_bits (op : block_op) : Z :=
  match op with
  | SIMON64_Enc | SIMON64_Dec => 32
  | SIMON128_Enc | SIMON128_Dec => 64
  end.

Definition op_class (op : block_op) : cipher_class :=
  match op with
  | SIMON64_Enc | SIMON64_Dec => SIMON64
  | SIMON128_Enc | SIMON128_Dec => SIMON128
  end.

Definition op_switch (op : block_op)
  : bool → SIMON_Base * memory → result (SIMON_Base * memory) :=
  match op with
  | SIMON64_Enc => SIMON64_Enc_switch
  | SIMON64_Dec => SIMON64_Dec_switch
  | SIMON128_Enc => SIMON128_Enc_switch
  | SIMON128_Dec => SIMON128_Dec_switch
  end.

(** Block size in bytes. *)
Definition block_bytes (op : block_op) : nat := (2 * word_bytes (op_bits op))%nat.

(** The three statements of a [ProcessAndXorBlock] body. *)
Inductive phase : Set := Load | Transform | Store.

(** The arguments of one call. *)
Record call : Type :=
  { c_op : block_op; c_in : Z; c_xor : option Z; c_out : Z }.

Definition run_phase (debug : bool) (c : call) (ph : phase)
    (st : SIMON_Base * memory) : result (SIMON_Base * memory) :=
  match ph with
  | Load => Ok (load_block (op_bits (c_op c)) (c_in c) st)
  | Transform => op_switch (c_op c) debug st
  | Store => Ok (store_block (op_bits (c_op c)) (c_xor c) (c_out c) st)
  end.

(** [void ...::ProcessAndXorBlock(const byte *inBlock, const byte *xorBlock,
         byte *outBlock) const]: the instance is returned because the body
    writes the workspace. *)
Definition ProcessAndXorBlock (debug : bool) (op : block_op)
    (inst : SIMON_Base) (mem : memory) (inBlock : Z) (xorBlock : option Z)
    (outBlock : Z) : result (SIMON_Base * memory) :=
  let c := {| c_op := op; c_in := inBlock; c_xor := xorBlock;
              c_out := outBlock |} in
  st ← run_phase debug c Load (inst, mem);
  st ← run_phase debug c Transform st;
  run_phase debug c Store st.

(** ** Calls that overlap in time *)

(** Threads that share one instance and one memory; each thread has the
    statements of its call still to run. *)
Record machine : Type :=
  { threads : list (call * list phase);
    shared : SIMON_Base * memory }.

Definition start (calls : list call) (inst : SIMON_Base) (mem : memory)
  : machine :=
  {| threads := (λ c, (c, [Load; Transform; Store])) <$> calls;
     shared := (inst, mem) |}.

(** Thread [tid] runs its next statement. *)
Definition thread_step (debug : bool) (tid : nat) (m : machine)
  : result machine :=
  match threads m !! tid with
  | Some (c, ph :: rest) =>
      st ← run_phase debug c ph (shared m);
      Ok {| threads := <[tid := (c, rest)]> (threads m); shared := st |}
  | _ => Ok m
  end.

(** The machine after the threads ran in the order of the schedule. *)
Fixpoint run_schedule (debug : bool) (schedule : list nat) (m : machine)
  : result machine :=
  match schedule with
  | [] => Ok m
  | tid :: schedule' =>
      m' ← thread_step debug tid m; run_schedule debug schedule' m'
  end.

(** All calls have returned. *)
Definition finished (m : machine) : bool :=
  forallb (λ t : call * list phase, match t.2 with [] => true | _ => false end)
          (threads m).

(** The calls made one after the other. *)
Fixpoint run_sequential (debug : bool) (calls : list call)
    (st : SIMON_Base * memory) : result (SIMON_Base * memory) :=
  match calls with
  | [] => Ok st
  | c :: calls' =>
      st' ← ProcessAndXorBlock debug (c_op c) st.1 st.2 (c_in c) (c_xor c)
              (c_out c);
      run_sequential debug calls' st'
  end.

(** The output buffer of call [c] in memory [mem]. *)
Definition output_of (c : call) (mem : memory) : list byte :=
  load_bytes mem (c_out c) (block_bytes (c_op c)).

(** ** Arrays that agree on a prefix *)

(** Two arrays with the same entries below index [n]. *)
Definition agree_below (n : nat) (K K' : list Z) : Prop :=
  ∀ j : nat, (j < n)%nat → K !!! j = K' !!! j.

(** A right-hand side that reads the array only below the index it
    defines. *)
Definition reads_below (rhs : Z → list Z → nat → Z) : Prop :=
  ∀ (z : Z) (K K' : list Z) (i : nat),
    (0 < i)%nat → agree_below i K K' → rhs z K i = rhs z K' i.

(** Bound and right-hand side of the z-driven loop of each routine. *)
Definition zloop_bound (v : variant) : nat :=
  match v with
  | SIMON64_96 => 42
  | SIMON64_128 => 44
  | SIMON128_128 => 66
  | SIMON128_192 => 67
  | SIMON128_256 => 68
  end.

Definition zloop_rhs (v : variant) : Z → list Z → nat → Z :=
  match v with
  | SIMON64_96 => SIMON64_42R3K.rhs
  | SIMON64_128 => SIMON64_44R4K.rhs
  | SIMON128_128 => SIMON128_68R2K.rhs
  | SIMON128_192 => SIMON128_69R3K.rhs
  | SIMON128_256 => SIMON128_72R4K.rhs
  end.

(** The round keys as a function of the user key alone: the matching
    routine run on the big-endian-decoded key, on zeroed arrays. *)
Definition schedule_of (v : variant) (userKey : list byte) : list Z :=
  ExpandKey v (replicate (Z.to_nat (rounds_of v)) 0)
    (GetUserKey (word_bits v) (replicate 4 0) (key_words v) userKey).

(** The transformation the [switch] of each member function selects. *)
Definition op_transform (op : block_op) (rounds : Z)
  : option (Z * Z → list Z → Z * Z) :=
  match op, rounds with
  | SIMON64_Enc, 42 => Some (SIMON_Encrypt 32 42)
  | SIMON64_Enc, 44 => Some (SIMON_Encrypt 32 44)
  | SIMON64_Dec, 42 => Some (SIMON_Decrypt 32 42)
  | SIMON64_Dec, 44 => Some (SIMON_Decrypt 32 44)
  | SIMON128_Enc, 68 => Some (SIMON_Encrypt 64 68)
  | SIMON128_Enc, 69 => Some (SIMON_Encrypt 64 69)
  | SIMON128_Enc, 72 => Some (SIMON_Encrypt 64 72)
  | SIMON128_Dec, 68 => Some (SIMON_Decrypt 64 68)
  | SIMON128_Dec, 69 => Some (SIMON_Decrypt 64 69)
  | SIMON128_Dec, 72 => Some (SIMON_Decrypt 64 72)
  | _, _ => None
  end.

(** An instance as key setup leaves it: a workspace of four words and the
    round count and round keys of one of the class's variants. *)
Definition configured (cls : cipher_class) (inst : SIMON_Base) : bool :=
  (length (m_wspace inst) =? 4)%nat
  && (Z.of_nat (length (m_rkeys inst)) =? m_rounds inst)
  && match cls with
     | SIMON64 => (m_rounds inst =? 42) || (m_rounds inst =? 44)
     | SIMON128 =>
         (m_rounds inst =? 68) || (m_rounds inst =? 69) || (m_rounds inst =? 72)
     end.

(** The accepted key lengths, spelled out. *)
Definition accepted_length (cls : cipher_class) (n : Z) : Prop :=
  match cls with
  | SIMON64 => n = 12 ∨ n = 16
  | SIMON128 => n = 16 ∨ n = 24 ∨ n = 32
  end.

(** The bytes [PutWord] writes. *)
Definition word_out (bits : Z) (m : memory) (xorBlock : option Z) (value : Z)
  : list byte :=
  match xorBlock with
  | Some x => zip_with byte_xor (be_encode (word_bytes bits) value)
                (load_bytes m x (word_bytes bits))
  | None => be_encode (word_bytes bits) value
  end.

(** [xorBlock], when not null, lies apart from the buffer at [buf]. *)
Definition xor_apart (n : nat) (xorBlock : option Z) (buf : Z) : Prop :=
  match xorBlock with
  | Some x => x + Z.of_nat n ≤ buf ∨ buf + Z.of_nat n ≤ x
  | None => True
  end.

(** ** The published test vectors *)

Definition bytes_of (l : list Z) : list byte := map byte_of_Z l.

(** Key bytes of the vector of each variant, in the order they are fed to
    key setup. *)
Definition vector_key (v : variant) : list byte :=
  bytes_of
    match v with
    | SIMON64_96 =>
    [0x13; 0x12; 0x11; 0x10; 0x0b; 0x0a; 0x09; 0x08;
     0x03; 0x02; 0x01; 0x00]
    | SIMON64_128 =>
    [0x1b; 0x1a; 0x19; 0x18; 0x13; 0x12; 0x11; 0x10;
     0x0b; 0x0a; 0x09; 0x08; 0x03; 0x02; 0x01; 0x00]
    | SIMON128_128 =>
    [0x0f; 0x0e; 0x0d; 0x0c; 0x0b; 0x0a; 0x09; 0x08;
     0x07; 0x06; 0x05; 0x04; 0x03; 0x02; 0x01; 0x00]
    | SIMON128_192 =>
    [0x17; 0x16; 0x15; 0x14; 0x13; 0x12; 0x11; 0x10;
     0x0f; 0x0e; 0x0d; 0x0c; 0x0b; 0x0a; 0x09; 0x08;
     0x07; 0x06; 0x05; 0x04; 0x03; 0x02; 0x01; 0x00]
    | SIMON128_256 =>
    [0x1f; 0x1e; 0x1d; 0x1c; 0x1b; 0x1a; 0x19; 0x18;
     0x17; 0x16; 0x15; 0x14; 0x13; 0x12; 0x11; 0x10;
     0x0f; 0x0e; 0x0d; 0x0c; 0x0b; 0x0a; 0x09; 0x08;
     0x07; 0x06; 0x05; 0x04; 0x03; 0x02; 0x01; 0x00]
    end.

(** Plaintext bytes of the vector of each variant. *)
Definition vector_plaintext (v : variant) : list byte :=
  bytes_of
    match v with
    | SIMON64_96 =>
    [0x6f; 0x72; 0x20; 0x67; 0x6e; 0x69; 0x6c; 0x63]
    | SIMON64_128 =>
    [0x65; 0x6b; 0x69; 0x6c; 0x20; 0x64; 0x6e; 0x75]
    | SIMON128_128 =>
    [0x63; 0x73; 0x65; 0x64; 0x20; 0x73; 0x72; 0x65;
     0x6c; 0x6c; 0x65; 0x76; 0x61; 0x72; 0x74; 0x20]
    | SIMON128_192 =>
    [0x20; 0x65; 0x72; 0x65; 0x68; 0x74; 0x20; 0x6e;
     0x65; 0x68; 0x77; 0x20; 0x65; 0x62; 0x69; 0x72]
    | SIMON128_256 =>
    [0x74; 0x20; 0x6e; 0x69; 0x20; 0x6d; 0x6f; 0x6f;
     0x6d; 0x69; 0x73; 0x20; 0x61; 0x20; 0x73; 0x69]
    end.

(** Ciphertext words of the vector of each variant. *)
Definition vector_ciphertext (v : variant) : Z * Z :=
  match v with
  | SIMON64_96 => (0x5ca2e27f, 0x111a8fc8)
  | SIMON64_128 => (0x44c8fc20, 0xb9dfa07a)
  | SIMON128_128 => (0x49681b1e1e54fe3f, 0x65aa832af84e0bbc)
  | SIMON128_192 => (0xc4ac61effcdc0d4f, 0x6c9c8d6e2597b85b)
  | SIMON128_256 => (0x8d2b5579afc8a3a0, 0x3bf72a87efe7b868)
  end.

(** The two big-endian words of a block of bytes. *)
Definition decode_block (bits : Z) (bs : list byte) : Z * Z :=
  (be_decode (take (word_bytes bits) bs), be_decode (drop (word_bytes bits) bs)).

(** ** Calls on one instance, one after another and overlapping *)

(** The output buffers after the threads ran in the order of a schedule that
    lets every call return. *)
Definition outputs_after (debug : bool) (schedule : list nat)
    (calls : list call) (inst : SIMON_Base) (mem : memory)
  : option (list (list byte)) :=
  match run_schedule debug schedule (start calls inst mem) with
  | Ok m =>
      if finished m
      then Some (map (λ c, output_of c (shared m).2) calls)
      else None
  | Err _ => None
  end.

(** The output buffers after the calls ran one after the other. *)
Definition outputs_sequential (debug : bool) (calls : list call)
    (inst : SIMON_Base) (mem : memory) : option (list (list byte)) :=
  match run_sequential debug calls (inst, mem) with
  | Ok st => Some (map (λ c, output_of c st.2) calls)
  | Err _ => None
  end.

(** The input and output buffers of different calls do not overlap. *)
Definition apart (n : nat) (a b : Z) : bool :=
  (a + Z.of_nat n <=? b) || (b + Z.of_nat n <=? a).

Definition calls_apart (c d : call) : bool :=
  let n := block_bytes (c_op c) in
  apart n (c_in c) (c_in d) && apart n (c_in c) (c_out d)
  && apart n (c_out c) (c_in d) && apart n (c_out c) (c_out d).

Fixpoint buffers_disjoint (calls : list call) : bool :=
  match calls with
  | [] => true
  | c :: calls' => forallb (calls_apart c) calls' && buffers_disjoint calls'
  end.

(** An allocator that hands out zeroed blocks, and an instance before any
    key setup. *)
Definition zero_allocator : SecBlock_allocator :=
  {| New := λ n, replicate n 0; New_size := λ n, length_replicate n 0 |}.

Definition blank_instance : SIMON_Base :=
  {| m_wspace := []; m_rkeys := []; m_kwords := 0; m_rounds := 0 |}.

(** A SIMON-64 instance keyed with the published 128-bit key, two plaintext
    blocks at addresses 0 and 8, and two encryption calls with output
    buffers at 16 and 24. *)
Definition race_instance : SIMON_Base :=
  match SetKey SIMON64 true zero_allocator blank_instance
          (vector_key SIMON64_128) with
  | Ok inst => inst
  | Err _ => blank_instance
  end.

Definition race_memory : memory :=
  store_bytes (λ _, x00) 0
    (vector_plaintext SIMON64_128 ++ bytes_of [0; 1; 2; 3; 4; 5; 6; 7]).

Definition race_calls : list call :=
  [ {| c_op := SIMON64_Enc; c_in := 0; c_xor := None; c_out := 16 |};
    {| c_op := SIMON64_Enc; c_in := 8; c_xor := None; c_out := 24 |} ].

(** The property C9 states for calls with disjoint buffers on a configured
    instance: however the calls overlap, each output buffer ends up as in
    the sequential execution. *)
Definition overlap_as_sequential (debug : bool) (calls : list call)
    (inst : SIMON_Base) (mem : memory) : Prop :=
  ∀ (schedule : list nat) (outs : list (list byte)),
    outputs_after debug schedule calls inst mem = Some outs →
    outputs_sequential debug calls inst mem = Some outs.

(** ** Words within their type, and what the block operations compute *)

(** A value that fits the unsigned word type of [bits] bits. *)
Definition word_ok (bits x : Z) : Prop := 0 ≤ x < 2 ^ bits.

Definition block_ok (bits : Z) (p : Z * Z) : Prop :=
  word_ok bits p.1 ∧ word_ok bits p.2.

(** The constant sequence [z] each routine starts from. *)
Definition zloop_z (v : variant) : Z :=
  match v with
  | SIMON64_96 => SIMON64_42R3K.z
  | SIMON64_128 => SIMON64_44R4K.z
  | SIMON128_128 => SIMON128_68R2K.z
  | SIMON128_192 => SIMON128_69R3K.z
  | SIMON128_256 => SIMON128_72R4K.z
  end.

(** The template each member function instantiates, at round count [R]. *)
Definition op_cipher (op : block_op) (R : Z) : Z * Z → list Z → Z * Z :=
  match op with
  | SIMON64_Enc | SIMON128_Enc => SIMON_Encrypt (op_bits op) R
  | SIMON64_Dec | SIMON128_Dec => SIMON_Decrypt (op_bits op) R
  end.

(** The member function of the other direction. *)
Definition inverse_op (op : block_op) : block_op :=
  match op with
  | SIMON64_Enc => SIMON64_Dec
  | SIMON64_Dec => SIMON64_Enc
  | SIMON128_Enc => SIMON128_Dec
  | SIMON128_Dec => SIMON128_Enc
  end.

(** What the first call of [race_calls] returns when it runs alone. *)
Definition race_result : SIMON_Base * memory :=
  match ProcessAndXorBlock true SIMON64_Enc race_instance race_memory 0 None
          16 with
  | Ok r => r
  | Err _ => (blank_instance, race_memory)
  end.

(** * Properties *)

(** ** Properties of the round function *)

Section RoundFacts.

Variable bits : Z.

Lemma lxor_cancel_r (a b : Z) : Z.lxor (Z.lxor a b) b = a.
Proof. by rewrite Z.lxor_assoc, Z.lxor_nilpotent, Z.lxor_0_r. Qed.

(** Undoing [v ^= b; v ^= c] by the same two statements. *)
Lemma lxor_undo (a b c : Z) :
  Z.lxor (Z.lxor (Z.lxor (Z.lxor a b) c) b) c = a.
Proof.
  apply Z.bits_inj'. intros n _. rewrite !Z.lxor_spec.
  by destruct (Z.testbit a n), (Z.testbit b n), (Z.testbit c n).
Qed.

(** The swapped step written as an equation on [R2] alone. *)
Lemma R2_swapped_inverts_eq (x y k l x1 y1 : Z) :
  R2 bits (x, y) k l = (x1, y1) →
  R2 bits (y1, x1) l k = (y, x).
Proof.
  unfold R2. intros [= <- <-].
  rewrite (lxor_undo x). by rewrite lxor_undo.
Qed.

(** C10: the paired-round step is undone by the step on the swapped pair
    with swapped keys, for all words [x], [y], [k], [l] of either width. *)
Theorem R2_swapped_inverts (x y k l x1 y1 : Z) :
  R2 bits (x, y) k l = (x1, y1) →
  R2 bits (y1, x1) l k = (y, x).
Proof. apply R2_swapped_inverts_eq. Qed.

End RoundFacts.

(** ** Decryption inverts encryption *)

Section RoundTrip.

Variable bits : Z.

Variable k : list Z.

Lemma cast_small (i : Z) :
  0 ≤ i < 2 ^ 31 → to_unsigned (static_cast_int i) = i.
Proof.
  intros Hi. unfold to_unsigned, static_cast_int, wrap.
  rewrite (Z.mod_small i) by lia.
  destruct (Z.ltb_spec i (2 ^ 31)); [|lia]. apply Z.mod_small. lia.
Qed.

Lemma cast_small_signed (i : Z) :
  0 ≤ i < 2 ^ 31 → static_cast_int i = i.
Proof.
  intros Hi. unfold static_cast_int, wrap.
  rewrite (Z.mod_small i) by lia.
  by destruct (Z.ltb_spec i (2 ^ 31)); [|lia].
Qed.

(** With enough fuel the encryption loop runs exactly the paired rounds
    below [R - 1]. *)
Lemma encrypt_loop_rounds (R : Z) (n : nat) :
  ∀ (fuel : nat) (i : Z) (c : Z * Z),
    1 ≤ R < 2 ^ 31 → 0 ≤ i → (n ≤ fuel)%nat →
    R - 1 ≤ i + 2 * Z.of_nat n < R + 1 →
    encrypt_loop bits fuel R k i c = enc_rounds bits k n i c.
Proof.
  induction n as [|n IH]; intros fuel i c HR Hi Hfuel Hn.
  - destruct fuel as [|fuel]; [done|]. simpl.
    rewrite cast_small by lia. unfold wrap at 1.
    rewrite Z.mod_small by lia.
    by destruct (Z.ltb_spec i (R - 1)); [lia|].
  - destruct fuel as [|fuel]; [lia|]. simpl.
    rewrite cast_small by lia. unfold wrap at 1.
    rewrite Z.mod_small by lia.
    destruct (Z.ltb_spec i (R - 1)); [|lia].
    unfold wrap, size_t_bits. rewrite Z.mod_small by lia.
    apply IH; lia.
Qed.

(** The decryption loop: [n] iterations from index [2n - 2] down to 0,
    after which the index wraps and reads as [-2]. *)
Lemma decrypt_loop_rounds (n : nat) :
  ∀ (fuel : nat) (i : Z) (p : Z * Z),
    (n ≤ fuel)%nat → 2 * Z.of_nat n - 2 < 2 ^ 31 →
    (n = O → static_cast_int i < 0) →
    (n ≠ O → i = 2 * Z.of_nat n - 2) →
    decrypt_loop bits fuel k i p = dec_rounds bits k n (2 * Z.of_nat n - 2) p.
Proof.
  induction n as [|n IH]; intros fuel i p Hfuel Hn H0 HS.
  - destruct fuel as [|fuel]; [done|]. simpl.
    by destruct (Z.leb_spec 0 (static_cast_int i)); [specialize (H0 eq_refl); lia|].
  - destruct fuel as [|fuel]; [lia|].
    rewrite HS by done. cbn [decrypt_loop dec_rounds].
    rewrite cast_small_signed by lia.
    destruct (Z.leb_spec 0 (2 * Z.of_nat (S n) - 2)); [|lia].
    destruct p as [p0 p1].
    destruct (R2 bits (p1, p0) _ _) as [q1 q0].
    replace (2 * Z.of_nat (S n) - 2 - 2) with (2 * Z.of_nat n - 2) by lia.
    apply IH; [lia|lia| |].
    + intros ->. by vm_compute.
    + intros Hne. unfold wrap, size_t_bits. rewrite Z.mod_small; lia.
Qed.

Lemma dec_rounds_app (a b : nat) :
  ∀ (i : Z) (p : Z * Z),
    dec_rounds bits k (a + b) i p
    = dec_rounds bits k b (i - 2 * Z.of_nat a) (dec_rounds bits k a i p).
Proof.
  induction a as [|a IH]; intros i p.
  - simpl. f_equal. lia.
  - cbn [Nat.add dec_rounds]. destruct p as [p0 p1].
    destruct (R2 bits (p1, p0) _ _) as [q1 q0].
    rewrite IH. f_equal. lia.
Qed.

Lemma dec_round_enc_round (i : Z) (c : Z * Z) :
  dec_rounds bits k 1 i (R2 bits c (subkey k i) (subkey k (i + 1))) = c.
Proof.
  destruct c as [x y]. cbn [dec_rounds].
  destruct (R2 bits (x, y) _ _) as [x1 y1] eqn:E.
  by rewrite (R2_swapped_inverts_eq bits _ _ _ _ _ _ E).
Qed.

Lemma dec_rounds_enc_rounds (n : nat) :
  ∀ (i : Z) (c : Z * Z),
    dec_rounds bits k n (i + 2 * Z.of_nat n - 2) (enc_rounds bits k n i c) = c.
Proof.
  induction n as [|n IH]; intros i c; [done|].
  replace (S n) with (n + 1)%nat at 1 by lia.
  rewrite dec_rounds_app. cbn [enc_rounds].
  replace (i + 2 * Z.of_nat (S n) - 2) with (i + 2 + 2 * Z.of_nat n - 2) by lia.
  rewrite IH.
  replace (i + 2 + 2 * Z.of_nat n - 2 - 2 * Z.of_nat n) with i by lia.
  apply dec_round_enc_round.
Qed.

End RoundTrip.

Section RoundTripTheorem.

Variable bits : Z.

Lemma land_1_parity (R : Z) : Z.land R 1 = R mod 2.
Proof. change 1 with (Z.ones 1) at 1. by rewrite Z.land_ones. Qed.

Lemma lxor_undo_tail (a b c : Z) :
  Z.lxor (Z.lxor (Z.lxor (Z.lxor a b) c) c) b = a.
Proof. by rewrite !lxor_cancel_r. Qed.

(** The round trip for any round count that fits an [int]. *)
Lemma SIMON_Decrypt_Encrypt (R : Z) (k : list Z) (P : Z * Z) :
  1 ≤ R < 2 ^ 31 →
  SIMON_Decrypt bits R (SIMON_Encrypt bits R P k) k = P.
Proof.
  intros HR. unfold SIMON_Decrypt, SIMON_Encrypt.
  rewrite land_1_parity.
  destruct (Z.eqb_spec (R mod 2) 0) as [Heven|Hodd].
  - set (n := Z.to_nat (R / 2)).
    assert (Hn : R = 2 * Z.of_nat n).
    { subst n. pose proof (Z.div_mod R 2 ltac:(lia)).
      pose proof (Z.div_pos R 2). rewrite Z2Nat.id; lia. }
    rewrite (encrypt_loop_rounds bits k R n) by lia.
    rewrite (decrypt_loop_rounds bits k n); try lia.
    + replace (2 * Z.of_nat n - 2) with (0 + 2 * Z.of_nat n - 2) by lia.
      apply dec_rounds_enc_rounds.
    + intros Hne. unfold wrap. rewrite Z.mod_small; lia.
  - set (n := Z.to_nat (R / 2)).
    assert (Hn : R = 2 * Z.of_nat n + 1).
    { subst n. pose proof (Z.div_mod R 2 ltac:(lia)).
      pose proof (Z.mod_pos_bound R 2 ltac:(lia)).
      pose proof (Z.div_pos R 2). rewrite Z2Nat.id; lia. }
    rewrite (encrypt_loop_rounds bits k R n) by lia.
    destruct (enc_rounds bits k n 0 P) as [c0 c1] eqn:E.
    rewrite lxor_undo_tail.
    rewrite (decrypt_loop_rounds bits k n); try lia.
    + rewrite <- E.
      replace (2 * Z.of_nat n - 2) with (0 + 2 * Z.of_nat n - 2) by lia.
      apply dec_rounds_enc_rounds.
    + intros ->. replace R with 1 by lia. by vm_compute.
    + intros Hne. unfold wrap.
      rewrite (Z.mod_small (R - 1)) by lia. rewrite Z.mod_small; lia.
Qed.

End RoundTripTheorem.

(** C1: for each of the five variants, every round-key schedule [k] of the
    variant's length [R] and every two-word block [P], [SIMON_Decrypt] with
    [R] rounds applied to the result of [SIMON_Encrypt] with [R] rounds
    returns [P]. *)
Theorem decrypt_inverts_encrypt (v : variant) (k : list Z) (P : Z * Z) :
  Z.of_nat (length k) = rounds_of v →
  SIMON_Decrypt (word_bits v) (rounds_of v)
    (SIMON_Encrypt (word_bits v) (rounds_of v) P k) k = P.
Proof.
  intros _. apply SIMON_Decrypt_Encrypt. destruct v; simpl; lia.
Qed.

(** ** Loops *)

Section Loop.

Context {St : Type}.

(** One pass of a loop: [None] when the condition fails, otherwise the
    state after the body and the increment. *)
Variable step : St → option St.

Lemma while_loop_iterate (n : nat) :
  ∀ (fuel : nat) (s s' : St),
    iterate step n s = Some s' → step s' = None → (n ≤ fuel)%nat →
    while_loop step fuel s = s'.
Proof.
  induction n as [|n IH]; intros fuel s s' Hit Hstop Hfuel.
  - injection Hit as ->. destruct fuel; [done|]. simpl. by rewrite Hstop.
  - destruct fuel as [|fuel]; [lia|]. simpl in *.
    destruct (step s) as [s1|]; [|done]. apply IH; [done|done|lia].
Qed.

Lemma runs_exactly_unique (n n' : nat) (s : St) :
  runs_exactly step n s = true → runs_exactly step n' s = true → n = n'.
Proof.
  unfold runs_exactly. revert n' s.
  induction n as [|n IH]; intros [|n'] s; simpl; try done.
  - destruct (step s); [|done]. by destruct (iterate step n' s0).
  - destruct (step s); [|done]. by destruct (iterate step n s0).
  - destruct (step s) as [s1|]; [|done]. intros H1 H2. f_equal. eauto.
Qed.

End Loop.

(** ** Facts about the key-schedule loops *)

Section ExpandFacts.

Variable bound : nat.

Variable rhs : Z → list Z → nat → Z.

Lemma expand_step_stop (s : expand_state) :
  (bound ≤ es_i s)%nat → expand_step bound rhs s = None.
Proof.
  intros H. unfold expand_step.
  by destruct (Nat.ltb_spec (es_i s) bound); [lia|].
Qed.

Lemma expand_step_pass (s : expand_state) :
  (es_i s < bound)%nat →
  expand_step bound rhs s
  = Some {| es_i := S (es_i s);
            es_z := Z.shiftr (es_z s) 1;
            es_key := <[es_i s := rhs (es_z s) (es_key s) (es_i s)]>
                        (es_key s) |}.
Proof.
  intros H. unfold expand_step.
  by destruct (Nat.ltb_spec (es_i s) bound); [|lia].
Qed.

(** [n] passes from a state with room for them: the counter and [z] advance
    [n] times, the array keeps its size, and only the [n] entries from the
    counter on are written. *)
Lemma iterate_expand_step (n : nat) :
  ∀ s : expand_state,
    (es_i s + n ≤ bound)%nat →
    ∃ s', iterate (expand_step bound rhs) n s = Some s'
          ∧ es_i s' = (es_i s + n)%nat
          ∧ es_z s' = Z.shiftr (es_z s) (Z.of_nat n)
          ∧ length (es_key s') = length (es_key s)
          ∧ ∀ j : nat, (j < es_i s ∨ es_i s + n ≤ j)%nat →
                       es_key s' !!! j = es_key s !!! j.
Proof.
  induction n as [|n IH]; intros s Hroom.
  - exists s. simpl. repeat split; first [done | lia].
  - cbn [iterate]. rewrite expand_step_pass by lia.
    edestruct (IH {| es_i := S (es_i s);
                     es_z := Z.shiftr (es_z s) 1;
                     es_key := <[es_i s := rhs (es_z s) (es_key s) (es_i s)]>
                                 (es_key s) |})
      as (s' & Hit & Hi & Hz & Hlen & Hframe); [simpl; lia|].
    exists s'. simpl in *. split; [done|]. split; [lia|]. split.
    { rewrite Hz, Z.shiftr_shiftr by lia. f_equal. lia. }
    split; [by rewrite Hlen, length_insert|].
    intros j Hj. rewrite Hframe by lia.
    apply list_lookup_total_insert_ne. lia.
Qed.

End ExpandFacts.

(** The z-driven loop of every routine: it makes exactly [zloop_words v]
    passes, keeps the array's size and writes nothing outside
    [key_words v .. key_words v + zloop_words v). *)
Lemma zloop_passes (v : variant) (key k : list Z) :
  ∃ s', iterate (zloop_step v) (zloop_words v) (zloop_seed v key k) = Some s'
        ∧ zloop_step v s' = None
        ∧ es_i s' = (key_words v + zloop_words v)%nat
        ∧ es_z s' = Z.shiftr (es_z (zloop_seed v key k))
                      (Z.of_nat (zloop_words v))
        ∧ length (es_key s') = length key
        ∧ ∀ j : nat, (j < key_words v ∨ key_words v + zloop_words v ≤ j)%nat →
                     es_key s' !!! j = es_key (zloop_seed v key k) !!! j.
Proof.
  destruct v;
    (edestruct (iterate_expand_step) as (s' & Hit & Hi & Hz & Hlen & Hframe);
     [|exists s'; split; [exact Hit|]; split;
       [apply expand_step_stop; rewrite Hi; simpl; reflexivity|];
       split; [exact Hi|]; split; [exact Hz|]; split;
       [rewrite Hlen; simpl; by rewrite !length_insert|exact Hframe]];
     simpl; lia).
Qed.

(** The state the loop of [ExpandKey v] ends in is the state after those
    passes: the fuel of the model never runs out. *)
Lemma zloop_while (v : variant) (key k : list Z) (s' : expand_state) :
  iterate (zloop_step v) (zloop_words v) (zloop_seed v key k) = Some s' →
  zloop_step v s' = None →
  while_loop (zloop_step v) (Z.to_nat (rounds_of v)) (zloop_seed v key k) = s'.
Proof.
  intros Hit Hstop. eapply while_loop_iterate; [exact Hit|exact Hstop|].
  destruct v; simpl; lia.
Qed.

(** Reading an array through the assignments made after it was last named. *)
Ltac array_simpl :=
  repeat first
    [ rewrite list_lookup_total_insert_ne by lia
    | rewrite list_lookup_total_insert_eq by (rewrite ?length_insert; lia) ].

(** [ExpandKey v] in terms of the state its loop ends in. *)
Lemma ExpandKey_unfold (v : variant) (key k : list Z) :
  ∃ s', iterate (zloop_step v) (zloop_words v) (zloop_seed v key k) = Some s'
        ∧ length (es_key s') = length key
        ∧ (∀ j : nat, (j < key_words v ∨ key_words v + zloop_words v ≤ j)%nat →
                      es_key s' !!! j = es_key (zloop_seed v key k) !!! j)
        ∧ ExpandKey v key k
          = match v with
            | SIMON64_96 | SIMON64_128 => es_key s'
            | SIMON128_128 => SIMON128_68R2K.tail (es_key s')
            | SIMON128_192 => SIMON128_69R3K.tail (es_key s')
            | SIMON128_256 => SIMON128_72R4K.tail (es_key s')
            end.
Proof.
  destruct (zloop_passes v key k) as (s' & Hit & Hstop & _ & _ & Hlen & Hframe).
  exists s'. repeat split; [done..|].
  pose proof (zloop_while v key k s' Hit Hstop) as Hw.
  destruct v; unfold ExpandKey;
    [unfold SIMON64_ExpandKey_42R3K | unfold SIMON64_ExpandKey_44R4K
    |unfold SIMON128_ExpandKey_68R2K | unfold SIMON128_ExpandKey_69R3K
    |unfold SIMON128_ExpandKey_72R4K];
    cbv zeta; by rewrite <- Hw.
Qed.

(** The routine fills the array it is given and keeps its size. *)
Lemma ExpandKey_length (v : variant) (key k : list Z) :
  length (ExpandKey v key k) = length key.
Proof.
  destruct (ExpandKey_unfold v key k) as (s' & _ & Hlen & _ & ->).
  destruct v; try done;
    [unfold SIMON128_68R2K.tail, SIMON128_68R2K.assign_66,
       SIMON128_68R2K.assign_67
    |unfold SIMON128_69R3K.tail, SIMON128_69R3K.assign_67,
       SIMON128_69R3K.assign_68
    |unfold SIMON128_72R4K.tail, SIMON128_72R4K.assign_68,
       SIMON128_72R4K.assign_69, SIMON128_72R4K.assign_70,
       SIMON128_72R4K.assign_71]; cbv zeta; by rewrite !length_insert.
Qed.

(** Entries below the first derived index are those of the seeding. *)
Lemma ExpandKey_seeded (v : variant) (key k : list Z) (j : nat) :
  (j < key_words v)%nat →
  ExpandKey v key k !!! j = es_key (zloop_seed v key k) !!! j.
Proof.
  intros Hj.
  destruct (ExpandKey_unfold v key k) as (s' & _ & Hlen & Hframe & ->).
  rewrite <- Hframe by lia.
  destruct v; try done; simpl in Hj;
    [unfold SIMON128_68R2K.tail, SIMON128_68R2K.assign_66,
       SIMON128_68R2K.assign_67
    |unfold SIMON128_69R3K.tail, SIMON128_69R3K.assign_67,
       SIMON128_69R3K.assign_68
    |unfold SIMON128_72R4K.tail, SIMON128_72R4K.assign_68,
       SIMON128_72R4K.assign_69, SIMON128_72R4K.assign_70,
       SIMON128_72R4K.assign_71]; cbv zeta; by array_simpl.
Qed.

(** C5: for every expansion routine and every user key of [m] words, the
    first [m] entries of the produced schedule are the user-key words in
    reverse order, [key[i] = userKey[m-1-i]] for [i] from 0 to [m-1]. *)
Theorem seeding_reversed (v : variant) (key k : list Z) (i : nat) :
  Z.of_nat (length key) = rounds_of v →
  length k = key_words v →
  (i < key_words v)%nat →
  ExpandKey v key k !! i = k !! (key_words v - 1 - i)%nat.
Proof.
  intros Hkey Hk Hi.
  rewrite (list_lookup_lookup_total_lt (ExpandKey v key k) i)
    by (rewrite ExpandKey_length; destruct v; simpl in *; lia).
  rewrite (list_lookup_lookup_total_lt k) by lia.
  f_equal. rewrite ExpandKey_seeded by done.
  destruct v; simpl in *;
    repeat (destruct i as [|i]; [by array_simpl|]); lia.
Qed.

(** ** How many words the z-driven loop derives *)

(** C3 as stated fails for every routine: on the published keys no z-driven
    loop makes exactly 62 passes (the loops of SIMON-64 stop after 39 and 40
    passes, and those of SIMON-128 are still running after 62). *)
Lemma zloop_not_62_words :
  runs_exactly (zloop_step SIMON64_96) 62
    (zloop_seed SIMON64_96 (replicate 42 0) userkey_64_96) = false
  ∧ runs_exactly (zloop_step SIMON64_128) 62
      (zloop_seed SIMON64_128 (replicate 44 0) userkey_64_128) = false
  ∧ runs_exactly (zloop_step SIMON128_128) 62
      (zloop_seed SIMON128_128 (replicate 68 0) userkey_128_128) = false
  ∧ runs_exactly (zloop_step SIMON128_192) 62
      (zloop_seed SIMON128_192 (replicate 69 0) userkey_128_192) = false
  ∧ runs_exactly (zloop_step SIMON128_256) 62
      (zloop_seed SIMON128_256 (replicate 72 0) userkey_128_256) = false.
Proof. repeat split; by vm_compute. Qed.

(** ** Tail round keys of the SIMON-128 routines *)

Lemma lxor_chain_2 (a b d e : Z) : a ^^ b ^^ (d ^^ e) = a ^^ b ^^ d ^^ e.
Proof. by rewrite !Z.lxor_assoc. Qed.

Lemma lxor_chain_4 (a b d e g h : Z) :
  a ^^ b ^^ (d ^^ e ^^ g ^^ h) = a ^^ b ^^ d ^^ e ^^ g ^^ h.
Proof. by rewrite !Z.lxor_assoc. Qed.

(** The right-hand sides of the SIMON-128 loops are the recurrences of the
    specification. *)
Lemma rhs_68R2K_shape (z : Z) (K : list Z) (i : nat) :
  SIMON128_68R2K.rhs z K i
  = recurrence_2or3 2 SIMON128_68R2K.c (Z.land z 1) K i.
Proof.
  unfold SIMON128_68R2K.rhs, recurrence_2or3. cbv zeta. by rewrite lxor_chain_2.
Qed.

Lemma rhs_69R3K_shape (z : Z) (K : list Z) (i : nat) :
  SIMON128_69R3K.rhs z K i
  = recurrence_2or3 3 SIMON128_69R3K.c (Z.land z 1) K i.
Proof.
  unfold SIMON128_69R3K.rhs, recurrence_2or3. cbv zeta. by rewrite lxor_chain_2.
Qed.

Lemma rhs_72R4K_shape (z : Z) (K : list Z) (i : nat) :
  SIMON128_72R4K.rhs z K i = recurrence_4 SIMON128_72R4K.c (Z.land z 1) K i.
Proof.
  unfold SIMON128_72R4K.rhs, recurrence_4. cbv zeta. by rewrite lxor_chain_4.
Qed.

Section TailAssignments.

(** A recurrence that reads the array only below the index it defines. *)
Variable rec : list Z → nat → Z.

Hypothesis rec_below :
  ∀ (K K' : list Z) (i : nat),
    (0 < i)%nat → (∀ j : nat, (j < i)%nat → K !!! j = K' !!! j) →
    rec K i = rec K' i.

(** [key[i] = rec(key, i)] establishes the recurrence at [i]. *)
Lemma assign_holds (K : list Z) (i : nat) :
  (0 < i < length K)%nat →
  <[i := rec K i]> K !!! i = rec (<[i := rec K i]> K) i.
Proof.
  intros Hi. rewrite list_lookup_total_insert_eq by lia.
  apply rec_below; [lia|]. intros j Hj.
  by rewrite list_lookup_total_insert_ne by lia.
Qed.

(** A later assignment above [i] keeps the recurrence at [i]. *)
Lemma assign_keeps (K : list Z) (i i' : nat) (v : Z) :
  (0 < i < i')%nat → K !!! i = rec K i →
  <[i' := v]> K !!! i = rec (<[i' := v]> K) i.
Proof.
  intros Hi HK. rewrite list_lookup_total_insert_ne by lia. rewrite HK.
  apply rec_below; [lia|]. intros j Hj.
  by rewrite list_lookup_total_insert_ne by lia.
Qed.

End TailAssignments.

Lemma recurrence_2or3_below (m : nat) (c bit : Z) (K K' : list Z) (i : nat) :
  (0 < m)%nat → (0 < i)%nat →
  (∀ j : nat, (j < i)%nat → K !!! j = K' !!! j) →
  recurrence_2or3 m c bit K i = recurrence_2or3 m c bit K' i.
Proof.
  intros Hm Hi H. unfold recurrence_2or3. cbv zeta.
  by rewrite !(H (i - 1)%nat), !(H (i - m)%nat) by lia.
Qed.

Lemma recurrence_4_below (c bit : Z) (K K' : list Z) (i : nat) :
  (0 < i)%nat →
  (∀ j : nat, (j < i)%nat → K !!! j = K' !!! j) →
  recurrence_4 c bit K i = recurrence_4 c bit K' i.
Proof.
  intros Hi H. unfold recurrence_4. cbv zeta.
  by rewrite !(H (i - 1)%nat), !(H (i - 3)%nat), !(H (i - 4)%nat) by lia.
Qed.

(** Each assignment after a loop is the loop's right-hand side at the
    published bit. *)
Lemma assign_rhs_68R2K (K : list Z) :
  SIMON128_68R2K.assign_66 K = <[66%nat := SIMON128_68R2K.rhs 1 K 66]> K
  ∧ SIMON128_68R2K.assign_67 K = <[67%nat := SIMON128_68R2K.rhs 0 K 67]> K.
Proof. split; reflexivity. Qed.

Lemma assign_rhs_69R3K (K : list Z) :
  SIMON128_69R3K.assign_67 K = <[67%nat := SIMON128_69R3K.rhs 0 K 67]> K
  ∧ SIMON128_69R3K.assign_68 K = <[68%nat := SIMON128_69R3K.rhs 1 K 68]> K.
Proof. split; reflexivity. Qed.

Lemma assign_rhs_72R4K (K : list Z) :
  SIMON128_72R4K.assign_68 K = <[68%nat := SIMON128_72R4K.rhs 0 K 68]> K
  ∧ SIMON128_72R4K.assign_69 K = <[69%nat := SIMON128_72R4K.rhs 1 K 69]> K
  ∧ SIMON128_72R4K.assign_70 K = <[70%nat := SIMON128_72R4K.rhs 0 K 70]> K
  ∧ SIMON128_72R4K.assign_71 K = <[71%nat := SIMON128_72R4K.rhs 0 K 71]> K.
Proof. repeat split; reflexivity. Qed.

Lemma tail_68R2K (L : list Z) :
  length L = 68%nat →
  let K := SIMON128_68R2K.tail L in
  K !!! 66%nat = recurrence_2or3 2 SIMON128_68R2K.c 1 K 66
  ∧ K !!! 67%nat = recurrence_2or3 2 SIMON128_68R2K.c 0 K 67.
Proof.
  intros HL K. subst K. unfold SIMON128_68R2K.tail. cbv zeta.
  destruct (assign_rhs_68R2K L) as [-> _].
  destruct (assign_rhs_68R2K (<[66%nat := SIMON128_68R2K.rhs 1 L 66]> L))
    as [_ ->].
  rewrite !rhs_68R2K_shape.
  change (Z.land 1 1) with 1. change (Z.land 0 1) with 0.
  set (r1 := recurrence_2or3 2 SIMON128_68R2K.c 1).
  set (r0 := recurrence_2or3 2 SIMON128_68R2K.c 0).
  assert (B1 : ∀ K K' i, (0 < i)%nat →
                 (∀ j : nat, (j < i)%nat → K !!! j = K' !!! j) →
                 r1 K i = r1 K' i)
    by (intros; apply recurrence_2or3_below; [lia|done..]).
  assert (B0 : ∀ K K' i, (0 < i)%nat →
                 (∀ j : nat, (j < i)%nat → K !!! j = K' !!! j) →
                 r0 K i = r0 K' i)
    by (intros; apply recurrence_2or3_below; [lia|done..]).
  split.
  - apply (assign_keeps r1 B1); [lia|].
    apply (assign_holds r1 B1). lia.
  - apply (assign_holds r0 B0). rewrite length_insert. lia.
Qed.

Lemma tail_69R3K (L : list Z) :
  length L = 69%nat →
  let K := SIMON128_69R3K.tail L in
  K !!! 67%nat = recurrence_2or3 3 SIMON128_69R3K.c 0 K 67
  ∧ K !!! 68%nat = recurrence_2or3 3 SIMON128_69R3K.c 1 K 68.
Proof.
  intros HL K. subst K. unfold SIMON128_69R3K.tail. cbv zeta.
  destruct (assign_rhs_69R3K L) as [-> _].
  destruct (assign_rhs_69R3K (<[67%nat := SIMON128_69R3K.rhs 0 L 67]> L))
    as [_ ->].
  rewrite !rhs_69R3K_shape.
  change (Z.land 1 1) with 1. change (Z.land 0 1) with 0.
  set (r1 := recurrence_2or3 3 SIMON128_69R3K.c 1).
  set (r0 := recurrence_2or3 3 SIMON128_69R3K.c 0).
  assert (B1 : ∀ K K' i, (0 < i)%nat →
                 (∀ j : nat, (j < i)%nat → K !!! j = K' !!! j) →
                 r1 K i = r1 K' i)
    by (intros; apply recurrence_2or3_below; [lia|done..]).
  assert (B0 : ∀ K K' i, (0 < i)%nat →
                 (∀ j : nat, (j < i)%nat → K !!! j = K' !!! j) →
                 r0 K i = r0 K' i)
    by (intros; apply recurrence_2or3_below; [lia|done..]).
  split.
  - apply (assign_keeps r0 B0); [lia|].
    apply (assign_holds r0 B0). lia.
  - apply (assign_holds r1 B1). rewrite length_insert. lia.
Qed.

Lemma tail_72R4K (L : list Z) :
  length L = 72%nat →
  let K := SIMON128_72R4K.tail L in
  K !!! 68%nat = recurrence_4 SIMON128_72R4K.c 0 K 68
  ∧ K !!! 69%nat = recurrence_4 SIMON128_72R4K.c 1 K 69
  ∧ K !!! 70%nat = recurrence_4 SIMON128_72R4K.c 0 K 70
  ∧ K !!! 71%nat = recurrence_4 SIMON128_72R4K.c 0 K 71.
Proof.
  intros HL K. subst K. unfold SIMON128_72R4K.tail. cbv zeta.
  destruct (assign_rhs_72R4K L) as (-> & _).
  set (K1 := <[68%nat := _]> L).
  destruct (assign_rhs_72R4K K1) as (_ & -> & _).
  set (K2 := <[69%nat := _]> K1).
  destruct (assign_rhs_72R4K K2) as (_ & _ & -> & _).
  set (K3 := <[70%nat := _]> K2).
  destruct (assign_rhs_72R4K K3) as (_ & _ & _ & ->).
  subst K3 K2 K1.
  rewrite !rhs_72R4K_shape.
  change (Z.land 1 1) with 1. change (Z.land 0 1) with 0.
  set (r1 := recurrence_4 SIMON128_72R4K.c 1).
  set (r0 := recurrence_4 SIMON128_72R4K.c 0).
  assert (B1 : ∀ K K' i, (0 < i)%nat →
                 (∀ j : nat, (j < i)%nat → K !!! j = K' !!! j) →
                 r1 K i = r1 K' i)
    by (intros; by apply recurrence_4_below).
  assert (B0 : ∀ K K' i, (0 < i)%nat →
                 (∀ j : nat, (j < i)%nat → K !!! j = K' !!! j) →
                 r0 K i = r0 K' i)
    by (intros; by apply recurrence_4_below).
  repeat split.
  - do 3 (apply (assign_keeps r0 B0); [lia|]).
    apply (assign_holds r0 B0). lia.
  - do 2 (apply (assign_keeps r1 B1); [lia|]).
    apply (assign_holds r1 B1). rewrite !length_insert. lia.
  - apply (assign_keeps r0 B0); [lia|].
    apply (assign_holds r0 B0). rewrite !length_insert. lia.
  - apply (assign_holds r0 B0). rewrite !length_insert. lia.
Qed.

(** C4: in each SIMON-128 routine every tail round key has the recurrence
    shape of the main loop with [(z AND 1)] replaced by the published bit:
    68R/2K uses 1 for [key[66]] and 0 for [key[67]]; 69R/3K uses 0 for
    [key[67]] and 1 for [key[68]]; 72R/4K uses 0, 1, 0, 0 for [key[68]] to
    [key[71]]. *)
Theorem tail_round_keys (key2 k2 key3 k3 key4 k4 : list Z) :
  length key2 = 68%nat → length key3 = 69%nat → length key4 = 72%nat →
  let K2 := ExpandKey SIMON128_128 key2 k2 in
  let K3 := ExpandKey SIMON128_192 key3 k3 in
  let K4 := ExpandKey SIMON128_256 key4 k4 in
  (K2 !!! 66%nat = recurrence_2or3 2 SIMON128_68R2K.c 1 K2 66
   ∧ K2 !!! 67%nat = recurrence_2or3 2 SIMON128_68R2K.c 0 K2 67)
  ∧ (K3 !!! 67%nat = recurrence_2or3 3 SIMON128_69R3K.c 0 K3 67
     ∧ K3 !!! 68%nat = recurrence_2or3 3 SIMON128_69R3K.c 1 K3 68)
  ∧ (K4 !!! 68%nat = recurrence_4 SIMON128_72R4K.c 0 K4 68
     ∧ K4 !!! 69%nat = recurrence_4 SIMON128_72R4K.c 1 K4 69
     ∧ K4 !!! 70%nat = recurrence_4 SIMON128_72R4K.c 0 K4 70
     ∧ K4 !!! 71%nat = recurrence_4 SIMON128_72R4K.c 0 K4 71)
  ∧ (∀ z K i, SIMON128_68R2K.rhs z K i
              = recurrence_2or3 2 SIMON128_68R2K.c (Z.land z 1) K i)
  ∧ (∀ z K i, SIMON128_69R3K.rhs z K i
              = recurrence_2or3 3 SIMON128_69R3K.c (Z.land z 1) K i)
  ∧ (∀ z K i, SIMON128_72R4K.rhs z K i
              = recurrence_4 SIMON128_72R4K.c (Z.land z 1) K i).
Proof.
  intros H2 H3 H4 K2 K3 K4.
  destruct (ExpandKey_unfold SIMON128_128 key2 k2) as (s2 & _ & L2 & _ & E2).
  destruct (ExpandKey_unfold SIMON128_192 key3 k3) as (s3 & _ & L3 & _ & E3).
  destruct (ExpandKey_unfold SIMON128_256 key4 k4) as (s4 & _ & L4 & _ & E4).
  subst K2 K3 K4. rewrite E2, E3, E4.
  split; [apply tail_68R2K; congruence|].
  split; [apply tail_69R3K; congruence|].
  split; [apply tail_72R4K; congruence|].
  repeat split; intros z K i;
    [apply rhs_68R2K_shape|apply rhs_69R3K_shape|apply rhs_72R4K_shape].
Qed.

(** ** The schedule depends on the user key only *)

Lemma zloop_step_eq (v : variant) :
  zloop_step v = expand_step (zloop_bound v) (zloop_rhs v).
Proof. by destruct v. Qed.

Lemma zloop_rhs_reads_below (v : variant) : reads_below (zloop_rhs v).
Proof.
  intros z K K' i Hi H. destruct v; cbn [zloop_rhs].
  - unfold SIMON64_42R3K.rhs.
    by rewrite !(H (i - 3)%nat), !(H (i - 1)%nat) by lia.
  - unfold SIMON64_44R4K.rhs.
    by rewrite !(H (i - 4)%nat), !(H (i - 3)%nat), !(H (i - 1)%nat) by lia.
  - unfold SIMON128_68R2K.rhs.
    by rewrite !(H (i - 2)%nat), !(H (i - 1)%nat) by lia.
  - unfold SIMON128_69R3K.rhs.
    by rewrite !(H (i - 3)%nat), !(H (i - 1)%nat) by lia.
  - unfold SIMON128_72R4K.rhs.
    by rewrite !(H (i - 4)%nat), !(H (i - 3)%nat), !(H (i - 1)%nat) by lia.
Qed.

(** The same assignment [key[i] = rhs] in two arrays that agree below [i]
    makes them agree below [i + 1]. *)
Lemma assign_agree (rhs : Z → list Z → nat → Z) (z : Z) (K K' : list Z)
    (i : nat) :
  reads_below rhs → (0 < i)%nat →
  (i < length K)%nat → (i < length K')%nat →
  agree_below i K K' →
  agree_below (S i) (<[i := rhs z K i]> K) (<[i := rhs z K' i]> K').
Proof.
  intros Hrhs Hi HK HK' H j Hj.
  destruct (decide (j = i)) as [->|Hne].
  - rewrite !list_lookup_total_insert_eq by done. by apply Hrhs.
  - rewrite !list_lookup_total_insert_ne by done. apply H. lia.
Qed.

Lemma iterate_expand_agree (bound : nat) (rhs : Z → list Z → nat → Z)
    (n : nat) :
  reads_below rhs →
  ∀ s1 s2 s1' s2' : expand_state,
    es_i s1 = es_i s2 → es_z s1 = es_z s2 → (0 < es_i s1)%nat →
    (bound ≤ length (es_key s1))%nat → (bound ≤ length (es_key s2))%nat →
    agree_below (es_i s1) (es_key s1) (es_key s2) →
    iterate (expand_step bound rhs) n s1 = Some s1' →
    iterate (expand_step bound rhs) n s2 = Some s2' →
    agree_below (es_i s1 + n) (es_key s1') (es_key s2').
Proof.
  intros Hrhs. induction n as [|n IH];
    intros s1 s2 s1' s2' Hi Hz Hpos HL1 HL2 Hagree H1 H2.
  - simpl in H1, H2. injection H1 as <-. injection H2 as <-.
    by rewrite Nat.add_0_r.
  - cbn [iterate] in H1, H2.
    destruct (Nat.lt_ge_cases (es_i s1) bound) as [Hlt|Hge];
      [|by rewrite expand_step_stop in H1].
    rewrite expand_step_pass in H1 by done.
    rewrite expand_step_pass in H2 by lia.
    replace (es_i s1 + S n)%nat with (S (es_i s1) + n)%nat by lia.
    match type of H1 with
    | iterate _ _ ?t1 = _ =>
        match type of H2 with
        | iterate _ _ ?t2 = _ =>
            apply (IH t1 t2 s1' s2'); [..|exact H1|exact H2]
        end
    end; simpl; rewrite ?length_insert; try lia; try congruence.
    rewrite <- Hi, <- Hz. apply assign_agree; try done; lia.
Qed.

(** The entry states of the loop agree on the seeded entries when the user
    keys agree on their [m] words. *)
Lemma zloop_seed_agree (v : variant) (key key' k k' : list Z) :
  Z.of_nat (length key) = rounds_of v →
  Z.of_nat (length key') = rounds_of v →
  agree_below (key_words v) k k' →
  agree_below (key_words v) (es_key (zloop_seed v key k))
    (es_key (zloop_seed v key' k')).
Proof.
  intros HL HL' Hk j Hj.
  destruct v; simpl in *;
    repeat (destruct j as [|j];
            [array_simpl; apply Hk; lia|]); lia.
Qed.

Lemma zloop_seed_facts (v : variant) (key k : list Z) :
  es_i (zloop_seed v key k) = key_words v
  ∧ length (es_key (zloop_seed v key k)) = length key
  ∧ es_z (zloop_seed v key k) = es_z (zloop_seed v [] []).
Proof. destruct v; simpl; by rewrite !length_insert. Qed.

Lemma agree_below_eq (n : nat) (K K' : list Z) :
  length K = n → length K' = n → agree_below n K K' → K = K'.
Proof.
  intros HK HK' H. apply (list_eq_same_length _ _ n); [done..|].
  intros i x y Hi Hx Hy. specialize (H i Hi).
  rewrite (list_lookup_total_correct _ _ _ Hx) in H.
  by rewrite (list_lookup_total_correct _ _ _ Hy) in H.
Qed.

Lemma tail_agree_68R2K (L L' : list Z) :
  length L = 68%nat → length L' = 68%nat → agree_below 66 L L' →
  agree_below 68 (SIMON128_68R2K.tail L) (SIMON128_68R2K.tail L').
Proof.
  intros HL HL' H. unfold SIMON128_68R2K.tail. cbv zeta.
  pose proof (zloop_rhs_reads_below SIMON128_128) as Hr.
  rewrite !(proj2 (assign_rhs_68R2K _)), !(proj1 (assign_rhs_68R2K _)).
  apply assign_agree; rewrite ?length_insert; try done; try lia.
  apply assign_agree; rewrite ?length_insert; try done; lia.
Qed.

Lemma tail_agree_69R3K (L L' : list Z) :
  length L = 69%nat → length L' = 69%nat → agree_below 67 L L' →
  agree_below 69 (SIMON128_69R3K.tail L) (SIMON128_69R3K.tail L').
Proof.
  intros HL HL' H. unfold SIMON128_69R3K.tail. cbv zeta.
  pose proof (zloop_rhs_reads_below SIMON128_192) as Hr.
  rewrite !(proj2 (assign_rhs_69R3K _)), !(proj1 (assign_rhs_69R3K _)).
  apply assign_agree; rewrite ?length_insert; try done; try lia.
  apply assign_agree; rewrite ?length_insert; try done; lia.
Qed.

Lemma tail_agree_72R4K (L L' : list Z) :
  length L = 72%nat → length L' = 72%nat → agree_below 68 L L' →
  agree_below 72 (SIMON128_72R4K.tail L) (SIMON128_72R4K.tail L').
Proof.
  intros HL HL' H. unfold SIMON128_72R4K.tail. cbv zeta.
  pose proof (zloop_rhs_reads_below SIMON128_256) as Hr.
  destruct (assign_rhs_72R4K L) as (E68 & _).
  destruct (assign_rhs_72R4K L') as (E68' & _).
  rewrite E68, E68'.
  set (K1 := <[68%nat := _]> L). set (K1' := <[68%nat := _]> L').
  assert (A1 : agree_below 69 K1 K1')
    by (apply assign_agree; try done; lia).
  assert (L1 : length K1 = 72%nat) by (by subst K1; rewrite length_insert).
  assert (L1' : length K1' = 72%nat) by (by subst K1'; rewrite length_insert).
  clearbody K1 K1'.
  destruct (assign_rhs_72R4K K1) as (_ & E69 & _).
  destruct (assign_rhs_72R4K K1') as (_ & E69' & _).
  rewrite E69, E69'.
  set (K2 := <[69%nat := _]> K1). set (K2' := <[69%nat := _]> K1').
  assert (A2 : agree_below 70 K2 K2')
    by (apply assign_agree; try done; lia).
  assert (L2 : length K2 = 72%nat) by (by subst K2; rewrite length_insert).
  assert (L2' : length K2' = 72%nat) by (by subst K2'; rewrite length_insert).
  clearbody K2 K2'.
  destruct (assign_rhs_72R4K K2) as (_ & _ & E70 & _).
  destruct (assign_rhs_72R4K K2') as (_ & _ & E70' & _).
  rewrite E70, E70'.
  set (K3 := <[70%nat := _]> K2). set (K3' := <[70%nat := _]> K2').
  assert (A3 : agree_below 71 K3 K3')
    by (apply assign_agree; try done; lia).
  assert (L3 : length K3 = 72%nat) by (by subst K3; rewrite length_insert).
  assert (L3' : length K3' = 72%nat) by (by subst K3'; rewrite length_insert).
  clearbody K3 K3'.
  destruct (assign_rhs_72R4K K3) as (_ & _ & _ & E71).
  destruct (assign_rhs_72R4K K3') as (_ & _ & _ & E71').
  rewrite E71, E71'.
  apply assign_agree; try done; lia.
Qed.

(** The produced schedule does not depend on what the array held before,
    and depends on the user key through its first [m] words only. *)
Lemma ExpandKey_pure (v : variant) (key key' k k' : list Z) :
  Z.of_nat (length key) = rounds_of v →
  Z.of_nat (length key') = rounds_of v →
  agree_below (key_words v) k k' →
  ExpandKey v key k = ExpandKey v key' k'.
Proof.
  intros HL HL' Hk.
  pose proof (ExpandKey_length v key k) as Hlen.
  pose proof (ExpandKey_length v key' k') as Hlen'.
  apply (agree_below_eq (Z.to_nat (rounds_of v))); [lia..|].
  clear Hlen Hlen'.
  destruct (ExpandKey_unfold v key k) as (s1 & H1 & L1 & _ & ->).
  destruct (ExpandKey_unfold v key' k') as (s2 & H2 & L2 & _ & ->).
  destruct (zloop_seed_facts v key k) as (Si & Sl & Sz).
  destruct (zloop_seed_facts v key' k') as (Si' & Sl' & Sz').
  rewrite zloop_step_eq in H1, H2.
  assert (Hloop : agree_below (key_words v + zloop_words v)
                    (es_key s1) (es_key s2)).
  { rewrite <- Si.
    eapply (iterate_expand_agree _ _ _ (zloop_rhs_reads_below v));
      [..|exact H1|exact H2].
    - congruence.
    - congruence.
    - rewrite Si. destruct v; simpl; lia.
    - rewrite Sl. clear H1 H2. destruct v; simpl in HL |- *; lia.
    - rewrite Sl'. clear H1 H2. destruct v; simpl in HL' |- *; lia.
    - rewrite Si. by apply zloop_seed_agree. }
  clear H1 H2.
  destruct v; simpl in HL, HL', Hloop |- *; try done.
  - apply tail_agree_68R2K; [lia..|done].
  - apply tail_agree_69R3K; [lia..|done].
  - apply tail_agree_72R4K; [lia..|done].
Qed.

(** ** Key setup *)

Lemma CRYPTOPP_ASSERT_true (debug : bool) : CRYPTOPP_ASSERT debug true = Ok tt.
Proof. by destruct debug. Qed.

(** Filling the first [n] entries of an array, entry [j] with [g j]. *)
Lemma fill_lookup (g : nat → Z) (n : nat) :
  ∀ out : list Z,
    (n ≤ length out)%nat →
    length (foldl (λ out j, <[j := g j]> out) out (seq 0 n)) = length out
    ∧ ∀ j : nat, (j < n)%nat →
        foldl (λ out j, <[j := g j]> out) out (seq 0 n) !!! j = g j.
Proof.
  induction n as [|n IH]; intros out Hn.
  - split; [done|]. intros j Hj. lia.
  - rewrite seq_S, foldl_app. simpl.
    destruct (IH out ltac:(lia)) as [Hlen Hget].
    split; [by rewrite length_insert|].
    intros j Hj. destruct (decide (j = n)) as [->|Hne].
    + by rewrite list_lookup_total_insert_eq by lia.
    + rewrite list_lookup_total_insert_ne by done. apply Hget. lia.
Qed.

(** The decoded user-key words do not depend on what the workspace held. *)
Lemma GetUserKey_lookup (bits : Z) (out : list Z) (outlen : nat)
    (userKey : list byte) (j : nat) :
  (outlen ≤ length out)%nat → (j < outlen)%nat →
  GetUserKey bits out outlen userKey !!! j = key_word bits outlen userKey j.
Proof.
  intros H Hj. unfold GetUserKey.
  by destruct (fill_lookup (key_word bits outlen userKey) outlen out H)
    as [_ ->].
Qed.

Lemma GetUserKey_agree (bits : Z) (out out' : list Z) (outlen : nat)
    (userKey : list byte) :
  (outlen ≤ length out)%nat → (outlen ≤ length out')%nat →
  agree_below outlen (GetUserKey bits out outlen userKey)
    (GetUserKey bits out' outlen userKey).
Proof. intros H H' j Hj. by rewrite !GetUserKey_lookup. Qed.

Lemma GetUserKey_length (bits : Z) (out : list Z) (outlen : nat)
    (userKey : list byte) :
  (outlen ≤ length out)%nat →
  length (GetUserKey bits out outlen userKey) = length out.
Proof.
  intros H. unfold GetUserKey.
  by destruct (fill_lookup (key_word bits outlen userKey) outlen out H)
    as [-> _].
Qed.

(** The routines under their own names and through [ExpandKey]. *)
Lemma ExpandKey_routines :
  SIMON64_ExpandKey_42R3K = ExpandKey SIMON64_96
  ∧ SIMON64_ExpandKey_44R4K = ExpandKey SIMON64_128
  ∧ SIMON128_ExpandKey_68R2K = ExpandKey SIMON128_128
  ∧ SIMON128_ExpandKey_69R3K = ExpandKey SIMON128_192
  ∧ SIMON128_ExpandKey_72R4K = ExpandKey SIMON128_256.
Proof. unfold ExpandKey. repeat apply conj; exact eq_refl. Qed.

(** What [UncheckedSetKey] stores for a key of an accepted length. *)
Lemma UncheckedSetKey_accepted (cls : cipher_class) (debug : bool)
    (alloc : SecBlock_allocator) (inst : SIMON_Base) (userKey : list byte)
    (v : variant) :
  variant_of cls (Z.of_nat (length userKey)) = Some v →
  let wspace := GetUserKey (word_bits v) (New alloc 4) (key_words v) userKey in
  UncheckedSetKey cls debug alloc inst userKey
  = Ok {| m_wspace := wspace;
          m_rkeys := ExpandKey v (New alloc (Z.to_nat (rounds_of v))) wspace;
          m_kwords := Z.of_nat (key_words v);
          m_rounds := rounds_of v |}.
Proof.
  destruct ExpandKey_routines as (E1 & E2 & E3 & E4 & E5).
  intros Hv wspace. subst wspace.
  destruct cls; cbn [UncheckedSetKey];
    [unfold SIMON64_UncheckedSetKey | unfold SIMON128_UncheckedSetKey];
    rewrite ?E1, ?E2, ?E3, ?E4, ?E5;
    destruct (Z.of_nat (length userKey)) as [|p|p]; try done;
    do 6 (try destruct p as [p|p|]; try done);
    injection Hv as <-; by rewrite CRYPTOPP_ASSERT_true.
Qed.

(** ** Facts about the single-block operations *)

Arguments SIMON_Encrypt : simpl never.

Arguments SIMON_Decrypt : simpl never.

Arguments ExpandKey : simpl never.

Lemma op_switch_eq (op : block_op) (debug : bool) (inst : SIMON_Base)
    (mem : memory) :
  op_switch op debug (inst, mem)
  = match op_transform op (m_rounds inst) with
    | Some t => Ok (on_wspace t inst, mem)
    | None => _ ← CRYPTOPP_ASSERT debug false; Ok (inst, mem)
    end.
Proof.
  destruct op; cbn [op_switch op_transform];
    [unfold SIMON64_Enc_switch | unfold SIMON64_Dec_switch
    |unfold SIMON128_Enc_switch | unfold SIMON128_Dec_switch];
    destruct (m_rounds inst) as [|p|p]; try reflexivity;
    do 7 (try destruct p as [p|p|]; try reflexivity).
Qed.

Lemma on_wspace_fields (t : Z * Z → list Z → Z * Z) (inst : SIMON_Base) :
  m_rkeys (on_wspace t inst) = m_rkeys inst
  ∧ m_rounds (on_wspace t inst) = m_rounds inst
  ∧ m_kwords (on_wspace t inst) = m_kwords inst
  ∧ m_wspace (on_wspace t inst)
    = <[3%nat := (t (m_wspace inst !!! 0%nat, m_wspace inst !!! 1%nat)
                    (m_rkeys inst)).2]>
        (<[2%nat := (t (m_wspace inst !!! 0%nat, m_wspace inst !!! 1%nat)
                       (m_rkeys inst)).1]> (m_wspace inst)).
Proof. unfold on_wspace. cbv zeta. by destruct (t _ _). Qed.

Lemma configured_transform (op : block_op) (inst : SIMON_Base) :
  configured (op_class op) inst = true →
  ∃ t, op_transform op (m_rounds inst) = Some t.
Proof.
  unfold configured. intros H.
  apply andb_prop in H as [_ H].
  destruct op; cbn [op_class] in H;
    repeat (apply orb_prop in H as [H|H]);
    apply Z.eqb_eq in H; rewrite H; cbn [op_transform]; eauto.
Qed.

(** The body of [ProcessAndXorBlock] on a state whose round count the
    [switch] knows. *)
Lemma ProcessAndXorBlock_known (debug : bool) (op : block_op)
    (inst : SIMON_Base) (mem : memory) (inBlock : Z) (xorBlock : option Z)
    (outBlock : Z) (t : Z * Z → list Z → Z * Z) :
  op_transform op (m_rounds inst) = Some t →
  ProcessAndXorBlock debug op inst mem inBlock xorBlock outBlock
  = Ok (store_block (op_bits op) xorBlock outBlock
          (on_wspace t (load_block (op_bits op) inBlock (inst, mem)).1, mem)).
Proof.
  intros Ht. unfold ProcessAndXorBlock. cbv zeta. cbn [run_phase c_op c_in].
  unfold load_block at 1. cbv zeta.
  change (mret ?x ≫= ?k) with (k x). cbv beta.
  change (Ok ?x ≫= ?k) with (k x). cbv beta.
  rewrite op_switch_eq. cbn [set_wspace m_rounds]. rewrite Ht.
  change (Ok ?x ≫= ?k) with (k x). cbv beta.
  cbn [c_xor c_out]. reflexivity.
Qed.

(** No block operation changes the round keys, the round count or the
    number of key words of the instance it runs on. *)
Lemma ProcessAndXorBlock_keeps (debug : bool) (op : block_op)
    (inst inst' : SIMON_Base) (mem mem' : memory) (inBlock : Z)
    (xorBlock : option Z) (outBlock : Z) :
  ProcessAndXorBlock debug op inst mem inBlock xorBlock outBlock
  = Ok (inst', mem') →
  m_rkeys inst' = m_rkeys inst
  ∧ m_rounds inst' = m_rounds inst
  ∧ m_kwords inst' = m_kwords inst.
Proof.
  destruct (op_transform op (m_rounds inst)) as [t|] eqn:Ht.
  - rewrite (ProcessAndXorBlock_known _ _ _ _ _ _ _ t Ht).
    unfold store_block, load_block. cbv zeta. cbn [fst].
    intros [= <- _].
    destruct (on_wspace_fields t
                (set_wspace inst
                   (<[1%nat := GetWord (op_bits op) mem
                                 (inBlock + Z.of_nat (word_bytes (op_bits op)))]>
                      (<[0%nat := GetWord (op_bits op) mem inBlock]>
                         (m_wspace inst)))))
      as (-> & -> & -> & _).
    done.
  - unfold ProcessAndXorBlock. cbv zeta. cbn [run_phase c_op c_in].
    unfold load_block at 1. cbv zeta.
    change (Ok ?x ≫= ?k) with (k x). cbv beta.
    rewrite op_switch_eq. cbn [set_wspace m_rounds]. rewrite Ht.
    destruct debug; [done|].
    cbn. intros [= <- _]. done.
Qed.

Lemma valid_key_length_accepted (cls : cipher_class) (n : Z) :
  valid_key_length cls n = true ↔ accepted_length cls n.
Proof.
  destruct cls; unfold valid_key_length, accepted_length;
    rewrite ?orb_true_iff, ?Z.eqb_eq; tauto.
Qed.

Lemma accepted_variant (cls : cipher_class) (n : Z) :
  accepted_length cls n → ∃ v, variant_of cls n = Some v.
Proof.
  destruct cls; unfold accepted_length; intros H;
    repeat (destruct H as [->|H]); try subst n; cbn; eauto.
Qed.

Lemma variant_accepted (cls : cipher_class) (n : Z) (v : variant) :
  variant_of cls n = Some v → valid_key_length cls n = true.
Proof.
  intros H. destruct cls, n as [|p|p]; try done;
    do 6 (try destruct p as [p|p|]; try done).
Qed.

Lemma rounds_of_nat (v : variant) :
  Z.of_nat (Z.to_nat (rounds_of v)) = rounds_of v.
Proof. by destruct v. Qed.

(** Key setup with an accepted length leaves a configured instance. *)
Lemma setup_configured (cls : cipher_class) (alloc : SecBlock_allocator)
    (userKey : list byte) (v : variant) :
  variant_of cls (Z.of_nat (length userKey)) = Some v →
  configured cls
    {| m_wspace := GetUserKey (word_bits v) (New alloc 4) (key_words v) userKey;
       m_rkeys := ExpandKey v (New alloc (Z.to_nat (rounds_of v)))
                    (GetUserKey (word_bits v) (New alloc 4) (key_words v)
                       userKey);
       m_kwords := Z.of_nat (key_words v);
       m_rounds := rounds_of v |} = true.
Proof.
  intros Hv. unfold configured. cbn [m_wspace m_rkeys m_rounds].
  rewrite GetUserKey_length by (rewrite New_size; destruct v; simpl; lia).
  rewrite ExpandKey_length, !New_size, rounds_of_nat, Z.eqb_refl.
  destruct cls, (Z.of_nat (length userKey)) as [|p|p]; try done;
    do 6 (try destruct p as [p|p|]; try done); by injection Hv as <-.
Qed.

(** C6: key expansion is a function of the user key alone (whatever the
    build, the allocator's memory and the instance's previous state, the
    stored schedule is [schedule_of v userKey]); after setup with an accepted
    key length the stored round count and the length of the schedule are the
    [R] of the table (42, 44 for 12-, 16-byte SIMON-64 keys; 68, 69, 72 for
    16-, 24-, 32-byte SIMON-128 keys); and no block operation run afterwards
    modifies the schedule or the round count. *)
Theorem key_setup_schedule (cls : cipher_class) (debug debug' : bool)
    (alloc : SecBlock_allocator) (inst : SIMON_Base) (userKey : list byte)
    (v : variant) :
  variant_of cls (Z.of_nat (length userKey)) = Some v →
  ∃ inst',
    UncheckedSetKey cls debug alloc inst userKey = Ok inst'
    ∧ m_rkeys inst' = schedule_of v userKey
    ∧ m_rounds inst' = rounds_of v
    ∧ Z.of_nat (length (m_rkeys inst')) = rounds_of v
    ∧ ∀ (op : block_op) (mem : memory) (inBlock : Z) (xorBlock : option Z)
        (outBlock : Z),
        op_class op = cls →
        ∃ inst'' mem',
          ProcessAndXorBlock debug' op inst' mem inBlock xorBlock outBlock
          = Ok (inst'', mem')
          ∧ m_rkeys inst'' = m_rkeys inst'
          ∧ m_rounds inst'' = m_rounds inst'.
Proof.
  intros Hv. rewrite (UncheckedSetKey_accepted _ _ _ _ _ v Hv). cbv zeta.
  eexists. split; [reflexivity|].
  pose proof (setup_configured cls alloc userKey v Hv) as Hconf.
  set (inst' := {| m_wspace := _ |}) in *.
  assert (Hlen : Z.of_nat (length (m_rkeys inst')) = rounds_of v).
  { subst inst'. cbn [m_rkeys].
    by rewrite ExpandKey_length, New_size, rounds_of_nat. }
  split; [|split; [done|split; [done|]]].
  - subst inst'. cbn [m_rkeys]. unfold schedule_of.
    apply ExpandKey_pure.
    + by rewrite New_size, rounds_of_nat.
    + by rewrite length_replicate, rounds_of_nat.
    + apply GetUserKey_agree.
      * rewrite New_size. destruct v; simpl; lia.
      * rewrite length_replicate. destruct v; simpl; lia.
  - intros op mem inBlock xorBlock outBlock <-.
    destruct (configured_transform op inst' Hconf) as [t Ht].
    pose proof (ProcessAndXorBlock_known debug' op inst' mem inBlock xorBlock
                  outBlock t Ht) as E.
    destruct (store_block _ _ _ _) as [inst'' mem'] in E.
    exists inst'', mem'. split; [done|].
    by destruct (ProcessAndXorBlock_keeps _ _ _ _ _ _ _ _ _ E) as (-> & -> & _).
Qed.

(** C7: key setup fails with [InvalidKeyLength] exactly when the byte length
    of the user key is not in the accepted set ({12, 16} for SIMON-64,
    {16, 24, 32} for SIMON-128), and with a length of the accepted set it
    succeeds: it returns a configured instance and trips no assertion. *)
Theorem key_length_error (cls : cipher_class) (debug : bool)
    (alloc : SecBlock_allocator) (inst : SIMON_Base) (userKey : list byte) :
  (SetKey cls debug alloc inst userKey = Err InvalidKeyLength
   ↔ ¬ accepted_length cls (Z.of_nat (length userKey)))
  ∧ (accepted_length cls (Z.of_nat (length userKey)) →
     ∃ inst', SetKey cls debug alloc inst userKey = Ok inst'
              ∧ configured cls inst' = true).
Proof.
  unfold SetKey. rewrite <- valid_key_length_accepted.
  destruct (valid_key_length cls _) eqn:Hvalid.
  - apply valid_key_length_accepted, accepted_variant in Hvalid as [v Hv].
    rewrite (UncheckedSetKey_accepted _ _ _ _ _ v Hv). cbv zeta.
    split; [split; [done|by intros []]|].
    intros _. eexists. split; [reflexivity|]. by apply setup_configured.
  - split; [split; [by intros _ | done]|done].
Qed.

(** ** Facts about byte buffers *)

Lemma load_bytes_length (m : memory) (n : nat) :
  ∀ a : Z, length (load_bytes m a n) = n.
Proof. induction n as [|n IH]; intros a; simpl; by rewrite ?IH. Qed.

Lemma load_bytes_ext (m m' : memory) (n : nat) :
  ∀ a : Z,
    (∀ a' : Z, a ≤ a' < a + Z.of_nat n → m a' = m' a') →
    load_bytes m a n = load_bytes m' a n.
Proof.
  induction n as [|n IH]; intros a H; [done|]. simpl.
  rewrite (H a) by lia. f_equal. apply IH. intros a' Ha'. apply H. lia.
Qed.

Lemma load_bytes_app (m : memory) (n1 n2 : nat) :
  ∀ a : Z,
    load_bytes m a (n1 + n2)
    = load_bytes m a n1 ++ load_bytes m (a + Z.of_nat n1) n2.
Proof.
  induction n1 as [|n1 IH]; intros a.
  - simpl. by rewrite Z.add_0_r.
  - cbn [Nat.add load_bytes app]. rewrite IH. do 3 f_equal. lia.
Qed.

(** Reading a buffer that a store did not touch. *)
Lemma load_store_other (m : memory) (a a' : Z) (bs : list byte) (n : nat) :
  a' + Z.of_nat n ≤ a ∨ a + Z.of_nat (length bs) ≤ a' →
  load_bytes (store_bytes m a bs) a' n = load_bytes m a' n.
Proof.
  intros H. apply load_bytes_ext. intros b Hb. unfold store_bytes.
  destruct (Z.leb_spec a b), (Z.ltb_spec b (a + Z.of_nat (length bs)));
    simpl; try done; lia.
Qed.

Lemma load_store_within (m : memory) (a : Z) (bs : list byte) (n : nat) :
  ∀ k : nat,
    (k + n ≤ length bs)%nat →
    load_bytes (store_bytes m a bs) (a + Z.of_nat k) n = take n (drop k bs).
Proof.
  induction n as [|n IH]; intros k Hk; [done|].
  cbn [load_bytes].
  destruct (lookup_lt_is_Some_2 bs k ltac:(lia)) as [b Hb].
  rewrite (drop_S _ _ _ Hb). cbn [take]. f_equal.
  - unfold store_bytes.
    destruct (Z.leb_spec a (a + Z.of_nat k)); [|lia].
    destruct (Z.ltb_spec (a + Z.of_nat k) (a + Z.of_nat (length bs))); [|lia].
    simpl. replace (a + Z.of_nat k - a) with (Z.of_nat k) by lia.
    rewrite Nat2Z.id. by apply list_lookup_total_correct.
  - replace (a + Z.of_nat k + 1) with (a + Z.of_nat (S k)) by lia.
    apply IH. lia.
Qed.

(** Reading back the buffer a store wrote. *)
Lemma load_store_same (m : memory) (a : Z) (bs : list byte) :
  load_bytes (store_bytes m a bs) a (length bs) = bs.
Proof.
  pose proof (load_store_within m a bs (length bs) 0 ltac:(lia)) as H.
  rewrite Z.add_0_r in H. rewrite H. by rewrite drop_0, firstn_all.
Qed.

Lemma be_encode_length (n : nat) (w : Z) : length (be_encode n w) = n.
Proof. unfold be_encode. by rewrite length_map, length_seq. Qed.

Lemma word_out_length (bits : Z) (m : memory) (xorBlock : option Z)
    (value : Z) :
  length (word_out bits m xorBlock value) = word_bytes bits.
Proof.
  destruct xorBlock as [x|]; simpl.
  - rewrite length_zip_with, be_encode_length, load_bytes_length. lia.
  - apply be_encode_length.
Qed.

Lemma PutWord_eq (bits : Z) (m : memory) (xorBlock : option Z) (block : Z)
    (value : Z) :
  PutWord bits m xorBlock block value
  = store_bytes m block (word_out bits m xorBlock value).
Proof. by destruct xorBlock. Qed.

(** The output buffer after [store_block]: the big-endian bytes of
    [m_wspace[2]] and [m_wspace[3]], XORed with the bytes [xorBlock] pointed
    to before the call. *)
Lemma store_block_output (bits : Z) (xorBlock : option Z) (outBlock : Z)
    (inst : SIMON_Base) (mem : memory) :
  xor_apart (2 * word_bytes bits) xorBlock outBlock →
  load_bytes (store_block bits xorBlock outBlock (inst, mem)).2 outBlock
    (2 * word_bytes bits)
  = word_out bits mem xorBlock (m_wspace inst !!! 2%nat)
    ++ word_out bits mem ((λ x, x + Z.of_nat (word_bytes bits)) <$> xorBlock)
         (m_wspace inst !!! 3%nat).
Proof.
  intros Hx. unfold store_block. cbv zeta. cbn [snd].
  rewrite !PutWord_eq.
  set (n := word_bytes bits) in *.
  set (t1 := word_out bits mem xorBlock _).
  assert (Ht1 : length t1 = n) by apply word_out_length.
  set (mem1 := store_bytes mem outBlock t1).
  assert (Ht2 :
    word_out bits mem1 ((λ x, x + Z.of_nat n) <$> xorBlock)
      (m_wspace inst !!! 3%nat)
    = word_out bits mem ((λ x, x + Z.of_nat n) <$> xorBlock)
        (m_wspace inst !!! 3%nat)).
  { destruct xorBlock as [x|]; [|done]. simpl. f_equal.
    subst mem1. apply load_store_other. simpl in Hx. fold n. lia. }
  rewrite Ht2.
  set (t2 := word_out bits mem _ _).
  assert (Hlen2 : length t2 = n) by apply word_out_length.
  replace (2 * n)%nat with (n + n)%nat by lia.
  rewrite load_bytes_app. f_equal.
  - rewrite load_store_other by lia.
    subst mem1. clearbody t1. subst n. rewrite <- Ht1.
    apply load_store_same.
  - clearbody t2 mem1. subst n. rewrite <- Hlen2. apply load_store_same.
Qed.

(** C8: for every configured instance and every input block, the
    single-block operation called with the output buffer equal to the input
    buffer produces the same output bytes as when called with another output
    buffer on the same input bytes ([xorBlock], when not null, lying apart
    from both buffers). *)
Theorem in_place_same_output (debug : bool) (op : block_op)
    (inst : SIMON_Base) (mem : memory) (inBlock : Z) (xorBlock : option Z)
    (outBlock : Z) :
  configured (op_class op) inst = true →
  xor_apart (block_bytes op) xorBlock inBlock →
  xor_apart (block_bytes op) xorBlock outBlock →
  ∃ inst1 mem1 inst2 mem2,
    ProcessAndXorBlock debug op inst mem inBlock xorBlock inBlock
    = Ok (inst1, mem1)
    ∧ ProcessAndXorBlock debug op inst mem inBlock xorBlock outBlock
      = Ok (inst2, mem2)
    ∧ load_bytes mem1 inBlock (block_bytes op)
      = load_bytes mem2 outBlock (block_bytes op).
Proof.
  intros Hc Hin Hout.
  destruct (configured_transform op inst Hc) as [t Ht].
  rewrite !(ProcessAndXorBlock_known _ _ _ _ _ _ _ t Ht).
  set (I := on_wspace t _).
  pose proof (store_block_output (op_bits op) xorBlock inBlock I mem Hin) as O1.
  pose proof (store_block_output (op_bits op) xorBlock outBlock I mem Hout)
    as O2.
  destruct (store_block _ _ inBlock _) as [i1 m1].
  destruct (store_block _ _ outBlock _) as [i2 m2].
  exists i1, m1, i2, m2. split; [done|]. split; [done|].
  cbn [snd] in O1, O2. unfold block_bytes. congruence.
Qed.

(** ** The published test vectors *)

(** The key of the SIMON-128/192 vector decodes to the three words of the
    specification. *)
Example vector_key_128_192_words :
  GetUserKey 64 (replicate 4 0) 3 (vector_key SIMON128_192)
  = [0x1716151413121110; 0x0f0e0d0c0b0a0908; 0x0706050403020100; 0].
Proof. by vm_compute. Qed.

(** C2: for each published test vector (SIMON-64/96, SIMON-64/128,
    SIMON-128/128, SIMON-128/192 with its odd round count, SIMON-128/256),
    expanding the big-endian-decoded key with the matching routine and
    encrypting the big-endian-decoded plaintext block yields exactly the
    listed ciphertext words, whatever the arrays held before. *)
Theorem published_vectors (v : variant) (key wspace : list Z) :
  Z.of_nat (length key) = rounds_of v →
  length wspace = 4%nat →
  SIMON_Encrypt (word_bits v) (rounds_of v)
    (decode_block (word_bits v) (vector_plaintext v))
    (ExpandKey v key
       (GetUserKey (word_bits v) wspace (key_words v) (vector_key v)))
  = vector_ciphertext v.
Proof.
  intros Hkey Hw.
  rewrite (ExpandKey_pure v key (replicate (Z.to_nat (rounds_of v)) 0)
             _ (GetUserKey (word_bits v) (replicate 4 0) (key_words v)
                  (vector_key v))).
  - destruct v; by vm_compute.
  - done.
  - by rewrite length_replicate, rounds_of_nat.
  - apply GetUserKey_agree.
    + rewrite Hw. destruct v; simpl; lia.
    + rewrite length_replicate. destruct v; simpl; lia.
Qed.

(** ** Calls on one instance, one after another and overlapping *)

(** C9 as stated fails: two threads encrypt disjoint buffers with one
    configured instance; when the second thread loads its block into the
    shared workspace between the first thread's load and transformation, the
    first call returns the ciphertext of the second thread's block instead
    of the published ciphertext it returns in the sequential execution. *)
Lemma overlapping_calls_differ :
  configured SIMON64 race_instance = true
  ∧ buffers_disjoint race_calls = true
  ∧ outputs_sequential true race_calls race_instance race_memory
    = Some [bytes_of [0x44; 0xc8; 0xfc; 0x20; 0xb9; 0xdf; 0xa0; 0x7a];
            bytes_of [0xa4; 0xc6; 0x6b; 0xd8; 0x7c; 0x93; 0xde; 0x7f]]
  ∧ outputs_after true [0; 1; 0; 0; 1; 1]%nat race_calls race_instance
      race_memory
    = Some [bytes_of [0xa4; 0xc6; 0x6b; 0xd8; 0x7c; 0x93; 0xde; 0x7f];
            bytes_of [0xa4; 0xc6; 0x6b; 0xd8; 0x7c; 0x93; 0xde; 0x7f]]
  ∧ ¬ overlap_as_sequential true race_calls race_instance race_memory.
Proof.
  split; [by vm_compute|]. split; [by vm_compute|].
  split; [by vm_compute|]. split; [by vm_compute|].
  intros H.
  specialize (H [0; 1; 0; 0; 1; 1]%nat
                (map (map byte_of_Z)
                   [[0xa4; 0xc6; 0x6b; 0xd8; 0x7c; 0x93; 0xde; 0x7f];
                    [0xa4; 0xc6; 0x6b; 0xd8; 0x7c; 0x93; 0xde; 0x7f]])
                ltac:(by vm_compute)).
  vm_compute in H. discriminate H.
Qed.

(** The words the transformation leaves in [m_wspace[2..3]] are those of the
    block just loaded, whatever the workspace held. *)
Lemma loaded_then_transformed (bits : Z) (t : Z * Z → list Z → Z * Z)
    (inst : SIMON_Base) (mem : memory) (inBlock : Z) :
  length (m_wspace inst) = 4%nat →
  let I := on_wspace t (load_block bits inBlock (inst, mem)).1 in
  let c := t (GetWord bits mem inBlock,
              GetWord bits mem (inBlock + Z.of_nat (word_bytes bits)))
             (m_rkeys inst) in
  m_wspace I !!! 2%nat = c.1 ∧ m_wspace I !!! 3%nat = c.2
  ∧ length (m_wspace I) = 4%nat.
Proof.
  intros Hlen I c. subst I c. unfold load_block. cbv zeta. cbn [fst].
  destruct (on_wspace_fields t
              (set_wspace inst
                 (<[1%nat := GetWord bits mem
                               (inBlock + Z.of_nat (word_bytes bits))]>
                    (<[0%nat := GetWord bits mem inBlock]> (m_wspace inst)))))
    as (_ & _ & _ & ->).
  cbn [set_wspace m_wspace m_rkeys].
  rewrite !length_insert. split; [|split; [|done]]; by array_simpl.
Qed.

(** ** The theorems at concrete inputs *)

(** C10 at the 32-bit words 1, 2 with keys 3, 4. *)
Lemma R2_swapped_inverts_witness :
  R2 32 (1, 2) 3 4 = (17, 5) ∧ R2 32 (5, 17) 4 3 = (2, 1).
Proof.
  split; [reflexivity|].
  apply (R2_swapped_inverts 32 1 2 3 4 17 5). reflexivity.
Defined.

(** C1 at the SIMON-128/192 vector. *)
Lemma decrypt_inverts_encrypt_witness :
  Z.of_nat (length (schedule_of SIMON128_192 (vector_key SIMON128_192)))
  = rounds_of SIMON128_192
  ∧ SIMON_Decrypt (word_bits SIMON128_192) (rounds_of SIMON128_192)
      (SIMON_Encrypt (word_bits SIMON128_192) (rounds_of SIMON128_192)
         (decode_block 64 (vector_plaintext SIMON128_192))
         (schedule_of SIMON128_192 (vector_key SIMON128_192)))
      (schedule_of SIMON128_192 (vector_key SIMON128_192))
    = decode_block 64 (vector_plaintext SIMON128_192).
Proof.
  split; [vm_compute; reflexivity|].
  apply (decrypt_inverts_encrypt SIMON128_192
           (schedule_of SIMON128_192 (vector_key SIMON128_192))
           (decode_block 64 (vector_plaintext SIMON128_192))).
  vm_compute; reflexivity.
Defined.

(** C2 at the SIMON-128/192 vector, on zeroed arrays. *)
Lemma published_vectors_witness :
  (Z.of_nat (length (replicate 69 0)) = rounds_of SIMON128_192
   ∧ length (replicate 4 0) = 4%nat)
  ∧ SIMON_Encrypt (word_bits SIMON128_192) (rounds_of SIMON128_192)
      (decode_block (word_bits SIMON128_192) (vector_plaintext SIMON128_192))
      (ExpandKey SIMON128_192 (replicate 69 0)
         (GetUserKey (word_bits SIMON128_192) (replicate 4 0)
            (key_words SIMON128_192) (vector_key SIMON128_192)))
    = vector_ciphertext SIMON128_192.
Proof.
  split; [split; reflexivity|].
  apply (published_vectors SIMON128_192 (replicate 69 0) (replicate 4 0));
    reflexivity.
Defined.

(** C4 on zeroed arrays and the published keys. *)
Lemma tail_round_keys_witness :
  (length (replicate 68 0) = 68%nat ∧ length (replicate 69 0) = 69%nat
   ∧ length (replicate 72 0) = 72%nat)
  ∧ (ExpandKey SIMON128_128 (replicate 68 0) userkey_128_128 !!! 66%nat
     = recurrence_2or3 2 SIMON128_68R2K.c 1
         (ExpandKey SIMON128_128 (replicate 68 0) userkey_128_128) 66
     ∧ ExpandKey SIMON128_128 (replicate 68 0) userkey_128_128 !!! 67%nat
       = recurrence_2or3 2 SIMON128_68R2K.c 0
           (ExpandKey SIMON128_128 (replicate 68 0) userkey_128_128) 67).
Proof.
  split; [split; [reflexivity|split; reflexivity]|].
  apply (tail_round_keys (replicate 68 0) userkey_128_128
           (replicate 69 0) userkey_128_192
           (replicate 72 0) userkey_128_256); reflexivity.
Defined.

(** C5 at the first entry of the SIMON-64/96 schedule. *)
Lemma seeding_reversed_witness :
  (Z.of_nat (length (replicate 42 0)) = rounds_of SIMON64_96
   ∧ length userkey_64_96 = key_words SIMON64_96
   ∧ (0 < key_words SIMON64_96)%nat)
  ∧ ExpandKey SIMON64_96 (replicate 42 0) userkey_64_96 !! 0%nat
    = userkey_64_96 !! (key_words SIMON64_96 - 1 - 0)%nat.
Proof.
  split; [split; [reflexivity|split; [reflexivity|simpl; lia]]|].
  apply (seeding_reversed SIMON64_96 (replicate 42 0) userkey_64_96 0);
    simpl; lia.
Defined.

(** C6 at the SIMON-128/192 key. *)
Lemma key_setup_schedule_witness :
  variant_of SIMON128 (Z.of_nat (length (vector_key SIMON128_192)))
  = Some SIMON128_192
  ∧ ∃ inst',
      UncheckedSetKey SIMON128 true zero_allocator blank_instance
        (vector_key SIMON128_192) = Ok inst'
      ∧ m_rkeys inst' = schedule_of SIMON128_192 (vector_key SIMON128_192)
      ∧ m_rounds inst' = rounds_of SIMON128_192
      ∧ Z.of_nat (length (m_rkeys inst')) = rounds_of SIMON128_192
      ∧ ∀ (op : block_op) (mem : memory) (inBlock : Z) (xorBlock : option Z)
          (outBlock : Z),
          op_class op = SIMON128 →
          ∃ inst'' mem',
            ProcessAndXorBlock false op inst' mem inBlock xorBlock outBlock
            = Ok (inst'', mem')
            ∧ m_rkeys inst'' = m_rkeys inst'
            ∧ m_rounds inst'' = m_rounds inst'.
Proof.
  split; [reflexivity|].
  apply (key_setup_schedule SIMON128 true false zero_allocator blank_instance
           (vector_key SIMON128_192) SIMON128_192).
  reflexivity.
Defined.

(** C7 at the 16-byte SIMON-64 key. *)
Lemma key_length_error_witness :
  accepted_length SIMON64 (Z.of_nat (length (vector_key SIMON64_128)))
  ∧ ∃ inst',
      SetKey SIMON64 true zero_allocator blank_instance
        (vector_key SIMON64_128) = Ok inst'
      ∧ configured SIMON64 inst' = true.
Proof.
  split; [right; reflexivity|].
  apply (key_length_error SIMON64 true zero_allocator blank_instance
           (vector_key SIMON64_128)).
  right; reflexivity.
Defined.

(** C8 at the keyed SIMON-64 instance, in place at address 0 and out of
    place to address 16. *)
Lemma in_place_same_output_witness :
  (configured (op_class SIMON64_Enc) race_instance = true
   ∧ xor_apart (block_bytes SIMON64_Enc) None 0
   ∧ xor_apart (block_bytes SIMON64_Enc) None 16)
  ∧ ∃ inst1 mem1 inst2 mem2,
      ProcessAndXorBlock true SIMON64_Enc race_instance race_memory 0 None 0
      = Ok (inst1, mem1)
      ∧ ProcessAndXorBlock true SIMON64_Enc race_instance race_memory 0 None 16
        = Ok (inst2, mem2)
      ∧ load_bytes mem1 0 (block_bytes SIMON64_Enc)
        = load_bytes mem2 16 (block_bytes SIMON64_Enc).
Proof.
  split; [split; [vm_compute; reflexivity|split; exact I]|].
  apply (in_place_same_output true SIMON64_Enc race_instance race_memory
           0 None 16); [vm_compute; reflexivity|exact I|exact I].
Defined.

(** ** Encryption inverts decryption *)

Section RoundTripBack.

Variable bits : Z.

Variable k : list Z.

Lemma enc_rounds_app (a b : nat) :
  ∀ (i : Z) (c : Z * Z),
    enc_rounds bits k (a + b) i c
    = enc_rounds bits k b (i + 2 * Z.of_nat a) (enc_rounds bits k a i c).
Proof.
  induction a as [|a IH]; intros i c.
  - simpl. f_equal. lia.
  - cbn [Nat.add enc_rounds]. rewrite IH. f_equal. lia.
Qed.

Lemma enc_round_dec_round (i : Z) (p : Z * Z) :
  enc_rounds bits k 1 i (dec_rounds bits k 1 i p) = p.
Proof.
  destruct p as [p0 p1]. cbn [dec_rounds enc_rounds].
  destruct (R2 bits (p1, p0) _ _) as [q1 q0] eqn:E.
  by rewrite (R2_swapped_inverts_eq bits _ _ _ _ _ _ E).
Qed.

Lemma enc_rounds_dec_rounds (n : nat) :
  ∀ (i : Z) (p : Z * Z),
    enc_rounds bits k n i (dec_rounds bits k n (i + 2 * Z.of_nat n - 2) p) = p.
Proof.
  induction n as [|n IH]; intros i p; [done|].
  replace (S n) with (n + 1)%nat at 1 by lia.
  rewrite enc_rounds_app.
  replace (S n) with (1 + n)%nat by lia.
  rewrite dec_rounds_app.
  replace (i + 2 * Z.of_nat (1 + n) - 2 - 2 * Z.of_nat 1)
    with (i + 2 * Z.of_nat n - 2) by lia.
  rewrite IH.
  replace (i + 2 * Z.of_nat (1 + n) - 2) with (i + 2 * Z.of_nat n) by lia.
  apply enc_round_dec_round.
Qed.

(** Encryption after decryption, for any round count that fits an [int]. *)
Lemma SIMON_Encrypt_Decrypt (R : Z) (c : Z * Z) :
  1 ≤ R < 2 ^ 31 →
  SIMON_Encrypt bits R (SIMON_Decrypt bits R c k) k = c.
Proof.
  intros HR. unfold SIMON_Decrypt, SIMON_Encrypt.
  rewrite land_1_parity.
  set (n := Z.to_nat (R / 2)).
  destruct (Z.eqb_spec (R mod 2) 0) as [Heven|Hodd].
  - assert (Hn : R = 2 * Z.of_nat n).
    { subst n. pose proof (Z.div_mod R 2 ltac:(lia)).
      pose proof (Z.div_pos R 2). rewrite Z2Nat.id; lia. }
    rewrite (decrypt_loop_rounds bits k n); try lia.
    + rewrite (encrypt_loop_rounds bits k R n) by lia.
      replace (2 * Z.of_nat n - 2) with (0 + 2 * Z.of_nat n - 2) by lia.
      apply enc_rounds_dec_rounds.
    + intros Hne. unfold wrap. rewrite Z.mod_small; lia.
  - assert (Hn : R = 2 * Z.of_nat n + 1).
    { subst n. pose proof (Z.div_mod R 2 ltac:(lia)).
      pose proof (Z.mod_pos_bound R 2 ltac:(lia)).
      pose proof (Z.div_pos R 2). rewrite Z2Nat.id; lia. }
    destruct c as [a b].
    rewrite (decrypt_loop_rounds bits k n); try lia.
    + rewrite (encrypt_loop_rounds bits k R n) by lia.
      replace (2 * Z.of_nat n - 2) with (0 + 2 * Z.of_nat n - 2) by lia.
      rewrite enc_rounds_dec_rounds. by rewrite lxor_undo_tail.
    + intros ->. replace R with 1 by lia. by vm_compute.
    + intros Hne. unfold wrap.
      rewrite (Z.mod_small (R - 1)) by lia. rewrite Z.mod_small; lia.
Qed.

(** The paired rounds read the subkeys at the indices they run over only. *)
Lemma enc_rounds_agree (k' : list Z) (n : nat) :
  ∀ (i : nat) (c : Z * Z),
    agree_below (i + 2 * n) k k' →
    enc_rounds bits k n (Z.of_nat i) c = enc_rounds bits k' n (Z.of_nat i) c.
Proof.
  induction n as [|n IH]; intros i c H; [done|].
  cbn [enc_rounds]. unfold subkey.
  replace (Z.of_nat i + 1) with (Z.of_nat (S i)) by lia.
  rewrite !Nat2Z.id, (H i), (H (S i)) by lia.
  replace (Z.of_nat i + 2) with (Z.of_nat (S (S i))) by lia.
  apply IH. intros j Hj. apply H. lia.
Qed.

Lemma dec_rounds_agree (k' : list Z) (n : nat) :
  ∀ (p : Z * Z),
    agree_below (2 * n) k k' →
    dec_rounds bits k n (2 * Z.of_nat n - 2) p
    = dec_rounds bits k' n (2 * Z.of_nat n - 2) p.
Proof.
  induction n as [|n IH]; intros p H; [done|].
  cbn [dec_rounds]. unfold subkey. destruct p as [p0 p1].
  replace (2 * Z.of_nat (S n) - 2) with (Z.of_nat (2 * n)) by lia.
  replace (Z.of_nat (2 * n) + 1) with (Z.of_nat (S (2 * n))) by lia.
  rewrite !Nat2Z.id, (H (2 * n)%nat), (H (S (2 * n))) by lia.
  destruct (R2 bits (p1, p0) _ _) as [q1 q0].
  replace (Z.of_nat (2 * n) - 2) with (2 * Z.of_nat n - 2) by lia.
  apply IH. intros j Hj. apply H. lia.
Qed.

End RoundTripBack.

(** X1: for each of the five variants and every schedule of the variant's
    length, [SIMON_Encrypt] applied to the result of [SIMON_Decrypt] returns
    the block: with the round trip of the other direction, each of the two
    is a bijection on blocks and the inverse of the other. *)
Theorem encrypt_inverts_decrypt (v : variant) (k : list Z) (c : Z * Z) :
  Z.of_nat (length k) = rounds_of v →
  SIMON_Encrypt (word_bits v) (rounds_of v)
    (SIMON_Decrypt (word_bits v) (rounds_of v) c k) k = c.
Proof.
  intros _. apply SIMON_Encrypt_Decrypt. destruct v; simpl; lia.
Qed.

Lemma encrypt_inverts_decrypt_witness :
  Z.of_nat (length (schedule_of SIMON128_192 (vector_key SIMON128_192)))
  = rounds_of SIMON128_192
  ∧ SIMON_Encrypt (word_bits SIMON128_192) (rounds_of SIMON128_192)
      (SIMON_Decrypt (word_bits SIMON128_192) (rounds_of SIMON128_192)
         (vector_ciphertext SIMON128_192)
         (schedule_of SIMON128_192 (vector_key SIMON128_192)))
      (schedule_of SIMON128_192 (vector_key SIMON128_192))
    = vector_ciphertext SIMON128_192.
Proof.
  split; [vm_compute; reflexivity|].
  apply (encrypt_inverts_decrypt SIMON128_192
           (schedule_of SIMON128_192 (vector_key SIMON128_192))
           (vector_ciphertext SIMON128_192)).
  vm_compute; reflexivity.
Defined.

(** X2: [SIMON_Encrypt] and [SIMON_Decrypt] with [R] rounds index the
    subkey array below [R] only: two arrays with the same first [R] entries
    (for instance an array and the same array followed by other words) give
    the same result. *)
Theorem subkeys_read_below_R (bits R : Z) (k k' : list Z) (p : Z * Z) :
  1 ≤ R < 2 ^ 31 →
  agree_below (Z.to_nat R) k k' →
  SIMON_Encrypt bits R p k = SIMON_Encrypt bits R p k'
  ∧ SIMON_Decrypt bits R p k = SIMON_Decrypt bits R p k'.
Proof.
  intros HR H. unfold SIMON_Encrypt, SIMON_Decrypt.
  rewrite land_1_parity.
  set (n := Z.to_nat (R / 2)).
  assert (Hsub : R mod 2 ≠ 0 → subkey k (R - 1) = subkey k' (R - 1)).
  { intros _. unfold subkey. apply H. lia. }
  destruct (Z.eqb_spec (R mod 2) 0) as [Heven|Hodd].
  - assert (Hn : R = 2 * Z.of_nat n).
    { subst n. pose proof (Z.div_mod R 2 ltac:(lia)).
      pose proof (Z.div_pos R 2). rewrite Z2Nat.id; lia. }
    rewrite !(encrypt_loop_rounds bits _ R n) by lia.
    assert (Hw : n ≠ O → wrap 32 (R - 2) = 2 * Z.of_nat n - 2).
    { intros Hne. unfold wrap. rewrite Z.mod_small; lia. }
    rewrite !(decrypt_loop_rounds bits _ n) by (try done; lia).
    split.
    + apply (enc_rounds_agree bits k k' n 0). intros j Hj. apply H. lia.
    + apply dec_rounds_agree. intros j Hj. apply H. lia.
  - assert (Hn : R = 2 * Z.of_nat n + 1).
    { subst n. pose proof (Z.div_mod R 2 ltac:(lia)).
      pose proof (Z.mod_pos_bound R 2 ltac:(lia)).
      pose proof (Z.div_pos R 2). rewrite Z2Nat.id; lia. }
    rewrite !(encrypt_loop_rounds bits _ R n) by lia.
    rewrite (enc_rounds_agree bits k k' n 0)
      by (intros j Hj; apply H; lia).
    rewrite Hsub by done. split; [done|].
    destruct p as [p0 p1].
    assert (Hw : n ≠ O → wrap 32 (wrap 32 (R - 1) - 2) = 2 * Z.of_nat n - 2).
    { intros Hne. unfold wrap.
      rewrite (Z.mod_small (R - 1)) by lia. rewrite Z.mod_small; lia. }
    assert (H0 : n = O → static_cast_int (wrap 32 (wrap 32 (R - 1) - 2)) < 0).
    { intros ->. replace R with 1 by lia. by vm_compute. }
    rewrite !(decrypt_loop_rounds bits _ n) by (try done; lia).
    apply dec_rounds_agree. intros j Hj. apply H. lia.
Qed.

Lemma subkeys_read_below_R_witness :
  (1 ≤ 42 < 2 ^ 31
   ∧ agree_below (Z.to_nat 42)
       (schedule_of SIMON64_96 (vector_key SIMON64_96))
       (schedule_of SIMON64_96 (vector_key SIMON64_96) ++ [7; 7]))
  ∧ SIMON_Encrypt 32 42 (1, 2) (schedule_of SIMON64_96 (vector_key SIMON64_96))
    = SIMON_Encrypt 32 42 (1, 2)
        (schedule_of SIMON64_96 (vector_key SIMON64_96) ++ [7; 7])
  ∧ SIMON_Decrypt 32 42 (1, 2) (schedule_of SIMON64_96 (vector_key SIMON64_96))
    = SIMON_Decrypt 32 42 (1, 2)
        (schedule_of SIMON64_96 (vector_key SIMON64_96) ++ [7; 7]).
Proof.
  assert (A : agree_below (Z.to_nat 42)
                (schedule_of SIMON64_96 (vector_key SIMON64_96))
                (schedule_of SIMON64_96 (vector_key SIMON64_96) ++ [7; 7])).
  { intros j Hj. symmetry. apply lookup_total_app_l.
    replace (length (schedule_of SIMON64_96 (vector_key SIMON64_96)))
      with 42%nat by (vm_compute; reflexivity).
    exact Hj. }
  split; [split; [lia|exact A]|].
  apply (subkeys_read_below_R 32 42
           (schedule_of SIMON64_96 (vector_key SIMON64_96))
           (schedule_of SIMON64_96 (vector_key SIMON64_96) ++ [7; 7]) (1, 2));
    [lia|exact A].
Defined.

(** ** Words stay within their type *)

Section WordRange.

Variable bits : Z.

Hypothesis bits_pos : 0 < bits.

Lemma word_ok_wrap (x : Z) : word_ok bits (wrap bits x).
Proof.
  unfold word_ok, wrap. apply Z.mod_pos_bound.
  apply Z.pow_pos_nonneg; lia.
Qed.

Lemma word_ok_log2 (x : Z) : 0 ≤ x → Z.log2 x < bits → word_ok bits x.
Proof.
  intros Hx Hlog. split; [done|].
  destruct (Z.eq_dec x 0) as [->|Hne].
  - apply Z.pow_pos_nonneg; lia.
  - apply Z.log2_lt_pow2; lia.
Qed.

Lemma word_ok_log2_inv (x : Z) : word_ok bits x → Z.log2 x < bits.
Proof.
  intros [Hx Hlt]. destruct (Z.eq_dec x 0) as [->|Hne]; [by simpl|].
  apply Z.log2_lt_pow2; lia.
Qed.

Lemma word_ok_lxor (a b : Z) :
  word_ok bits a → word_ok bits b → word_ok bits (Z.lxor a b).
Proof.
  intros Ha Hb.
  pose proof (word_ok_log2_inv a Ha). pose proof (word_ok_log2_inv b Hb).
  destruct Ha as [Ha _], Hb as [Hb _].
  apply word_ok_log2; [by apply Z.lxor_nonneg|].
  pose proof (Z.log2_lxor a b Ha Hb). lia.
Qed.

Lemma word_ok_land (a b : Z) :
  word_ok bits a → word_ok bits b → word_ok bits (Z.land a b).
Proof.
  intros Ha Hb.
  pose proof (word_ok_log2_inv a Ha). pose proof (word_ok_log2_inv b Hb).
  destruct Ha as [Ha _], Hb as [Hb _].
  apply word_ok_log2; [apply Z.land_nonneg; by left|].
  pose proof (Z.log2_land a b Ha Hb). lia.
Qed.

Lemma word_ok_f (v : Z) : word_ok bits (f bits v).
Proof.
  unfold f, rotlConstant.
  apply word_ok_lxor; [apply word_ok_land|]; apply word_ok_wrap.
Qed.

Lemma block_ok_R2 (p : Z * Z) (k l : Z) :
  block_ok bits p → word_ok bits k → word_ok bits l →
  block_ok bits (R2 bits p k l).
Proof.
  destruct p as [x y]. intros [Hx Hy] Hk Hl. unfold R2, block_ok. simpl in *.
  assert (Hy' : word_ok bits (Z.lxor (Z.lxor y (f bits x)) k)).
  { apply word_ok_lxor; [apply word_ok_lxor|]; auto using word_ok_f. }
  split; [|done].
  apply word_ok_lxor; [apply word_ok_lxor|]; auto using word_ok_f.
Qed.

Lemma word_ok_subkey (k : list Z) (i : Z) :
  Forall (word_ok bits) k → word_ok bits (subkey k i).
Proof.
  intros Hk. unfold subkey.
  destruct (Nat.lt_ge_cases (Z.to_nat i) (length k)) as [Hlt|Hge].
  - by apply Forall_lookup_total_1.
  - rewrite list_lookup_total_alt, lookup_ge_None_2 by done. simpl.
    split; [done|]. change 1 with (2 ^ 0). apply Z.pow_lt_mono_r; lia.
Qed.

Lemma block_ok_encrypt_loop (R : Z) (k : list Z) (fuel : nat) :
  Forall (word_ok bits) k →
  ∀ (i : Z) (c : Z * Z),
    block_ok bits c → block_ok bits (encrypt_loop bits fuel R k i c).
Proof.
  intros Hk. induction fuel as [|fuel IH]; intros i c Hc; [done|].
  cbn [encrypt_loop]. destruct (_ <? _); [|done].
  apply IH, block_ok_R2; auto using word_ok_subkey.
Qed.

Lemma block_ok_decrypt_loop (k : list Z) (fuel : nat) :
  Forall (word_ok bits) k →
  ∀ (i : Z) (p : Z * Z),
    block_ok bits p → block_ok bits (decrypt_loop bits fuel k i p).
Proof.
  intros Hk. induction fuel as [|fuel IH]; intros i p Hp; [done|].
  cbn [decrypt_loop]. destruct (_ <=? _); [|done].
  destruct p as [p0 p1]. destruct Hp as [H0 H1]. simpl in H0, H1.
  pose proof (block_ok_R2 (p1, p0) (subkey k (i + 1)) (subkey k i)
                (conj H1 H0) (word_ok_subkey k _ Hk) (word_ok_subkey k _ Hk))
    as Hq.
  destruct (R2 bits (p1, p0) _ _) as [q1 q0]. destruct Hq as [Hq1 Hq0].
  apply IH. by split.
Qed.

(** The transformations keep the two words of the block within the word
    type, for any round count. *)
Lemma block_ok_transforms (R : Z) (k : list Z) (p : Z * Z) :
  Forall (word_ok bits) k → block_ok bits p →
  block_ok bits (SIMON_Encrypt bits R p k)
  ∧ block_ok bits (SIMON_Decrypt bits R p k).
Proof.
  intros Hk Hp. unfold SIMON_Encrypt, SIMON_Decrypt. split.
  - pose proof (block_ok_encrypt_loop R k (Z.to_nat R) Hk 0 p Hp) as Hc.
    destruct (_ =? _); [done|].
    destruct (encrypt_loop _ _ _ _ _ _) as [c0 c1].
    destruct Hc as [H0 H1]. simpl in H0, H1. split; [|done]. simpl.
    apply word_ok_lxor; [apply word_ok_lxor|];
      auto using word_ok_f, word_ok_subkey.
  - destruct (_ =? _).
    + by apply block_ok_decrypt_loop.
    + destruct p as [p0 p1]. destruct Hp as [H0 H1]. simpl in H0, H1.
      apply block_ok_decrypt_loop; [done|]. split; [done|]. simpl.
      apply word_ok_lxor; [apply word_ok_lxor|];
        auto using word_ok_f, word_ok_subkey.
Qed.

End WordRange.

(** X3: when the two words of the block and all subkeys fit the word type
    of [bits] bits, so do the two words [SIMON_Encrypt] and [SIMON_Decrypt]
    return, for any round count: no step of the transformations leaves the
    word type. *)
Theorem transforms_stay_in_range (bits R : Z) (k : list Z) (p : Z * Z) :
  0 < bits →
  Forall (word_ok bits) k →
  block_ok bits p →
  block_ok bits (SIMON_Encrypt bits R p k)
  ∧ block_ok bits (SIMON_Decrypt bits R p k).
Proof. intros. by apply block_ok_transforms. Qed.

Lemma transforms_stay_in_range_witness :
  (0 < 32
   ∧ Forall (word_ok 32) [0xfffffffc; 0x13121110]
   ∧ block_ok 32 (0x6f722067, 0x6e696c63))
  ∧ block_ok 32 (SIMON_Encrypt 32 2 (0x6f722067, 0x6e696c63)
                   [0xfffffffc; 0x13121110])
  ∧ block_ok 32 (SIMON_Decrypt 32 2 (0x6f722067, 0x6e696c63)
                   [0xfffffffc; 0x13121110]).
Proof.
  assert (K : Forall (word_ok 32) [0xfffffffc; 0x13121110]).
  { repeat constructor; unfold word_ok; lia. }
  assert (B : block_ok 32 (0x6f722067, 0x6e696c63)).
  { split; unfold word_ok; simpl; lia. }
  split; [split; [lia|split; [exact K|exact B]]|].
  apply (transforms_stay_in_range 32 2 [0xfffffffc; 0x13121110]
           (0x6f722067, 0x6e696c63)); [lia|exact K|exact B].
Defined.

(** ** The whole schedule: recurrence, range, bounds *)

Lemma iterate_expand_recurrence (bound : nat) (rhs : Z → list Z → nat → Z)
    (n : nat) :
  reads_below rhs →
  ∀ s s' : expand_state,
    (0 < es_i s)%nat → (es_i s + n ≤ bound)%nat →
    (bound ≤ length (es_key s))%nat →
    iterate (expand_step bound rhs) n s = Some s' →
    ∀ j : nat, (es_i s ≤ j < es_i s + n)%nat →
      es_key s' !!! j
      = rhs (Z.shiftr (es_z s) (Z.of_nat (j - es_i s))) (es_key s') j.
Proof.
  intros Hrhs. induction n as [|n IH]; intros s s' Hpos Hroom Hlen Hit j Hj;
    [lia|].
  cbn [iterate] in Hit. rewrite expand_step_pass in Hit by lia.
  set (s1 := {| es_i := S (es_i s) |}) in Hit.
  destruct (iterate_expand_step bound rhs n s1 ltac:(simpl; lia))
    as (s'' & Hit' & _ & _ & _ & Hframe).
  rewrite Hit in Hit'. injection Hit' as <-.
  destruct (decide (j = es_i s)) as [->|Hne].
  - rewrite Nat.sub_diag, Z.shiftr_0_r.
    rewrite Hframe by (simpl; lia). simpl.
    rewrite list_lookup_total_insert_eq by lia.
    apply Hrhs; [done|]. intros j' Hj'.
    rewrite Hframe by (simpl; lia). simpl.
    by rewrite list_lookup_total_insert_ne by lia.
  - rewrite (IH s1 s') with (j := j); try done; simpl;
      rewrite ?length_insert; try lia.
    rewrite Z.shiftr_shiftr by lia. do 2 f_equal. lia.
Qed.

Lemma zloop_seed_z (v : variant) (key k : list Z) :
  es_z (zloop_seed v key k) = zloop_z v.
Proof. by destruct v. Qed.

(** The assignments after the loops keep a recurrence that holds below
    them. *)
Lemma tail_keeps (v : variant) (rec : list Z → nat → Z) (L : list Z)
    (j : nat) :
  (∀ (K K' : list Z) (i : nat),
     (0 < i)%nat → (∀ j : nat, (j < i)%nat → K !!! j = K' !!! j) →
     rec K i = rec K' i) →
  (0 < j < key_words v + zloop_words v)%nat →
  L !!! j = rec L j →
  match v with
  | SIMON64_96 | SIMON64_128 => True
  | SIMON128_128 =>
      SIMON128_68R2K.tail L !!! j = rec (SIMON128_68R2K.tail L) j
  | SIMON128_192 =>
      SIMON128_69R3K.tail L !!! j = rec (SIMON128_69R3K.tail L) j
  | SIMON128_256 =>
      SIMON128_72R4K.tail L !!! j = rec (SIMON128_72R4K.tail L) j
  end.
Proof.
  intros Hrec Hj HL. destruct v; try done; simpl in Hj.
  - unfold SIMON128_68R2K.tail. cbv zeta.
    unfold SIMON128_68R2K.assign_67. apply (assign_keeps rec Hrec); [lia|].
    unfold SIMON128_68R2K.assign_66. by apply (assign_keeps rec Hrec); [lia|].
  - unfold SIMON128_69R3K.tail. cbv zeta.
    unfold SIMON128_69R3K.assign_68. apply (assign_keeps rec Hrec); [lia|].
    unfold SIMON128_69R3K.assign_67. by apply (assign_keeps rec Hrec); [lia|].
  - unfold SIMON128_72R4K.tail. cbv zeta.
    unfold SIMON128_72R4K.assign_71. apply (assign_keeps rec Hrec); [lia|].
    unfold SIMON128_72R4K.assign_70. apply (assign_keeps rec Hrec); [lia|].
    unfold SIMON128_72R4K.assign_69. apply (assign_keeps rec Hrec); [lia|].
    unfold SIMON128_72R4K.assign_68. by apply (assign_keeps rec Hrec); [lia|].
Qed.

(** X4: in the schedule each routine returns, every entry of the z-driven
    range [m .. m + N) satisfies the routine's recurrence over the returned
    schedule itself, with the bit of [z] that the loop had reached:
    [key[i] = rhs(z >> (i - m), key, i)].  No later pass or tail assignment
    disturbs an entry the recurrence reads. *)
Theorem zloop_recurrence (v : variant) (key k : list Z) (i : nat) :
  Z.of_nat (length key) = rounds_of v →
  (key_words v ≤ i < key_words v + zloop_words v)%nat →
  ExpandKey v key k !!! i
  = zloop_rhs v (Z.shiftr (zloop_z v) (Z.of_nat (i - key_words v)))
      (ExpandKey v key k) i.
Proof.
  intros HL Hi.
  destruct (ExpandKey_unfold v key k) as (s' & Hit & Hlen & _ & ->).
  destruct (zloop_seed_facts v key k) as (Si & Sl & _).
  rewrite zloop_step_eq in Hit.
  assert (Hloop :
    es_key s' !!! i
    = zloop_rhs v (Z.shiftr (zloop_z v) (Z.of_nat (i - key_words v)))
        (es_key s') i).
  { rewrite <- (zloop_seed_z v key k), <- Si.
    apply (iterate_expand_recurrence (zloop_bound v) (zloop_rhs v)
             (zloop_words v) (zloop_rhs_reads_below v) _ s'); try done.
    - rewrite Si. destruct v; simpl; lia.
    - rewrite Si. destruct v; simpl; lia.
    - rewrite Sl. clear Hit. destruct v; simpl in HL |- *; lia.
    - rewrite Si. lia. }
  clear Hit.
  assert (Hpos : (0 < i < key_words v + zloop_words v)%nat)
    by (destruct v; simpl in Hi |- *; lia).
  pose proof (tail_keeps v
                (zloop_rhs v
                   (Z.shiftr (zloop_z v) (Z.of_nat (i - key_words v))))
                (es_key s') i
                (λ K K' i0 H0 HK, zloop_rhs_reads_below v _ K K' i0 H0 HK)
                Hpos Hloop) as Htail.
  by destruct v.
Qed.

Lemma zloop_recurrence_witness :
  (Z.of_nat (length (replicate 68 0)) = rounds_of SIMON128_128
   ∧ (key_words SIMON128_128 ≤ 65
      < key_words SIMON128_128 + zloop_words SIMON128_128)%nat)
  ∧ ExpandKey SIMON128_128 (replicate 68 0) userkey_128_128 !!! 65%nat
    = zloop_rhs SIMON128_128
        (Z.shiftr (zloop_z SIMON128_128)
           (Z.of_nat (65 - key_words SIMON128_128)))
        (ExpandKey SIMON128_128 (replicate 68 0) userkey_128_128) 65.
Proof.
  split; [split; [reflexivity|simpl; lia]|].
  apply (zloop_recurrence SIMON128_128 (replicate 68 0) userkey_128_128 65);
    [reflexivity|simpl; lia].
Defined.

(** All entries below [n] fit the word type. *)
Lemma word_ok_land_1 (bits z : Z) : 0 < bits → word_ok bits (Z.land z 1).
Proof.
  intros Hb. rewrite land_1_parity.
  pose proof (Z.mod_pos_bound z 2 ltac:(lia)).
  split; [lia|]. apply Z.lt_le_trans with (2 ^ 1); [lia|].
  apply Z.pow_le_mono_r; lia.
Qed.

Lemma word_ok_c64 : word_ok 64 0xfffffffffffffffc.
Proof. unfold word_ok. lia. Qed.

Lemma zloop_rhs_ok (v : variant) (z : Z) (K : list Z) (i : nat) :
  (key_words v ≤ i)%nat →
  (∀ j : nat, (j < i)%nat → word_ok (word_bits v) (K !!! j)) →
  word_ok (word_bits v) (zloop_rhs v z K i).
Proof.
  intros Hi HK.
  destruct v; cbn [zloop_rhs word_bits key_words] in *;
    try (apply word_ok_wrap; lia).
  - unfold SIMON128_68R2K.rhs, SIMON128_68R2K.c, rotrConstant.
    repeat apply word_ok_lxor;
      auto using word_ok_c64, word_ok_land_1, word_ok_wrap with lia.
  - unfold SIMON128_69R3K.rhs, SIMON128_69R3K.c, rotrConstant.
    repeat apply word_ok_lxor;
      auto using word_ok_c64, word_ok_land_1, word_ok_wrap with lia.
  - unfold SIMON128_72R4K.rhs, SIMON128_72R4K.c, rotrConstant.
    repeat apply word_ok_lxor;
      auto using word_ok_c64, word_ok_land_1, word_ok_wrap with lia.
Qed.

Lemma assign_ok (v : variant) (z : Z) (K : list Z) (i : nat) :
  (key_words v ≤ i < length K)%nat →
  (∀ j : nat, (j < i)%nat → word_ok (word_bits v) (K !!! j)) →
  ∀ j : nat, (j < S i)%nat →
    word_ok (word_bits v) (<[i := zloop_rhs v z K i]> K !!! j).
Proof.
  intros Hi HK j Hj. destruct (decide (j = i)) as [->|Hne].
  - rewrite list_lookup_total_insert_eq by lia. apply zloop_rhs_ok; [lia|done].
  - rewrite list_lookup_total_insert_ne by done. apply HK. lia.
Qed.

Lemma iterate_expand_ok (v : variant) (n : nat) :
  ∀ s s' : expand_state,
    (key_words v ≤ es_i s)%nat → (es_i s + n ≤ zloop_bound v)%nat →
    (zloop_bound v ≤ length (es_key s))%nat →
    (∀ j : nat, (j < es_i s)%nat → word_ok (word_bits v) (es_key s !!! j)) →
    iterate (expand_step (zloop_bound v) (zloop_rhs v)) n s = Some s' →
    ∀ j : nat, (j < es_i s + n)%nat → word_ok (word_bits v) (es_key s' !!! j).
Proof.
  induction n as [|n IH]; intros s s' Hlo Hroom Hlen Hok Hit j Hj.
  - simpl in Hit. injection Hit as <-. apply Hok. lia.
  - cbn [iterate] in Hit. rewrite expand_step_pass in Hit by lia.
    eapply (IH _ s'); [..|exact Hit|]; simpl; rewrite ?length_insert;
      try lia.
    intros j' Hj'. apply assign_ok; [lia|done|lia].
Qed.

Lemma tail_ok (v : variant) (L : list Z) :
  Z.of_nat (length L) = rounds_of v →
  (∀ j : nat, (j < key_words v + zloop_words v)%nat →
              word_ok (word_bits v) (L !!! j)) →
  ∀ j : nat, (j < Z.to_nat (rounds_of v))%nat →
    word_ok (word_bits v)
      (match v with
       | SIMON64_96 | SIMON64_128 => L
       | SIMON128_128 => SIMON128_68R2K.tail L
       | SIMON128_192 => SIMON128_69R3K.tail L
       | SIMON128_256 => SIMON128_72R4K.tail L
       end !!! j).
Proof.
  intros HL Hok.
  destruct v; simpl in HL, Hok |- *; try (intros j Hj; apply Hok; lia).
  - unfold SIMON128_68R2K.tail. cbv zeta.
    rewrite (proj2 (assign_rhs_68R2K _)), (proj1 (assign_rhs_68R2K _)).
    apply (assign_ok SIMON128_128); [rewrite length_insert; simpl; lia|].
    apply (assign_ok SIMON128_128); [simpl; lia|done].
  - unfold SIMON128_69R3K.tail. cbv zeta.
    rewrite (proj2 (assign_rhs_69R3K _)), (proj1 (assign_rhs_69R3K _)).
    apply (assign_ok SIMON128_192); [rewrite length_insert; simpl; lia|].
    apply (assign_ok SIMON128_192); [simpl; lia|done].
  - unfold SIMON128_72R4K.tail. cbv zeta.
    destruct (assign_rhs_72R4K L) as (-> & _).
    set (K1 := <[68%nat := _]> L).
    assert (O1 : ∀ j : nat, (j < 69)%nat → word_ok 64 (K1 !!! j))
      by (apply (assign_ok SIMON128_256); [simpl; lia|done]).
    assert (L1 : length K1 = 72%nat)
      by (subst K1; rewrite length_insert; lia).
    clearbody K1.
    destruct (assign_rhs_72R4K K1) as (_ & -> & _).
    set (K2 := <[69%nat := _]> K1).
    assert (O2 : ∀ j : nat, (j < 70)%nat → word_ok 64 (K2 !!! j))
      by (apply (assign_ok SIMON128_256); [simpl; lia|done]).
    assert (L2 : length K2 = 72%nat)
      by (subst K2; rewrite length_insert; lia).
    clearbody K2.
    destruct (assign_rhs_72R4K K2) as (_ & _ & -> & _).
    set (K3 := <[70%nat := _]> K2).
    assert (O3 : ∀ j : nat, (j < 71)%nat → word_ok 64 (K3 !!! j))
      by (apply (assign_ok SIMON128_256); [simpl; lia|done]).
    assert (L3 : length K3 = 72%nat)
      by (subst K3; rewrite length_insert; lia).
    clearbody K3.
    destruct (assign_rhs_72R4K K3) as (_ & _ & _ & ->).
    apply (assign_ok SIMON128_256); [simpl; lia|done].
Qed.

(** The first [m] entries of a schedule are the user-key words reversed. *)
Lemma ExpandKey_seed_entry (v : variant) (key k : list Z) (i : nat) :
  Z.of_nat (length key) = rounds_of v →
  (i < key_words v)%nat →
  ExpandKey v key k !!! i = k !!! (key_words v - 1 - i)%nat.
Proof.
  intros HL Hi. rewrite ExpandKey_seeded by done.
  destruct v; simpl in *;
    repeat (destruct i as [|i]; [by array_simpl|]); lia.
Qed.

Lemma zloop_seed_entry (v : variant) (key k : list Z) (i : nat) :
  Z.of_nat (length key) = rounds_of v →
  (i < key_words v)%nat →
  es_key (zloop_seed v key k) !!! i = k !!! (key_words v - 1 - i)%nat.
Proof.
  intros HL Hi.
  destruct v; simpl in *;
    repeat (destruct i as [|i]; [by array_simpl|]); lia.
Qed.

(** Every round key fits the word type when the user-key words do. *)
Lemma ExpandKey_in_range (v : variant) (key k : list Z) :
  Z.of_nat (length key) = rounds_of v →
  (∀ j : nat, (j < key_words v)%nat → word_ok (word_bits v) (k !!! j)) →
  Forall (word_ok (word_bits v)) (ExpandKey v key k).
Proof.
  intros HL Hk. apply (proj2 (Forall_lookup_total _ _)). intros j Hj.
  rewrite ExpandKey_length in Hj.
  destruct (ExpandKey_unfold v key k) as (s' & Hit & Hlen & _ & ->).
  destruct (zloop_seed_facts v key k) as (Si & Sl & _).
  rewrite zloop_step_eq in Hit.
  apply tail_ok; [lia| |lia].
  intros j' Hj'. rewrite <- Si in Hj'.
  apply (iterate_expand_ok v (zloop_words v) (zloop_seed v key k) s');
    try done.
  - rewrite Si. lia.
  - rewrite Si. destruct v; simpl; lia.
  - rewrite Sl. clear Hit. destruct v; simpl in HL |- *; lia.
  - rewrite Si. intros i Hi. rewrite zloop_seed_entry by done.
    apply Hk. lia.
Qed.

(** X5: when the [m] user-key words fit the word type, so does every one of
    the [R] round keys the routine produces (for the SIMON-64 routines by the
    truncation of the 64-bit right-hand side on assignment, for the SIMON-128
    routines because no operand leaves 64 bits). *)
Theorem schedule_in_range (v : variant) (key k : list Z) :
  Z.of_nat (length key) = rounds_of v →
  (∀ j : nat, (j < key_words v)%nat → word_ok (word_bits v) (k !!! j)) →
  Forall (word_ok (word_bits v)) (ExpandKey v key k).
Proof. apply ExpandKey_in_range. Qed.

Lemma schedule_in_range_witness :
  (Z.of_nat (length (replicate 72 0)) = rounds_of SIMON128_256
   ∧ ∀ j : nat, (j < key_words SIMON128_256)%nat →
                word_ok (word_bits SIMON128_256) (userkey_128_256 !!! j))
  ∧ Forall (word_ok (word_bits SIMON128_256))
      (ExpandKey SIMON128_256 (replicate 72 0) userkey_128_256).
Proof.
  assert (K : ∀ j : nat, (j < key_words SIMON128_256)%nat →
                word_ok (word_bits SIMON128_256) (userkey_128_256 !!! j)).
  { intros j Hj. simpl in Hj.
    do 4 (destruct j as [|j]; [unfold word_ok; simpl; lia|]). lia. }
  split; [split; [reflexivity|exact K]|].
  apply (schedule_in_range SIMON128_256 (replicate 72 0) userkey_128_256);
    [reflexivity|exact K].
Defined.

(** X6: a routine writes the entries [0 .. R) of the array it is given and
    nothing else: the array keeps its size, and every entry at index [R] or
    beyond is as it was. *)
Theorem schedule_written_below_R (v : variant) (key k : list Z) (j : nat) :
  (Z.to_nat (rounds_of v) ≤ j)%nat →
  length (ExpandKey v key k) = length key
  ∧ ExpandKey v key k !!! j = key !!! j.
Proof.
  intros Hj. split; [apply ExpandKey_length|].
  destruct (ExpandKey_unfold v key k) as (s' & _ & _ & Hframe & ->).
  assert (Hs : es_key s' !!! j = key !!! j).
  { rewrite Hframe by (right; destruct v; simpl in Hj |- *; lia).
    destruct v; simpl in Hj |- *; by array_simpl. }
  destruct v; simpl in Hj; try done;
    [unfold SIMON128_68R2K.tail, SIMON128_68R2K.assign_66,
       SIMON128_68R2K.assign_67
    |unfold SIMON128_69R3K.tail, SIMON128_69R3K.assign_67,
       SIMON128_69R3K.assign_68
    |unfold SIMON128_72R4K.tail, SIMON128_72R4K.assign_68,
       SIMON128_72R4K.assign_69, SIMON128_72R4K.assign_70,
       SIMON128_72R4K.assign_71]; cbv zeta; by array_simpl.
Qed.

Lemma schedule_written_below_R_witness :
  (Z.to_nat (rounds_of SIMON64_96) ≤ 43)%nat
  ∧ length (ExpandKey SIMON64_96 (replicate 42 0 ++ [5; 6; 7]) userkey_64_96)
    = length (replicate 42 0 ++ [5; 6; 7])
  ∧ ExpandKey SIMON64_96 (replicate 42 0 ++ [5; 6; 7]) userkey_64_96 !!! 43%nat
    = (replicate 42 0 ++ [5; 6; 7]) !!! 43%nat.
Proof.
  split; [simpl; lia|].
  apply (schedule_written_below_R SIMON64_96 (replicate 42 0 ++ [5; 6; 7])
           userkey_64_96 43).
  simpl; lia.
Defined.

(** X7: two user keys give the same schedule exactly when they have the
    same [m] words: the schedule ignores what lies beyond the [m] words and
    what the arrays held, and no two different keys share a schedule. *)
Theorem schedule_injective (v : variant) (key key' k k' : list Z) :
  Z.of_nat (length key) = rounds_of v →
  Z.of_nat (length key') = rounds_of v →
  ExpandKey v key k = ExpandKey v key' k' ↔ agree_below (key_words v) k k'.
Proof.
  intros HL HL'. split.
  - intros E j Hj.
    pose proof (ExpandKey_seed_entry v key k (key_words v - 1 - j) HL
                  ltac:(lia)) as H1.
    pose proof (ExpandKey_seed_entry v key' k' (key_words v - 1 - j) HL'
                  ltac:(lia)) as H2.
    rewrite E, H2 in H1.
    replace (key_words v - 1 - (key_words v - 1 - j))%nat with j in H1 by lia.
    done.
  - by apply ExpandKey_pure.
Qed.

Lemma schedule_injective_witness :
  (Z.of_nat (length (replicate 42 0)) = rounds_of SIMON64_96
   ∧ Z.of_nat (length (replicate 42 1)) = rounds_of SIMON64_96)
  ∧ (ExpandKey SIMON64_96 (replicate 42 0) userkey_64_96
     = ExpandKey SIMON64_96 (replicate 42 1) (userkey_64_96 ++ [9])
     ↔ agree_below (key_words SIMON64_96) userkey_64_96
         (userkey_64_96 ++ [9])).
Proof.
  split; [split; reflexivity|].
  apply (schedule_injective SIMON64_96 (replicate 42 0) (replicate 42 1)
           userkey_64_96 (userkey_64_96 ++ [9])); reflexivity.
Defined.

(** ** Big-endian bytes and words *)

Lemma byte_to_Z_range (b : byte) : 0 ≤ byte_to_Z b < 256.
Proof.
  unfold byte_to_Z. pose proof (Byte.to_N_bounded b). lia.
Qed.

Lemma byte_of_to_Z (b : byte) : byte_of_Z (byte_to_Z b) = b.
Proof.
  unfold byte_of_Z. pose proof (byte_to_Z_range b).
  rewrite Z.mod_small by done. unfold byte_to_Z.
  by rewrite N2Z.id, Byte.of_to_N.
Qed.

Lemma byte_to_of_Z (z : Z) : byte_to_Z (byte_of_Z z) = z mod 256.
Proof.
  unfold byte_of_Z, byte_to_Z.
  pose proof (Z.mod_pos_bound z 256 ltac:(lia)) as Hz.
  destruct (Byte.of_N (Z.to_N (z mod 256))) as [b|] eqn:E.
  - simpl. apply Byte.to_of_N in E. rewrite E. lia.
  - apply Byte.of_N_None_iff in E. lia.
Qed.

Lemma be_decode_acc (bs : list byte) :
  ∀ acc : Z,
    foldl (λ acc b, acc * 256 + byte_to_Z b) acc bs
    = acc * 2 ^ (8 * Z.of_nat (length bs)) + be_decode bs.
Proof.
  unfold be_decode. induction bs as [|b bs IH]; intros acc.
  - simpl. lia.
  - cbn [foldl length]. rewrite IH, (IH (0 * 256 + byte_to_Z b)).
    replace (8 * Z.of_nat (S (length bs)))
      with (8 + 8 * Z.of_nat (length bs)) by lia.
    rewrite Z.pow_add_r by lia. lia.
Qed.

Lemma be_decode_cons (b : byte) (bs : list byte) :
  be_decode (b :: bs)
  = byte_to_Z b * 2 ^ (8 * Z.of_nat (length bs)) + be_decode bs.
Proof.
  unfold be_decode at 1. cbn [foldl]. by rewrite be_decode_acc.
Qed.

(** A decoded word fits the bytes it was decoded from. *)
Lemma be_decode_range (bs : list byte) :
  0 ≤ be_decode bs < 2 ^ (8 * Z.of_nat (length bs)).
Proof.
  induction bs as [|b bs IH]; [by vm_compute|].
  rewrite be_decode_cons. pose proof (byte_to_Z_range b).
  replace (8 * Z.of_nat (length (b :: bs)))
    with (8 + 8 * Z.of_nat (length bs)) by (cbn [length]; lia).
  rewrite Z.pow_add_r by lia.
  assert (0 < 2 ^ (8 * Z.of_nat (length bs))) by (apply Z.pow_pos_nonneg; lia).
  nia.
Qed.

Lemma be_decode_inj (bs bs' : list byte) :
  length bs = length bs' → be_decode bs = be_decode bs' → bs = bs'.
Proof.
  revert bs'. induction bs as [|b bs IH]; intros [|b' bs'] Hlen Hdec;
    try done.
  injection Hlen as Hlen. rewrite !be_decode_cons, <- Hlen in Hdec.
  pose proof (be_decode_range bs). pose proof (be_decode_range bs') as Hr'.
  rewrite <- Hlen in Hr'.
  assert (0 < 2 ^ (8 * Z.of_nat (length bs))) by (apply Z.pow_pos_nonneg; lia).
  assert (Hb : byte_to_Z b = byte_to_Z b') by nia.
  f_equal.
  - by rewrite <- (byte_of_to_Z b), Hb, byte_of_to_Z.
  - apply IH; [done|]. rewrite Hb in Hdec. lia.
Qed.

Lemma be_encode_S (n : nat) (w : Z) :
  be_encode (S n) w
  = byte_of_Z (Z.shiftr w (8 * Z.of_nat n)) :: be_encode n w.
Proof.
  unfold be_encode. cbn [seq map]. f_equal.
  - do 3 f_equal. lia.
  - rewrite <- seq_shift, map_map. apply map_ext. intros j.
    do 3 f_equal. lia.
Qed.

Lemma be_decode_encode (n : nat) (w : Z) :
  be_decode (be_encode n w) = w mod 2 ^ (8 * Z.of_nat n).
Proof.
  induction n as [|n IH].
  - simpl. by rewrite Z.mod_1_r.
  - rewrite be_encode_S, be_decode_cons, be_encode_length, IH, byte_to_of_Z.
    rewrite Z.shiftr_div_pow2 by lia.
    replace (8 * Z.of_nat (S n)) with (8 * Z.of_nat n + 8) by lia.
    rewrite Z.pow_add_r by lia.
    assert (0 < 2 ^ (8 * Z.of_nat n)) by (apply Z.pow_pos_nonneg; lia).
    rewrite Z.rem_mul_r by lia. change (2 ^ 8) with 256. lia.
Qed.

(** Encoding the decoded bytes gives the bytes back. *)
Lemma be_encode_decode (bs : list byte) :
  be_encode (length bs) (be_decode bs) = bs.
Proof.
  apply be_decode_inj; [apply be_encode_length|].
  rewrite be_decode_encode. apply Z.mod_small, be_decode_range.
Qed.

Lemma word_bytes_bits (op : block_op) :
  8 * Z.of_nat (word_bytes (op_bits op)) = op_bits op.
Proof. by destruct op. Qed.

Lemma GetWord_ok (op : block_op) (mem : memory) (a : Z) :
  word_ok (op_bits op) (GetWord (op_bits op) mem a).
Proof.
  unfold GetWord, word_ok.
  pose proof (be_decode_range (load_bytes mem a (word_bytes (op_bits op)))) as H.
  by rewrite load_bytes_length, word_bytes_bits in H.
Qed.

(** A word that fits the word type survives being written and read back. *)
Lemma be_decode_encode_ok (op : block_op) (w : Z) :
  word_ok (op_bits op) w →
  be_decode (be_encode (word_bytes (op_bits op)) w) = w.
Proof.
  intros Hw. rewrite be_decode_encode, word_bytes_bits.
  by apply Z.mod_small.
Qed.

(** ** What a block operation reads, computes and writes *)

Lemma configured_cipher (op : block_op) (inst : SIMON_Base) :
  configured (op_class op) inst = true →
  op_transform op (m_rounds inst) = Some (op_cipher op (m_rounds inst))
  ∧ length (m_wspace inst) = 4%nat
  ∧ 1 ≤ m_rounds inst < 2 ^ 31.
Proof.
  unfold configured. intros H.
  apply andb_prop in H as [H Hr]. apply andb_prop in H as [Hw _].
  apply Nat.eqb_eq in Hw. split; [|split; [done|]];
    destruct op; cbn [op_class] in Hr;
    repeat (apply orb_prop in Hr as [Hr|Hr]);
    apply Z.eqb_eq in Hr; rewrite Hr; by cbn.
Qed.

(** A block operation with a null [xorBlock] on a state whose round count
    the [switch] knows. *)
Lemma block_op_result (debug : bool) (op : block_op) (inst : SIMON_Base)
    (mem : memory) (inBlock outBlock : Z) (t : Z * Z → list Z → Z * Z) :
  length (m_wspace inst) = 4%nat →
  op_transform op (m_rounds inst) = Some t →
  ∃ inst' mem',
    ProcessAndXorBlock debug op inst mem inBlock None outBlock
    = Ok (inst', mem')
    ∧ load_bytes mem' outBlock (block_bytes op)
      = be_encode (word_bytes (op_bits op))
          (t (GetWord (op_bits op) mem inBlock,
              GetWord (op_bits op) mem
                (inBlock + Z.of_nat (word_bytes (op_bits op))))
             (m_rkeys inst)).1
        ++ be_encode (word_bytes (op_bits op))
             (t (GetWord (op_bits op) mem inBlock,
                 GetWord (op_bits op) mem
                   (inBlock + Z.of_nat (word_bytes (op_bits op))))
                (m_rkeys inst)).2
    ∧ m_rkeys inst' = m_rkeys inst
    ∧ m_rounds inst' = m_rounds inst
    ∧ length (m_wspace inst') = 4%nat.
Proof.
  intros Hw Ht.
  pose proof (ProcessAndXorBlock_known debug op inst mem inBlock None outBlock
                t Ht) as E.
  destruct (loaded_then_transformed (op_bits op) t inst mem inBlock Hw)
    as (W2 & W3 & W4). cbv zeta in W2, W3, W4.
  set (I := on_wspace t _) in *.
  pose proof (store_block_output (op_bits op) None outBlock I mem
                ltac:(exact Logic.I)) as O.
  destruct (store_block _ _ _ _) as [inst' mem'] eqn:ES.
  exists inst', mem'. split; [done|].
  destruct (ProcessAndXorBlock_keeps _ _ _ _ _ _ _ _ _ E) as (Hk & Hr & _).
  unfold store_block in ES. cbv zeta in ES. injection ES as <- _.
  cbn [snd] in O. unfold block_bytes. rewrite O. cbn [word_out fmap option_fmap option_map].
  by rewrite W2, W3.
Qed.

(** X8: on a configured instance a block operation with a null [xorBlock]
    never fails and writes, as two big-endian words, the block that the
    template of its direction with [R = m_rounds] computes from the two
    big-endian words of the input block and the stored round keys. *)
Theorem block_operation_output (debug : bool) (op : block_op)
    (inst : SIMON_Base) (mem : memory) (inBlock outBlock : Z) :
  configured (op_class op) inst = true →
  ∃ inst' mem',
    ProcessAndXorBlock debug op inst mem inBlock None outBlock
    = Ok (inst', mem')
    ∧ load_bytes mem' outBlock (block_bytes op)
      = be_encode (word_bytes (op_bits op))
          (op_cipher op (m_rounds inst)
             (GetWord (op_bits op) mem inBlock,
              GetWord (op_bits op) mem
                (inBlock + Z.of_nat (word_bytes (op_bits op))))
             (m_rkeys inst)).1
        ++ be_encode (word_bytes (op_bits op))
             (op_cipher op (m_rounds inst)
                (GetWord (op_bits op) mem inBlock,
                 GetWord (op_bits op) mem
                   (inBlock + Z.of_nat (word_bytes (op_bits op))))
                (m_rkeys inst)).2.
Proof.
  intros Hc. destruct (configured_cipher op inst Hc) as (Ht & Hw & _).
  destruct (block_op_result debug op inst mem inBlock outBlock _ Hw Ht)
    as (inst' & mem' & E & O & _).
  by exists inst', mem'.
Qed.

Lemma block_operation_output_witness :
  configured (op_class SIMON64_Dec) race_instance = true
  ∧ ∃ inst' mem',
      ProcessAndXorBlock true SIMON64_Dec race_instance race_memory 0 None 16
      = Ok (inst', mem')
      ∧ load_bytes mem' 16 (block_bytes SIMON64_Dec)
        = be_encode (word_bytes (op_bits SIMON64_Dec))
            (op_cipher SIMON64_Dec (m_rounds race_instance)
               (GetWord (op_bits SIMON64_Dec) race_memory 0,
                GetWord (op_bits SIMON64_Dec) race_memory
                  (0 + Z.of_nat (word_bytes (op_bits SIMON64_Dec))))
               (m_rkeys race_instance)).1
          ++ be_encode (word_bytes (op_bits SIMON64_Dec))
               (op_cipher SIMON64_Dec (m_rounds race_instance)
                  (GetWord (op_bits SIMON64_Dec) race_memory 0,
                   GetWord (op_bits SIMON64_Dec) race_memory
                     (0 + Z.of_nat (word_bytes (op_bits SIMON64_Dec))))
                  (m_rkeys race_instance)).2.
Proof.
  split; [vm_compute; reflexivity|].
  apply (block_operation_output true SIMON64_Dec race_instance race_memory
           0 16).
  vm_compute; reflexivity.
Defined.

Lemma store_block_frame (bits : Z) (xorBlock : option Z) (outBlock : Z)
    (st : SIMON_Base * memory) (a : Z) :
  a < outBlock ∨ outBlock + Z.of_nat (2 * word_bytes bits) ≤ a →
  (store_block bits xorBlock outBlock st).2 a = st.2 a.
Proof.
  intros Ha. destruct st as [inst mem]. unfold store_block. cbv zeta.
  cbn [snd]. rewrite !PutWord_eq. unfold store_bytes.
  rewrite !word_out_length.
  destruct (Z.leb_spec (outBlock + Z.of_nat (word_bytes bits)) a),
    (Z.ltb_spec a (outBlock + Z.of_nat (word_bytes bits)
                   + Z.of_nat (word_bytes bits)));
    destruct (Z.leb_spec outBlock a),
      (Z.ltb_spec a (outBlock + Z.of_nat (word_bytes bits)));
    simpl; try done; lia.
Qed.

(** The memory a block operation returns is the memory it was given with
    the two output words stored. *)
Lemma ProcessAndXorBlock_memory (debug : bool) (op : block_op)
    (inst inst' : SIMON_Base) (mem mem' : memory) (inBlock : Z)
    (xorBlock : option Z) (outBlock : Z) :
  ProcessAndXorBlock debug op inst mem inBlock xorBlock outBlock
  = Ok (inst', mem') →
  ∃ I : SIMON_Base,
    mem' = (store_block (op_bits op) xorBlock outBlock (I, mem)).2.
Proof.
  destruct (op_transform op (m_rounds inst)) as [t|] eqn:Ht.
  - rewrite (ProcessAndXorBlock_known _ _ _ _ _ _ _ t Ht).
    intros [= _ <-].
    by exists (on_wspace t (load_block (op_bits op) inBlock (inst, mem)).1).
  - unfold ProcessAndXorBlock. cbv zeta. cbn [run_phase c_op c_in].
    unfold load_block at 1. cbv zeta.
    change (Ok ?x ≫= ?k) with (k x). cbv beta.
    rewrite op_switch_eq. cbn [set_wspace m_rounds]. rewrite Ht.
    destruct debug; [done|].
    change (CRYPTOPP_ASSERT false false) with (Ok tt).
    change (Ok ?x ≫= ?k) with (k x). cbv beta.
    change (Ok ?x ≫= ?k) with (k x). cbv beta.
    cbn [run_phase c_op c_xor c_out].
    intros [= _ <-].
    by exists (load_block (op_bits op) inBlock (inst, mem)).1.
Qed.

(** ** Encrypting and decrypting through memory *)

Lemma inverse_op_facts (op : block_op) :
  op_bits (inverse_op op) = op_bits op
  ∧ op_class (inverse_op op) = op_class op
  ∧ block_bytes (inverse_op op) = block_bytes op.
Proof. by destruct op. Qed.

(** The two directions of a class undo each other on blocks. *)
Lemma op_cipher_inverse (op : block_op) (R : Z) (k : list Z) (p : Z * Z) :
  1 ≤ R < 2 ^ 31 →
  op_cipher (inverse_op op) R (op_cipher op R p k) k = p.
Proof.
  intros HR. destruct op; cbn [op_cipher inverse_op op_bits];
    first [by apply SIMON_Decrypt_Encrypt | by apply SIMON_Encrypt_Decrypt].
Qed.

Lemma op_cipher_ok (op : block_op) (R : Z) (k : list Z) (p : Z * Z) :
  Forall (word_ok (op_bits op)) k → block_ok (op_bits op) p →
  block_ok (op_bits op) (op_cipher op R p k).
Proof.
  intros Hk Hp.
  assert (Hb : 0 < op_bits op) by by destruct op.
  destruct (block_ok_transforms (op_bits op) Hb R k p Hk Hp) as [He Hd].
  by destruct op.
Qed.

(** A block operation followed by the operation of the other direction, on
    a configured instance whose round keys fit the word type. *)
Lemma round_trip_configured (debug : bool) (op : block_op)
    (inst : SIMON_Base) (mem : memory) (inBlock midBlock outBlock : Z) :
  configured (op_class op) inst = true →
  Forall (word_ok (op_bits op)) (m_rkeys inst) →
  ∃ inst1 mem1 inst2 mem2,
    ProcessAndXorBlock debug op inst mem inBlock None midBlock
    = Ok (inst1, mem1)
    ∧ ProcessAndXorBlock debug (inverse_op op) inst1 mem1 midBlock None
        outBlock = Ok (inst2, mem2)
    ∧ load_bytes mem2 outBlock (block_bytes op)
      = load_bytes mem inBlock (block_bytes op).
Proof.
  intros Hc Hk.
  destruct (configured_cipher op inst Hc) as (Ht & Hw & HR).
  destruct (inverse_op_facts op) as (Hbits & Hcls & Hbytes).
  destruct (block_op_result debug op inst mem inBlock midBlock _ Hw Ht)
    as (inst1 & mem1 & E1 & O1 & K1 & R1 & W1).
  assert (Ht' : op_transform (inverse_op op) (m_rounds inst1)
                = Some (op_cipher (inverse_op op) (m_rounds inst))).
  { rewrite R1. rewrite <- Hcls in Hc.
    destruct op; cbn [op_class inverse_op] in *;
      unfold configured in Hc; apply andb_prop in Hc as [_ Hr];
      repeat (apply orb_prop in Hr as [Hr|Hr]);
      apply Z.eqb_eq in Hr; rewrite Hr; by cbn. }
  destruct (block_op_result debug (inverse_op op) inst1 mem1 midBlock outBlock
              _ W1 Ht') as (inst2 & mem2 & E2 & O2 & _).
  exists inst1, mem1, inst2, mem2. split; [done|]. split; [done|].
  rewrite Hbytes, Hbits, K1 in O2. rewrite O2. clear O2 E1 E2 Ht'.
  set (n := word_bytes (op_bits op)) in *.
  set (w := (GetWord (op_bits op) mem inBlock,
             GetWord (op_bits op) mem (inBlock + Z.of_nat n))) in *.
  set (c := op_cipher op (m_rounds inst) w (m_rkeys inst)) in *.
  assert (Hwok : block_ok (op_bits op) w) by (split; apply GetWord_ok).
  pose proof (op_cipher_ok op (m_rounds inst) (m_rkeys inst) w Hk Hwok)
    as [Hc1 Hc2]. fold c in Hc1, Hc2.
  unfold block_bytes in O1 |- *. fold n in O1 |- *.
  replace (2 * n)%nat with (n + n)%nat in O1 |- * by lia.
  rewrite load_bytes_app in O1.
  apply app_inj_1 in O1 as [O1a O1b];
    [|by rewrite load_bytes_length, be_encode_length].
  assert (G1 : GetWord (op_bits op) mem1 midBlock = c.1).
  { unfold GetWord. fold n. rewrite O1a. by apply be_decode_encode_ok. }
  assert (G2 : GetWord (op_bits op) mem1 (midBlock + Z.of_nat n) = c.2).
  { unfold GetWord. fold n. rewrite O1b. by apply be_decode_encode_ok. }
  rewrite G1, G2, <- surjective_pairing. subst c.
  rewrite op_cipher_inverse by done. subst w. cbn [fst snd].
  rewrite load_bytes_app. unfold GetWord. fold n.
  f_equal.
  - rewrite <- (load_bytes_length mem n inBlock) at 1.
    apply be_encode_decode.
  - rewrite <- (load_bytes_length mem n (inBlock + Z.of_nat n)) at 1.
    apply be_encode_decode.
Qed.

Lemma variant_of_bits (cls : cipher_class) (n : Z) (v : variant)
    (op : block_op) :
  variant_of cls n = Some v → op_class op = cls →
  op_bits op = word_bits v ∧ 8 * Z.of_nat (word_bytes (word_bits v)) = word_bits v.
Proof.
  intros Hv <-.
  destruct op, n as [|p|p]; try done;
    do 6 (try destruct p as [p|p|]; try done);
    cbn in Hv; by injection Hv as <-.
Qed.

(** The decoded user-key words fit the word type. *)
Lemma key_word_ok (v : variant) (outlen : nat) (userKey : list byte)
    (j : nat) :
  word_ok (word_bits v) (key_word (word_bits v) outlen userKey j).
Proof.
  unfold key_word, word_ok. cbv zeta.
  set (bs := take _ (drop _ _)).
  pose proof (be_decode_range bs) as [H0 H1]. split; [done|].
  eapply Z.lt_le_trans; [exact H1|].
  assert (Hlen : (length bs ≤ word_bytes (word_bits v))%nat)
    by (subst bs; rewrite length_take; lia).
  assert (Hb : 8 * Z.of_nat (word_bytes (word_bits v)) = word_bits v)
    by by destruct v.
  rewrite <- Hb. apply Z.pow_le_mono_r; lia.
Qed.

(** X10: after key setup with an accepted key, a block operation of either
    direction into a buffer, followed by the operation of the other
    direction from that buffer, returns the bytes of the first input block:
    decryption undoes encryption, and encryption undoes decryption, at the
    level of the byte buffers (wherever the three buffers lie, in place
    included). *)
Theorem keyed_round_trip (cls : cipher_class) (debug debug' : bool)
    (alloc : SecBlock_allocator) (inst0 inst : SIMON_Base)
    (userKey : list byte) (op : block_op) (mem : memory)
    (inBlock midBlock outBlock : Z) :
  SetKey cls debug alloc inst0 userKey = Ok inst →
  op_class op = cls →
  ∃ inst1 mem1 inst2 mem2,
    ProcessAndXorBlock debug' op inst mem inBlock None midBlock
    = Ok (inst1, mem1)
    ∧ ProcessAndXorBlock debug' (inverse_op op) inst1 mem1 midBlock None
        outBlock = Ok (inst2, mem2)
    ∧ load_bytes mem2 outBlock (block_bytes op)
      = load_bytes mem inBlock (block_bytes op).
Proof.
  unfold SetKey. intros HSet Hcls.
  destruct (valid_key_length cls _) eqn:Hvalid; [|done].
  apply valid_key_length_accepted, accepted_variant in Hvalid as [v Hv].
  rewrite (UncheckedSetKey_accepted _ _ _ _ _ v Hv) in HSet. cbv zeta in HSet.
  injection HSet as <-.
  destruct (variant_of_bits cls _ v op Hv Hcls) as [Hbits Hbytes].
  apply round_trip_configured.
  - rewrite Hcls. by apply setup_configured.
  - cbn [m_rkeys]. rewrite Hbits. apply ExpandKey_in_range.
    + by rewrite New_size, rounds_of_nat.
    + intros j Hj. rewrite GetUserKey_lookup; [apply key_word_ok| |done].
      rewrite New_size. destruct v; simpl; lia.
Qed.

Lemma keyed_round_trip_witness :
  (SetKey SIMON64 true zero_allocator blank_instance (vector_key SIMON64_128)
   = Ok race_instance
   ∧ op_class SIMON64_Dec = SIMON64)
  ∧ ∃ inst1 mem1 inst2 mem2,
      ProcessAndXorBlock false SIMON64_Dec race_instance race_memory 0 None 8
      = Ok (inst1, mem1)
      ∧ ProcessAndXorBlock false (inverse_op SIMON64_Dec) inst1 mem1 8 None 0
        = Ok (inst2, mem2)
      ∧ load_bytes mem2 0 (block_bytes SIMON64_Dec)
        = load_bytes race_memory 0 (block_bytes SIMON64_Dec).
Proof.
  split; [split; [vm_compute; reflexivity|reflexivity]|].
  apply (keyed_round_trip SIMON64 true false zero_allocator blank_instance
           race_instance (vector_key SIMON64_128) SIMON64_Dec race_memory
           0 8 0); [vm_compute; reflexivity|reflexivity].
Defined.

(** ** Assertions of key setup, and what stays in the workspace *)

Lemma CRYPTOPP_ASSERT_false : CRYPTOPP_ASSERT true false = Err AssertionFailure.
Proof. reflexivity. Qed.

(** X11: in a debug build [UncheckedSetKey] ends in a failed assertion
    exactly when the key length is outside the accepted set of its class:
    the assertion on entry matches the key sizes the [switch] handles, so
    that the [CRYPTOPP_ASSERT(0)] of the default branch is never reached
    once the first assertion has passed. *)
Theorem unchecked_setkey_asserts (cls : cipher_class)
    (alloc : SecBlock_allocator) (inst : SIMON_Base) (userKey : list byte) :
  UncheckedSetKey cls true alloc inst userKey = Err AssertionFailure
  ↔ ¬ accepted_length cls (Z.of_nat (length userKey)).
Proof.
  rewrite <- valid_key_length_accepted.
  destruct (valid_key_length cls _) eqn:Hvalid.
  - apply valid_key_length_accepted, accepted_variant in Hvalid as [v Hv].
    rewrite (UncheckedSetKey_accepted _ _ _ _ _ v Hv). cbv zeta.
    split; [done|by intros []].
  - split; [by intros _|]. intros _.
    destruct cls; cbn [UncheckedSetKey valid_key_length] in *;
      [unfold SIMON64_UncheckedSetKey | unfold SIMON128_UncheckedSetKey];
      cbv zeta; by rewrite Hvalid.
Qed.

(** X12: after a block operation on a configured instance, the instance's
    workspace holds the two words of the input block in [m_wspace[0..1]] and
    the two words written to the output in [m_wspace[2..3]]: the last block
    processed stays in the instance in the clear. *)
Theorem workspace_after_block (debug : bool) (op : block_op)
    (inst inst' : SIMON_Base) (mem mem' : memory) (inBlock : Z)
    (xorBlock : option Z) (outBlock : Z) :
  configured (op_class op) inst = true →
  ProcessAndXorBlock debug op inst mem inBlock xorBlock outBlock
  = Ok (inst', mem') →
  let w := (GetWord (op_bits op) mem inBlock,
            GetWord (op_bits op) mem
              (inBlock + Z.of_nat (word_bytes (op_bits op)))) in
  let c := op_cipher op (m_rounds inst) w (m_rkeys inst) in
  m_wspace inst' = [w.1; w.2; c.1; c.2].
Proof.
  intros Hc E w c.
  destruct (configured_cipher op inst Hc) as (Ht & Hw & _).
  rewrite (ProcessAndXorBlock_known _ _ _ _ _ _ _ _ Ht) in E.
  unfold store_block in E. cbv zeta in E. injection E as <- _.
  destruct (on_wspace_fields (op_cipher op (m_rounds inst))
              (set_wspace inst
                 (<[1%nat := GetWord (op_bits op) mem
                               (inBlock + Z.of_nat (word_bytes (op_bits op)))]>
                    (<[0%nat := GetWord (op_bits op) mem inBlock]>
                       (m_wspace inst)))))
    as (_ & _ & _ & ->).
  cbn [set_wspace m_wspace m_rkeys].
  destruct (m_wspace inst) as [|a0 [|a1 [|a2 [|a3 [|a4 l]]]]]; try done.
Qed.

Lemma workspace_after_block_witness :
  (configured (op_class SIMON64_Enc) race_instance = true
   ∧ ProcessAndXorBlock true SIMON64_Enc race_instance race_memory 0 None 16
     = Ok (race_result.1, race_result.2))
  ∧ m_wspace race_result.1
    = [(GetWord (op_bits SIMON64_Enc) race_memory 0,
        GetWord (op_bits SIMON64_Enc) race_memory
          (0 + Z.of_nat (word_bytes (op_bits SIMON64_Enc)))).1;
       (GetWord (op_bits SIMON64_Enc) race_memory 0,
        GetWord (op_bits SIMON64_Enc) race_memory
          (0 + Z.of_nat (word_bytes (op_bits SIMON64_Enc)))).2;
       (op_cipher SIMON64_Enc (m_rounds race_instance)
          (GetWord (op_bits SIMON64_Enc) race_memory 0,
           GetWord (op_bits SIMON64_Enc) race_memory
             (0 + Z.of_nat (word_bytes (op_bits SIMON64_Enc))))
          (m_rkeys race_instance)).1;
       (op_cipher SIMON64_Enc (m_rounds race_instance)
          (GetWord (op_bits SIMON64_Enc) race_memory 0,
           GetWord (op_bits SIMON64_Enc) race_memory
             (0 + Z.of_nat (word_bytes (op_bits SIMON64_Enc))))
          (m_rkeys race_instance)).2].
Proof.
  split; [split; vm_compute; reflexivity|].
  apply (workspace_after_block true SIMON64_Enc race_instance race_result.1
           race_memory race_result.2 0 None 16); vm_compute; reflexivity.
Defined.

(** ** What the z-driven loop leaves in the array *)

(** C3, amended: the z-driven loop of [SIMON64_ExpandKey_42R3K] makes
    exactly 39 passes, that of [SIMON64_ExpandKey_44R4K] exactly 40, and that
    of each SIMON-128 routine exactly 64 (none makes 62), and it stops with
    the counter at the first index it does not write.  Each pass stores one
    derived word: in the array the loop leaves, the entry at every index [i]
    from [m] up to the loop bound is the routine's right-hand side over that
    array with the bit of [z] reached at that pass,
    [key[i] = rhs(z >> (i - m), key, i)]; the [m] entries below are the
    user-key words in reverse order, and the entries from the loop bound on
    (the tail indices of the SIMON-128 routines among them) are those of the
    array the routine was given. *)
Theorem zloop_word_count (v : variant) (key k : list Z) (n : nat) :
  (runs_exactly (zloop_step v) n (zloop_seed v key k) = true
   ↔ n = match v with
         | SIMON64_96 => 39%nat
         | SIMON64_128 => 40%nat
         | SIMON128_128 | SIMON128_192 | SIMON128_256 => 64%nat
         end)
  ∧ es_i (while_loop (zloop_step v) (Z.to_nat (rounds_of v))
            (zloop_seed v key k))
    = match v with
      | SIMON64_96 => 42%nat
      | SIMON64_128 => 44%nat
      | SIMON128_128 => 66%nat
      | SIMON128_192 => 67%nat
      | SIMON128_256 => 68%nat
      end
  ∧ (Z.of_nat (length key) = rounds_of v →
     let L := es_key (while_loop (zloop_step v) (Z.to_nat (rounds_of v))
                        (zloop_seed v key k)) in
     length L = length key
     ∧ (∀ i : nat, (i < key_words v)%nat →
          L !!! i = k !!! (key_words v - 1 - i)%nat)
     ∧ (∀ i : nat, (key_words v ≤ i < zloop_bound v)%nat →
          L !!! i
          = zloop_rhs v (Z.shiftr (zloop_z v) (Z.of_nat (i - key_words v)))
              L i)
     ∧ (∀ i : nat, (zloop_bound v ≤ i)%nat → L !!! i = key !!! i)).
Proof.
  destruct (zloop_passes v key k) as (s' & Hit & Hstop & Hi & _ & Hlen & Hframe).
  assert (Hrun : runs_exactly (zloop_step v) (zloop_words v)
                   (zloop_seed v key k) = true).
  { unfold runs_exactly. by rewrite Hit, Hstop. }
  rewrite (zloop_while v key k s' Hit Hstop).
  split; [|split].
  - split.
    + intros Hn. rewrite (runs_exactly_unique _ _ _ _ Hn Hrun). by destruct v.
    + intros ->. by destruct v.
  - rewrite Hi. by destruct v.
  - intros HL. cbv zeta. clear Hrun Hstop.
    destruct (zloop_seed_facts v key k) as (Si & Sl & _).
    split; [exact Hlen|]. split; [|split].
    + intros i Hlt. clear Hit. rewrite Hframe by (left; lia).
      by apply zloop_seed_entry.
    + intros i Hin. rewrite zloop_step_eq in Hit.
      rewrite <- (zloop_seed_z v key k), <- Si.
      apply (iterate_expand_recurrence (zloop_bound v) (zloop_rhs v)
               (zloop_words v) (zloop_rhs_reads_below v) _ s'); try done.
      * rewrite Si. destruct v; simpl; lia.
      * rewrite Si. destruct v; simpl; lia.
      * rewrite Sl. clear Hit. destruct v; simpl in HL |- *; lia.
      * rewrite Si. clear Hit. destruct v; simpl in Hin |- *; lia.
    + intros i Hge. clear Hit.
      rewrite Hframe by (right; destruct v; simpl in Hge |- *; lia).
      destruct v; simpl in Hge |- *; by array_simpl.
Qed.

(** C3, amended, at SIMON-128 with a 128-bit key: what the 64 passes leave
    in an array of 68 entries. *)
Lemma zloop_word_count_witness :
  Z.of_nat (length (replicate 68 0)) = rounds_of SIMON128_128
  ∧ let L := es_key (while_loop (zloop_step SIMON128_128)
                       (Z.to_nat (rounds_of SIMON128_128))
                       (zloop_seed SIMON128_128 (replicate 68 0)
                          userkey_128_128)) in
    length L = length (replicate 68 0)
    ∧ (∀ i : nat, (i < key_words SIMON128_128)%nat →
         L !!! i = userkey_128_128 !!! (key_words SIMON128_128 - 1 - i)%nat)
    ∧ (∀ i : nat, (key_words SIMON128_128 ≤ i < zloop_bound SIMON128_128)%nat →
         L !!! i
         = zloop_rhs SIMON128_128
             (Z.shiftr (zloop_z SIMON128_128)
                (Z.of_nat (i - key_words SIMON128_128))) L i)
    ∧ (∀ i : nat, (zloop_bound SIMON128_128 ≤ i)%nat →
         L !!! i = replicate 68 0 !!! i).
Proof.
  split; [reflexivity|].
  apply (proj2 (proj2 (zloop_word_count SIMON128_128 (replicate 68 0)
                         userkey_128_128 64))).
  reflexivity.
Defined.

(** ** What a call's output depends on *)

(** A block operation on a state whose round count the [switch] knows, with
    any [xorBlock] that does not overlap the output block. *)
Lemma block_op_bytes (debug : bool) (op : block_op) (inst : SIMON_Base)
    (mem : memory) (inBlock : Z) (xorBlock : option Z) (outBlock : Z)
    (t : Z * Z → list Z → Z * Z) :
  length (m_wspace inst) = 4%nat →
  op_transform op (m_rounds inst) = Some t →
  xor_apart (block_bytes op) xorBlock outBlock →
  ∃ inst' mem',
    ProcessAndXorBlock debug op inst mem inBlock xorBlock outBlock
    = Ok (inst', mem')
    ∧ load_bytes mem' outBlock (block_bytes op)
      = word_out (op_bits op) mem xorBlock
          (t (GetWord (op_bits op) mem inBlock,
              GetWord (op_bits op) mem
                (inBlock + Z.of_nat (word_bytes (op_bits op))))
             (m_rkeys inst)).1
        ++ word_out (op_bits op) mem
             ((λ x, x + Z.of_nat (word_bytes (op_bits op))) <$> xorBlock)
             (t (GetWord (op_bits op) mem inBlock,
                 GetWord (op_bits op) mem
                   (inBlock + Z.of_nat (word_bytes (op_bits op))))
                (m_rkeys inst)).2
    ∧ m_rkeys inst' = m_rkeys inst
    ∧ m_rounds inst' = m_rounds inst
    ∧ length (m_wspace inst') = 4%nat.
Proof.
  intros Hw Ht Hx.
  pose proof (ProcessAndXorBlock_known debug op inst mem inBlock xorBlock
                outBlock t Ht) as E.
  destruct (loaded_then_transformed (op_bits op) t inst mem inBlock Hw)
    as (W2 & W3 & W4). cbv zeta in W2, W3, W4.
  set (I := on_wspace t _) in *.
  pose proof (store_block_output (op_bits op) xorBlock outBlock I mem Hx) as O.
  destruct (store_block _ _ _ _) as [inst' mem'] eqn:ES.
  exists inst', mem'. split; [done|].
  destruct (ProcessAndXorBlock_keeps _ _ _ _ _ _ _ _ _ E) as (Hk & Hr & _).
  unfold store_block in ES. cbv zeta in ES. injection ES as <- _.
  cbn [snd] in O. unfold block_bytes. rewrite O.
  by rewrite W2, W3.
Qed.

(** Two memories that hold the same bytes in a block hold the same two
    words there. *)
Lemma GetWord_agree (bits : Z) (mem mem' : memory) (a : Z) :
  load_bytes mem' a (2 * word_bytes bits)
  = load_bytes mem a (2 * word_bytes bits) →
  GetWord bits mem' a = GetWord bits mem a
  ∧ GetWord bits mem' (a + Z.of_nat (word_bytes bits))
    = GetWord bits mem (a + Z.of_nat (word_bytes bits)).
Proof.
  intros H. unfold GetWord. set (n := word_bytes bits) in *.
  replace (2 * n)%nat with (n + n)%nat in H by lia.
  rewrite !load_bytes_app in H.
  apply app_inj_1 in H as [-> ->]; [done|].
  by rewrite !load_bytes_length.
Qed.

(** The bytes stored for a word depend on the memory through the bytes at
    [xorBlock] only. *)
Lemma word_out_agree (bits : Z) (mem mem' : memory) (xorBlock : option Z)
    (w1 w2 : Z) :
  (∀ x : Z, xorBlock = Some x →
     load_bytes mem' x (2 * word_bytes bits)
     = load_bytes mem x (2 * word_bytes bits)) →
  word_out bits mem' xorBlock w1 = word_out bits mem xorBlock w1
  ∧ word_out bits mem' ((λ x, x + Z.of_nat (word_bytes bits)) <$> xorBlock) w2
    = word_out bits mem ((λ x, x + Z.of_nat (word_bytes bits)) <$> xorBlock)
        w2.
Proof.
  intros H. destruct xorBlock as [x|]; [|done].
  specialize (H x eq_refl). set (n := word_bytes bits) in *.
  replace (2 * n)%nat with (n + n)%nat in H by lia.
  rewrite !load_bytes_app in H.
  apply app_inj_1 in H as [H1 H2]; [|by rewrite !load_bytes_length].
  cbn [word_out fmap option_fmap option_map]. fold n. by rewrite H1, H2.
Qed.

(** C9, amended: a call on a configured instance that no other call overlaps
    in time returns, and its output block is fixed by the round keys, the
    round count and the bytes of the call's input block alone (and the bytes
    at [xorBlock] when that is not null and lies apart from the output):
    it is the big-endian encoding of the block that the template of the
    operation's direction computes from the two input words, and a second
    instance with the same round keys and round count, whatever its
    workspace holds, run on any memory that has the same bytes in the input
    block, whatever it holds elsewhere, writes the same output bytes.  The
    call leaves the instance configured with the same round keys and round
    count, so the same holds of every later call. *)
Theorem sequential_calls_independent (debug : bool) (op : block_op)
    (inst inst' : SIMON_Base) (mem mem' : memory) (inBlock : Z)
    (xorBlock : option Z) (outBlock : Z) :
  configured (op_class op) inst = true →
  configured (op_class op) inst' = true →
  m_rkeys inst' = m_rkeys inst →
  m_rounds inst' = m_rounds inst →
  load_bytes mem' inBlock (block_bytes op)
  = load_bytes mem inBlock (block_bytes op) →
  xor_apart (block_bytes op) xorBlock outBlock →
  (∀ x : Z, xorBlock = Some x →
     load_bytes mem' x (block_bytes op) = load_bytes mem x (block_bytes op)) →
  ∃ inst1 mem1 inst1' mem1',
    ProcessAndXorBlock debug op inst mem inBlock xorBlock outBlock
    = Ok (inst1, mem1)
    ∧ ProcessAndXorBlock debug op inst' mem' inBlock xorBlock outBlock
      = Ok (inst1', mem1')
    ∧ load_bytes mem1' outBlock (block_bytes op)
      = load_bytes mem1 outBlock (block_bytes op)
    ∧ load_bytes mem1 outBlock (block_bytes op)
      = word_out (op_bits op) mem xorBlock
          (op_cipher op (m_rounds inst)
             (GetWord (op_bits op) mem inBlock,
              GetWord (op_bits op) mem
                (inBlock + Z.of_nat (word_bytes (op_bits op))))
             (m_rkeys inst)).1
        ++ word_out (op_bits op) mem
             ((λ x, x + Z.of_nat (word_bytes (op_bits op))) <$> xorBlock)
             (op_cipher op (m_rounds inst)
                (GetWord (op_bits op) mem inBlock,
                 GetWord (op_bits op) mem
                   (inBlock + Z.of_nat (word_bytes (op_bits op))))
                (m_rkeys inst)).2
    ∧ m_rkeys inst1 = m_rkeys inst
    ∧ m_rounds inst1 = m_rounds inst
    ∧ configured (op_class op) inst1 = true.
Proof.
  intros Hc Hc' Hk Hr Hin Hx Hxb.
  destruct (configured_cipher op inst Hc) as (Ht & Hw & _).
  destruct (configured_cipher op inst' Hc') as (Ht' & Hw' & _).
  destruct (block_op_bytes debug op inst mem inBlock xorBlock outBlock _
              Hw Ht Hx) as (inst1 & mem1 & E & O & K1 & R1 & W1).
  destruct (block_op_bytes debug op inst' mem' inBlock xorBlock outBlock _
              Hw' Ht' Hx) as (inst1' & mem1' & E' & O' & _).
  exists inst1, mem1, inst1', mem1'.
  split; [exact E|]. split; [exact E'|].
  split; [|split; [exact O|]].
  - rewrite O, O', Hr, Hk. clear E E' O O' Ht Ht'.
    destruct (GetWord_agree (op_bits op) mem mem' inBlock Hin) as [-> ->].
    set (c := op_cipher op _ _ _).
    by destruct (word_out_agree (op_bits op) mem mem' xorBlock c.1 c.2 Hxb)
      as [-> ->].
  - split; [exact K1|]. split; [exact R1|].
    unfold configured in Hc |- *. rewrite W1, K1, R1.
    apply andb_prop in Hc as [Hc Hc3]. apply andb_prop in Hc as [_ Hc2].
    by rewrite Hc2, Hc3.
Qed.

(** C9, amended, at the keyed SIMON-64 instance: a second instance with
    another workspace, on a memory that differs from the first outside the
    input block, writes the same output block. *)
Lemma sequential_calls_independent_witness :
  (configured (op_class SIMON64_Enc) race_instance = true
   ∧ configured (op_class SIMON64_Enc)
       (set_wspace race_instance [9; 9; 9; 9]) = true
   ∧ m_rkeys (set_wspace race_instance [9; 9; 9; 9]) = m_rkeys race_instance
   ∧ m_rounds (set_wspace race_instance [9; 9; 9; 9]) = m_rounds race_instance
   ∧ load_bytes (store_bytes race_memory 8 (bytes_of [7; 7; 7; 7; 7; 7; 7; 7]))
       0 (block_bytes SIMON64_Enc)
     = load_bytes race_memory 0 (block_bytes SIMON64_Enc)
   ∧ store_bytes race_memory 8 (bytes_of [7; 7; 7; 7; 7; 7; 7; 7]) 8
     ≠ race_memory 8)
  ∧ ∃ inst1 mem1 inst1' mem1',
      ProcessAndXorBlock true SIMON64_Enc race_instance race_memory 0 None 8
      = Ok (inst1, mem1)
      ∧ ProcessAndXorBlock true SIMON64_Enc
          (set_wspace race_instance [9; 9; 9; 9])
          (store_bytes race_memory 8 (bytes_of [7; 7; 7; 7; 7; 7; 7; 7]))
          0 None 8
        = Ok (inst1', mem1')
      ∧ load_bytes mem1' 8 (block_bytes SIMON64_Enc)
        = load_bytes mem1 8 (block_bytes SIMON64_Enc)
      ∧ load_bytes mem1 8 (block_bytes SIMON64_Enc)
        = word_out (op_bits SIMON64_Enc) race_memory None
            (op_cipher SIMON64_Enc (m_rounds race_instance)
               (GetWord (op_bits SIMON64_Enc) race_memory 0,
                GetWord (op_bits SIMON64_Enc) race_memory
                  (0 + Z.of_nat (word_bytes (op_bits SIMON64_Enc))))
               (m_rkeys race_instance)).1
          ++ word_out (op_bits SIMON64_Enc) race_memory
               ((λ x, x + Z.of_nat (word_bytes (op_bits SIMON64_Enc)))
                  <$> None)
               (op_cipher SIMON64_Enc (m_rounds race_instance)
                  (GetWord (op_bits SIMON64_Enc) race_memory 0,
                   GetWord (op_bits SIMON64_Enc) race_memory
                     (0 + Z.of_nat (word_bytes (op_bits SIMON64_Enc))))
                  (m_rkeys race_instance)).2
      ∧ m_rkeys inst1 = m_rkeys race_instance
      ∧ m_rounds inst1 = m_rounds race_instance
      ∧ configured (op_class SIMON64_Enc) inst1 = true.
Proof.
  split;
    [split; [vm_compute; reflexivity|];
     split; [vm_compute; reflexivity|];
     split; [vm_compute; reflexivity|];
     split; [vm_compute; reflexivity|];
     split; [vm_compute; reflexivity|];
     vm_compute; discriminate|].
  apply (sequential_calls_independent true SIMON64_Enc race_instance
           (set_wspace race_instance [9; 9; 9; 9]) race_memory
           (store_bytes race_memory 8 (bytes_of [7; 7; 7; 7; 7; 7; 7; 7]))
           0 None 8);
    [vm_compute; reflexivity|vm_compute; reflexivity|vm_compute; reflexivity
    |vm_compute; reflexivity|vm_compute; reflexivity|exact I
    |intros x Hx; discriminate Hx].
Defined.

(** ** What a block operation writes *)

(** The first two entries of the workspace after a block operation that
    returns are the two words of the input block. *)
Lemma ProcessAndXorBlock_loaded (debug : bool) (op : block_op)
    (inst inst' : SIMON_Base) (mem mem' : memory) (inBlock : Z)
    (xorBlock : option Z) (outBlock : Z) :
  (2 ≤ length (m_wspace inst))%nat →
  ProcessAndXorBlock debug op inst mem inBlock xorBlock outBlock
  = Ok (inst', mem') →
  m_wspace inst' !!! 0%nat = GetWord (op_bits op) mem inBlock
  ∧ m_wspace inst' !!! 1%nat
    = GetWord (op_bits op) mem (inBlock + Z.of_nat (word_bytes (op_bits op))).
Proof.
  intros Hlen.
  destruct (op_transform op (m_rounds inst)) as [t|] eqn:Ht.
  - rewrite (ProcessAndXorBlock_known _ _ _ _ _ _ _ t Ht).
    unfold store_block, load_block. cbv zeta. cbn [fst].
    intros [= <- _].
    destruct (on_wspace_fields t
                (set_wspace inst
                   (<[1%nat := GetWord (op_bits op) mem
                                 (inBlock + Z.of_nat (word_bytes (op_bits op)))]>
                      (<[0%nat := GetWord (op_bits op) mem inBlock]>
                         (m_wspace inst)))))
      as (_ & _ & _ & ->).
    cbn [set_wspace m_wspace]. split; by array_simpl.
  - unfold ProcessAndXorBlock. cbv zeta. cbn [run_phase c_op c_in].
    unfold load_block at 1. cbv zeta.
    change (Ok ?x ≫= ?k) with (k x). cbv beta.
    rewrite op_switch_eq. cbn [set_wspace m_rounds]. rewrite Ht.
    destruct debug; [done|].
    cbn. intros [= <- _]. cbn [set_wspace m_wspace]. split; by array_simpl.
Qed.

(** X9: a block operation that returns has written the [2 * sizeof(W)]
    bytes of the output block and the instance's workspace [m_wspace], and
    nothing else: every byte of the caller's memory outside the output block
    is as it was, and so are the members [m_rkeys], [m_rounds] and
    [m_kwords] of the instance; the workspace is assigned, and where it has
    been allocated its first two entries are the two words of the call's
    input block afterwards. *)
Theorem block_operation_footprint (debug : bool) (op : block_op)
    (inst inst' : SIMON_Base) (mem mem' : memory) (inBlock : Z)
    (xorBlock : option Z) (outBlock : Z) :
  ProcessAndXorBlock debug op inst mem inBlock xorBlock outBlock
  = Ok (inst', mem') →
  (∀ a : Z, a < outBlock ∨ outBlock + Z.of_nat (block_bytes op) ≤ a →
     mem' a = mem a)
  ∧ m_rkeys inst' = m_rkeys inst
  ∧ m_rounds inst' = m_rounds inst
  ∧ m_kwords inst' = m_kwords inst
  ∧ ((2 ≤ length (m_wspace inst))%nat →
     m_wspace inst' !!! 0%nat = GetWord (op_bits op) mem inBlock
     ∧ m_wspace inst' !!! 1%nat
       = GetWord (op_bits op) mem
           (inBlock + Z.of_nat (word_bytes (op_bits op)))).
Proof.
  intros E.
  split.
  - intros a Ha.
    destruct (ProcessAndXorBlock_memory _ _ _ _ _ _ _ _ _ E) as [I ->].
    by rewrite store_block_frame.
  - destruct (ProcessAndXorBlock_keeps _ _ _ _ _ _ _ _ _ E) as (-> & -> & ->).
    split; [done|]. split; [done|]. split; [done|].
    intros Hlen.
    by apply (ProcessAndXorBlock_loaded debug op inst inst' mem mem' inBlock
                xorBlock outBlock).
Qed.

(** X9 at the keyed SIMON-64 instance. *)
Lemma block_operation_footprint_witness :
  ProcessAndXorBlock true SIMON64_Enc race_instance race_memory 0 None 16
  = Ok (race_result.1, race_result.2)
  ∧ (∀ a : Z, a < 16 ∨ 16 + Z.of_nat (block_bytes SIMON64_Enc) ≤ a →
       race_result.2 a = race_memory a)
  ∧ m_rkeys race_result.1 = m_rkeys race_instance
  ∧ m_rounds race_result.1 = m_rounds race_instance
  ∧ m_kwords race_result.1 = m_kwords race_instance
  ∧ ((2 ≤ length (m_wspace race_instance))%nat →
     m_wspace race_result.1 !!! 0%nat
     = GetWord (op_bits SIMON64_Enc) race_memory 0
     ∧ m_wspace race_result.1 !!! 1%nat
       = GetWord (op_bits SIMON64_Enc) race_memory
           (0 + Z.of_nat (word_bytes (op_bits SIMON64_Enc)))).
Proof.
  split; [vm_compute; reflexivity|].
  apply (block_operation_footprint true SIMON64_Enc race_instance
           race_result.1 race_memory race_result.2 0 None 16).
  vm_compute; reflexivity.
Defined.
